(** * Batch image analyzer: a shallow embedding of [index.js]

    The development follows the source file top to bottom: the [CONFIG]
    object built from [process.env], the retry wrapper [analyzeImage], the
    item source [getImageFiles], the aggregator [processBatch], the window
    loop of [process], the persister [saveResults] and the entry point
    [main].  JavaScript strings are sequences of UTF-16 code units, numbers
    coming out of [parseInt] are integers or [NaN]. *)

From Stdlib Require Import ZArith NArith List Lia Bool String Ascii.
From stdpp Require Import base option list gmap strings.
From Equations Require Import Equations.

Open Scope Z_scope.

(** ** JavaScript values used by the program *)

(** A JavaScript string: its UTF-16 code units. *)
Definition jsstring := list N.

(** An ASCII literal of the source text as a JavaScript string. *)
Definition js (s : string) : jsstring :=
  map N_of_ascii (list_ascii_of_string s).

(** The result of [parseInt]: [NaN] or an integer.  [Num z] stands for the
    Number nearest to [z]; it is a zero exactly when [z = 0]. *)
Inductive jsnum : Type :=
| NaN
| Num (z : Z).

(** [ToBoolean] on numbers and on possibly undefined strings. *)
Definition truthy_num (n : jsnum) : bool :=
  match n with
  | NaN => false
  | Num z => negb (z =? 0)
  end.

Definition truthy_str (v : option jsstring) : bool :=
  match v with
  | Some (_ :: _) => true
  | _ => false
  end.

(** [v || d] for an optional string and for a number. *)
Definition str_or (v : option jsstring) (d : jsstring) : jsstring :=
  match v with
  | Some (c :: s) => c :: s
  | _ => d
  end.

Definition num_or (n : jsnum) (d : Z) : Z :=
  match n with
  | Num z => if z =? 0 then d else z
  | NaN => d
  end.

(** [ToString] of an environment entry: a missing one is [undefined]. *)
Definition ToString (v : option jsstring) : jsstring :=
  match v with
  | Some s => s
  | None => js "undefined"
  end.

(** ** [parseInt] with the radix left out *)

Module ParseInt.

(** White space and line terminators skipped in front of the number. *)
Definition isStrWhiteSpace (c : N) : bool :=
  (((9 <=? c) && (c <=? 13)) || (c =? 32) || (c =? 160) || (c =? 5760)
   || ((8192 <=? c) && (c <=? 8202)) || (c =? 8232) || (c =? 8233)
   || (c =? 8239) || (c =? 8287) || (c =? 12288) || (c =? 65279))%N.

Fixpoint skipWhite (s : jsstring) : jsstring :=
  match s with
  | c :: t => if isStrWhiteSpace c then skipWhite t else s
  | [] => []
  end.

(** The value of a digit in the given radix, if it is one. *)
Definition digitVal (radix : Z) (c : N) : option Z :=
  let v :=
    if ((48 <=? c) && (c <=? 57))%N then Some (Z.of_N c - 48)
    else if ((97 <=? c) && (c <=? 122))%N then Some (Z.of_N c - 87)
    else if ((65 <=? c) && (c <=? 90))%N then Some (Z.of_N c - 55)
    else None in
  match v with
  | Some d => if d <? radix then Some d else None
  | None => None
  end.

(** The longest prefix of digits, read as a number; [None] when it is
    empty. *)
Fixpoint digitsPrefix (radix : Z) (acc : option Z) (s : jsstring) : option Z :=
  match s with
  | c :: t =>
      match digitVal radix c with
      | Some d => digitsPrefix radix (Some (radix * default 0 acc + d)) t
      | None => acc
      end
  | [] => acc
  end.

Definition parseInt (input : option jsstring) : jsnum :=
  let s0 := skipWhite (ToString input) in
  let '(sign, s1) :=
    match s0 with
    | c :: t => if (c =? 45)%N then (-1, t)
                else if (c =? 43)%N then (1, t) else (1, s0)
    | [] => (1, [])
    end in
  let '(radix, s2) :=
    match s1 with
    | 48%N :: x :: t => if ((x =? 120) || (x =? 88))%N then (16, t) else (10, s1)
    | _ => (10, s1)
    end in
  match digitsPrefix radix None s2 with
  | Some m => Num (sign * m)
  | None => NaN
  end.

End ParseInt.
Export ParseInt.

(** ** Configuration *)

Record Config : Type := mkConfig {
  apiKey : option jsstring;
  model : jsstring;
  imagesDir : jsstring;
  outputFile : jsstring;
  prompt : jsstring;
  maxTokens : Z;
  concurrency : Z;
  batchDelay : Z;
  imageExtensions : list jsstring;
  maxRetries : nat;
  retryDelay : Z
}.

(** [process.env] after [dotenv.config()]. *)
Abbreviation Env := (gmap string jsstring).

Definition CONFIG (env : Env) : Config := {|
  apiKey := env !! "OPENAI_API_KEY"%string;
  model := str_or (env !! "MODEL"%string) (js "gpt-4o");
  imagesDir := str_or (env !! "IMAGES_DIR"%string) (js "./images");
  outputFile := str_or (env !! "OUTPUT_FILE"%string) (js "./results.json");
  prompt := str_or (env !! "PROMPT"%string)
    (js "Describe this image in detail, including any text, objects, people, and activities visible.");
  maxTokens := num_or (parseInt (env !! "MAX_TOKENS"%string)) 500;
  concurrency := num_or (parseInt (env !! "CONCURRENCY"%string)) 5;
  batchDelay := num_or (parseInt (env !! "BATCH_DELAY"%string)) 1000;
  imageExtensions := [js ".jpg"; js ".jpeg"; js ".png"; js ".gif"; js ".webp"];
  maxRetries := 3;
  retryDelay := 2000
|}.

(** ** JSON documents: [JSON.stringify (value, null, 2)] and [JSON.parse] *)

Module JSON.

#[local] Set Warnings "-register-all".

(** The values the program serializes.  Numbers are integers, printed in
    decimal; the members of an object are kept in the order of its
    properties. *)
Inductive json : Type :=
| JNull
| JBool (b : bool)
| JNumber (z : Z)
| JString (s : jsstring)
| JArray (items : list json)
| JObject (members : list (jsstring * json)).

(** *** Numbers *)

Fixpoint digits_aux (fuel : nat) (n : N) (acc : jsstring) : jsstring :=
  match fuel with
  | O => acc
  | S fuel' =>
      let acc' := (48 + n mod 10)%N :: acc in
      if (n / 10 =? 0)%N then acc' else digits_aux fuel' (n / 10)%N acc'
  end.

Definition digits (n : N) : jsstring := digits_aux (S (N.to_nat (N.log2 n))) n [].

Definition number_text (z : Z) : jsstring :=
  if z <? 0 then 45%N :: digits (Z.to_N (- z)) else digits (Z.to_N z).

(** *** Strings: [QuoteJSONString] *)

Definition hex_digit (d : N) : N :=
  if (d <? 10)%N then (48 + d)%N else (87 + d)%N.

(** [\uXXXX] with lower-case digits. *)
Definition unicode_escape (c : N) : jsstring :=
  [92; 117; hex_digit (c / 4096 mod 16); hex_digit (c / 256 mod 16);
   hex_digit (c / 16 mod 16); hex_digit (c mod 16)]%N.

Definition is_high_surrogate (c : N) : bool := ((55296 <=? c) && (c <=? 56319))%N.
Definition is_low_surrogate (c : N) : bool := ((56320 <=? c) && (c <=? 57343))%N.

(** A code unit that is not part of a surrogate pair. *)
Definition quote_unit (c : N) : jsstring :=
  if (c =? 8)%N then js "\b"
  else if (c =? 9)%N then js "\t"
  else if (c =? 10)%N then js "\n"
  else if (c =? 12)%N then js "\f"
  else if (c =? 13)%N then js "\r"
  else if (c =? 34)%N then [92; 34]%N
  else if (c =? 92)%N then [92; 92]%N
  else if (c <? 32)%N || is_high_surrogate c || is_low_surrogate c
       then unicode_escape c
  else [c].

Fixpoint quote_units (s : jsstring) : jsstring :=
  match s with
  | [] => []
  | c :: t =>
      if is_high_surrogate c then
        match t with
        | d :: t' =>
            if is_low_surrogate d then c :: d :: quote_units t'
            else unicode_escape c ++ quote_units t
        | [] => unicode_escape c
        end
      else quote_unit c ++ quote_units t
  end.

Definition quote (s : jsstring) : jsstring := 34%N :: quote_units s ++ [34%N].

(** *** [SerializeJSONProperty] with a gap of two spaces *)

Definition gap : jsstring := js "  ".

(** The partial strings of an array or object, joined by a comma, a line
    feed and the indentation. *)
Fixpoint join_lines (indent : jsstring) (parts : list jsstring) : jsstring :=
  match parts with
  | [] => []
  | [p] => p
  | p :: rest => p ++ 44%N :: 10%N :: indent ++ join_lines indent rest
  end.

Definition wrap (open close : N) (stepback indent : jsstring)
  (parts : list jsstring) : jsstring :=
  match parts with
  | [] => [open; close]
  | _ => open :: 10%N :: indent ++ join_lines indent parts
           ++ 10%N :: stepback ++ [close]
  end.

Fixpoint serialize (indent : jsstring) (v : json) : jsstring :=
  match v with
  | JNull => js "null"
  | JBool true => js "true"
  | JBool false => js "false"
  | JNumber z => number_text z
  | JString s => quote s
  | JArray items =>
      wrap 91 93 indent (indent ++ gap)
        (map (serialize (indent ++ gap)) items)
  | JObject members =>
      wrap 123 125 indent (indent ++ gap)
        (map (fun m => quote (fst m) ++ 58%N :: 32%N
                         :: serialize (indent ++ gap) (snd m)) members)
  end.

Definition stringify (v : json) : jsstring := serialize [] v.

(** *** [JSON.parse] *)

Definition is_ws (c : N) : bool :=
  ((c =? 32) || (c =? 9) || (c =? 10) || (c =? 13))%N.

Fixpoint skip_ws (s : jsstring) : jsstring :=
  match s with
  | c :: t => if is_ws c then skip_ws t else s
  | [] => []
  end.

Definition is_digit (c : N) : bool := ((48 <=? c) && (c <=? 57))%N.

Fixpoint parse_digits (acc : N) (s : jsstring) : N * jsstring :=
  match s with
  | c :: t => if is_digit c then parse_digits (acc * 10 + (c - 48))%N t
              else (acc, s)
  | [] => (acc, [])
  end.

(** The integer part [0 | [1-9][0-9]*]; a fraction or an exponent is
    outside the values modelled here. *)
Definition parse_int (s : jsstring) : option (N * jsstring) :=
  match s with
  | c :: t =>
      if (c =? 48)%N then
        match t with
        | d :: _ => if is_digit d then None else Some (0%N, t)
        | [] => Some (0%N, t)
        end
      else if is_digit c then Some (parse_digits 0 s)
      else None
  | [] => None
  end.

Definition no_fraction (s : jsstring) : bool :=
  match s with
  | c :: _ => negb ((c =? 46) || (c =? 101) || (c =? 69))%N
  | [] => true
  end.

Definition parse_number (s : jsstring) : option (Z * jsstring) :=
  match s with
  | c :: t =>
      '(n, rest) ← (if (c =? 45)%N then parse_int t else parse_int s);
      if no_fraction rest
      then Some (if (c =? 45)%N then - Z.of_N n else Z.of_N n, rest)
      else None
  | [] => None
  end.

Definition hex_value (c : N) : option N :=
  if is_digit c then Some (c - 48)%N
  else if ((97 <=? c) && (c <=? 102))%N then Some (c - 87)%N
  else if ((65 <=? c) && (c <=? 70))%N then Some (c - 55)%N
  else None.

(** The code unit after a backslash. *)
Definition parse_escape (s : jsstring) : option (N * jsstring) :=
  match s with
  | c :: t =>
      if (c =? 34)%N || (c =? 92)%N || (c =? 47)%N then Some (c, t)
      else if (c =? 98)%N then Some (8%N, t)
      else if (c =? 102)%N then Some (12%N, t)
      else if (c =? 110)%N then Some (10%N, t)
      else if (c =? 114)%N then Some (13%N, t)
      else if (c =? 116)%N then Some (9%N, t)
      else if (c =? 117)%N then
        match t with
        | a :: b :: c' :: d :: t' =>
            x3 ← hex_value a; x2 ← hex_value b;
            x1 ← hex_value c'; x0 ← hex_value d;
            Some (x3 * 4096 + x2 * 256 + x1 * 16 + x0, t')%N
        | _ => None
        end
      else None
  | [] => None
  end.

(** The characters of a string, after its opening quote. *)
Fixpoint parse_chars (fuel : nat) (s : jsstring) : option (jsstring * jsstring) :=
  match fuel with
  | O => None
  | S fuel' =>
      match s with
      | c :: t =>
          if (c =? 34)%N then Some ([], t)
          else if (c =? 92)%N then
            '(u, t') ← parse_escape t;
            '(us, rest) ← parse_chars fuel' t';
            Some (u :: us, rest)
          else if (c <? 32)%N then None
          else
            '(us, rest) ← parse_chars fuel' t;
            Some (c :: us, rest)
      | [] => None
      end
  end.

Definition parse_string (s : jsstring) : option (jsstring * jsstring) :=
  match s with
  | c :: t => if (c =? 34)%N then parse_chars (S (length t)) t else None
  | [] => None
  end.

Definition expect (lit : jsstring) (s : jsstring) : option jsstring :=
  if decide (take (length lit) s = lit) then Some (drop (length lit) s) else None.

Fixpoint parse_value (fuel : nat) (s : jsstring) : option (json * jsstring) :=
  match fuel with
  | O => None
  | S fuel' =>
      match skip_ws s with
      | c :: t =>
          if (c =? 110)%N then rest ← expect (js "ull") t; Some (JNull, rest)
          else if (c =? 116)%N then rest ← expect (js "rue") t; Some (JBool true, rest)
          else if (c =? 102)%N then rest ← expect (js "alse") t; Some (JBool false, rest)
          else if (c =? 34)%N then
            '(str, rest) ← parse_string (c :: t); Some (JString str, rest)
          else if (c =? 91)%N then
            match skip_ws t with
            | d :: t' =>
                if (d =? 93)%N then Some (JArray [], t')
                else '(items, rest) ← parse_elements fuel' t; Some (JArray items, rest)
            | [] => None
            end
          else if (c =? 123)%N then
            match skip_ws t with
            | d :: t' =>
                if (d =? 125)%N then Some (JObject [], t')
                else '(members, rest) ← parse_members fuel' t; Some (JObject members, rest)
            | [] => None
            end
          else '(z, rest) ← parse_number (c :: t); Some (JNumber z, rest)
      | [] => None
      end
  end
with parse_elements (fuel : nat) (s : jsstring) : option (list json * jsstring) :=
  match fuel with
  | O => None
  | S fuel' =>
      '(v, t) ← parse_value fuel' s;
      match skip_ws t with
      | c :: t' =>
          if (c =? 44)%N then
            '(vs, rest) ← parse_elements fuel' t'; Some (v :: vs, rest)
          else if (c =? 93)%N then Some ([v], t')
          else None
      | [] => None
      end
  end
with parse_members (fuel : nat) (s : jsstring)
  : option (list (jsstring * json) * jsstring) :=
  match fuel with
  | O => None
  | S fuel' =>
      '(k, t0) ← parse_string (skip_ws s);
      match skip_ws t0 with
      | c :: t1 =>
          if (c =? 58)%N then
            '(v, t) ← parse_value fuel' t1;
            match skip_ws t with
            | d :: t' =>
                if (d =? 44)%N then
                  '(ms, rest) ← parse_members fuel' t'; Some ((k, v) :: ms, rest)
                else if (d =? 125)%N then Some ([(k, v)], t')
                else None
            | [] => None
            end
          else None
      | [] => None
      end
  end.

Definition parse (text : jsstring) : option json :=
  '(v, rest) ← parse_value (S (length text)) text;
  match skip_ws rest with
  | [] => Some v
  | _ :: _ => None
  end.

(** Reading a property of a parsed object: the last member of that name. *)
Fixpoint get_member (key : jsstring) (members : list (jsstring * json))
  : option json :=
  match members with
  | [] => None
  | (k, v) :: rest =>
      match get_member key rest with
      | Some v' => Some v'
      | None => if decide (k = key) then Some v else None
      end
  end.

Definition get (key : string) (v : json) : option json :=
  match v with
  | JObject members => get_member (js key) members
  | _ => None
  end.

End JSON.
Export JSON.

(** ** Notions used to read a document back *)

(** What may follow a number in a document. *)
Definition number_ends (rest : jsstring) : Prop :=
  match rest with
  | [] => True
  | c :: _ => is_digit c = false ∧ c ≠ 46%N ∧ c ≠ 101%N ∧ c ≠ 69%N
  end.

(** A code unit written as it is. *)
Definition plain (c : N) : Prop := (32 ≤ c)%N ∧ c ≠ 34%N ∧ c ≠ 92%N.

(** White space only, as the indentation is. *)
Definition all_ws (s : jsstring) : Prop := Forall (λ c, is_ws c = true) s.

(** How a serialized value starts. *)
Definition starts_value (c : N) : Prop :=
  is_ws c = false ∧ c ≠ 93%N ∧ c ≠ 125%N ∧ c ≠ 44%N.

(** A member of an object as it is written. *)
Definition member_text (ind' : jsstring) (m : jsstring * json) : jsstring :=
  quote m.1 ++ 58%N :: 32%N :: serialize ind' m.2.

(** A serialized value followed by [rest] is read back, leaving [rest]. *)
Definition reads_back (v : json) : Prop :=
  ∀ ind rest fuel,
    all_ws ind → number_ends rest →
    (length (serialize ind v) < fuel)%nat →
    parse_value fuel (serialize ind v ++ rest) = Some (v, rest).

(** A text without a surrogate code unit outside a pair: Node writes it as
    UTF-8 and reads it back unchanged. *)
Fixpoint well_formed (s : jsstring) : bool :=
  match s with
  | [] => true
  | c :: t =>
      if is_high_surrogate c then
        match t with
        | d :: t' => is_low_surrogate d && well_formed t'
        | [] => false
        end
      else negb (is_low_surrogate c) && well_formed t
  end.

Definition not_surrogate (c : N) : Prop :=
  is_high_surrogate c = false ∧ is_low_surrogate c = false.

(** Code units below the surrogates. *)
Definition low_units (s : jsstring) : Prop := Forall (λ c, (c < 55296)%N) s.


(** ** Values read from a document or received from the service *)

(** [ToBoolean] of a property that was read: [undefined], [null], [false],
    0 and the empty string are falsy. *)
Definition truthy (v : option json) : bool :=
  match v with
  | None | Some JNull | Some (JBool false) | Some (JString []) => false
  | Some (JNumber z) => negb (z =? 0)
  | Some _ => true
  end.

(** An object literal as [JSON.stringify] writes it: a property whose
    value is [undefined] is left out. *)
Definition object (properties : list (jsstring * option json)) : json :=
  JObject (omap (λ p, v ← p.2; Some (p.1, v)) properties).

Fixpoint join_with (separator : jsstring) (parts : list jsstring) : jsstring :=
  match parts with
  | [] => []
  | [part] => part
  | part :: rest => part ++ separator ++ join_with separator rest
  end.

(** [ToString] of a value, as [+] applies it: an array is its elements
    joined by commas, with [null] among them as the empty string, and any
    other object is [[object Object]]. *)
Fixpoint toString (v : json) : jsstring :=
  match v with
  | JNull => js "null"
  | JBool true => js "true"
  | JBool false => js "false"
  | JNumber z => number_text z
  | JString s => s
  | JArray items =>
      join_with (js ",")
        (map (λ item, match item with
                      | JNull => []
                      | _ => toString item
                      end) items)
  | JObject _ => js "[object Object]"
  end.

(** The running total of [printSummary]: a number, or a string once [+]
    has met a string, an array or an object.  Numbers are the integers of
    [json], added exactly and printed in decimal. *)
Inductive Total : Type :=
| TotalNumber (n : Z)
| TotalString (s : jsstring).

Definition total_text (sum : Total) : jsstring :=
  match sum with
  | TotalNumber n => number_text n
  | TotalString s => s
  end.

(** [sum + (x || 0)]: numbers, [true] and [null] are added as numbers to a
    number; in every other case the two are concatenated as strings. *)
Definition add_or_0 (sum : Total) (x : option json) : Total :=
  let v := if truthy x then default (JNumber 0) x else JNumber 0 in
  match sum, v with
  | TotalNumber n, JNumber z => TotalNumber (n + z)
  | TotalNumber n, JBool b => TotalNumber (n + (if b then 1 else 0))
  | TotalNumber n, JNull => TotalNumber n
  | _, _ => TotalString (total_text sum ++ toString v)
  end.

(** ** Completions, console output and timers

    A call either returns or throws an [Error] with a message.  What the
    program prints, the timers it waits for ([this.delay] in [analyzeImage]
    and in [process]), the requests it issues, the batches it hands to
    [processBatch] and the promises that resolve are recorded as events, in
    the order they happen. *)

Inductive Completion (A : Type) : Type :=
| Normal (a : A)
| Throw (message : jsstring).
Arguments Normal {A} a.
Arguments Throw {A} message.

Inductive Event : Type :=
| EvEncode (imagePath : jsstring) (retryCount : nat)
| EvRemoteCall (imagePath : jsstring) (retryCount : nat)
| EvRetryWait (ms : Z)
| EvBatchWait (ms : Z)
| EvResolved (imagePath : jsstring)
| LogRetry (image : jsstring) (attempt maxAttempts : nat)
| LogProgress (processed total : nat) (image : jsstring)
| LogItemError (message : jsstring)
| LogNoImages
| LogFound (total : nat)
| LogSaved (file : jsstring)
| LogSummary (total successful failed : nat)
| LogTokens (totalTokens : Total)
| LogFatal (message : jsstring)
| EvDispatch (batch : list jsstring)
| EvWriteFile (file text : jsstring).

(** Computations that log events and may throw. *)
Definition M (A : Type) : Type := list Event * Completion A.

Definition ret {A} (a : A) : M A := ([], Normal a).

Definition bind {A B} (m : M A) (f : A -> M B) : M B :=
  match m with
  | (evs, Normal a) => let '(evs', r) := f a in (evs ++ evs', r)
  | (evs, Throw msg) => (evs, Throw msg)
  end.

Definition emit (e : Event) : M unit := ([e], Normal tt).

Definition lift {A} (c : Completion A) : M A := ([], c).

(** [try { m } catch (error) { h error.message }]. *)
Definition try_catch {A} (m : M A) (h : jsstring -> M A) : M A :=
  match m with
  | (evs, Normal a) => (evs, Normal a)
  | (evs, Throw msg) => let '(evs', r) := h msg in (evs ++ evs', r)
  end.

#[global] Instance M_ret : MRet M := @ret.
#[global] Instance M_bind : MBind M := fun A B f m => bind m f.

(** ** The data model *)

(** The parts of a chat completion the program reads:
    [response.choices[0].message.content], [response.model] and
    [response.usage].  The program hands them on as the service sent
    them: each is any value, or [undefined] ([None]) when the response has
    no such property.  A response without [choices[0].message] makes the
    attempt throw inside the [try], like an error of the call; it is an
    answer [Throw] of the service. *)
Record Response : Type := mkResponse {
  message_content : option json;
  response_model : option json;
  response_usage : option json
}.

(** The request [analyzeImage] sends. *)
Record Request : Type := mkRequest {
  req_model : jsstring;
  req_text : jsstring;
  req_image_url : jsstring;
  req_max_tokens : Z
}.

(** The object [analyzeImage] resolves to; [success] is its tag. *)
Inductive Outcome : Type :=
| Success (image path : jsstring) (description model_ usage : option json)
          (timestamp : jsstring)
| Failure (image path error timestamp : jsstring).

Definition success (o : Outcome) : bool :=
  match o with
  | Success _ _ _ _ _ _ => true
  | Failure _ _ _ _ => false
  end.

Definition outcome_path (o : Outcome) : jsstring :=
  match o with
  | Success _ p _ _ _ _ => p
  | Failure _ p _ _ => p
  end.

(** What Node, the OpenAI client and the remote service provide.  The
    constructor of the client is given the API key and may throw.  The file
    system and the service answer an attempt, identified by the image and
    its retry count, and the clock is read when that attempt ends.  The
    names of a directory are distinct and a run makes an attempt on an
    image once, so a runtime stands for what one run meets, in the order
    in which that run went; what another order of events would have met
    is another runtime, and nothing below compares two runs over one
    runtime. *)
Record Runtime : Type := mkRuntime {
  basename : jsstring -> jsstring;
  extname : jsstring -> jsstring;
  toLowerCase : jsstring -> jsstring;
  join : jsstring -> jsstring -> jsstring;
  new_OpenAI : option jsstring -> Completion unit;
  readFile_base64 : jsstring -> nat -> Completion jsstring;
  chat_completions_create : jsstring -> nat -> Request -> Completion Response;
  now : jsstring -> nat -> jsstring;
  readdir : jsstring -> Completion (list jsstring);
  writeFile : jsstring -> jsstring -> Completion unit;
  processedAt : jsstring
}.

Section Processor.

Variable rt : Runtime.
Variable config : Config.

(** *** [imageToBase64] *)

Definition mimeTypes : list (jsstring * jsstring) :=
  [ (js ".jpg", js "image/jpeg");
    (js ".jpeg", js "image/jpeg");
    (js ".png", js "image/png");
    (js ".gif", js "image/gif");
    (js ".webp", js "image/webp") ].

Fixpoint lookup_ext (ext : jsstring) (table : list (jsstring * jsstring))
  : option jsstring :=
  match table with
  | (k, v) :: rest => if decide (k = ext) then Some v else lookup_ext ext rest
  | [] => None
  end.

(** The data URL of an image. *)
Definition data_url (imagePath base64Image : jsstring) : jsstring :=
  let ext := toLowerCase rt (extname rt imagePath) in
  let mimeType := str_or (lookup_ext ext mimeTypes) (js "image/jpeg") in
  js "data:" ++ mimeType ++ js ";base64," ++ base64Image.

Definition imageToBase64 (imagePath : jsstring) (retryCount : nat) : M jsstring :=
  emit (EvEncode imagePath retryCount) ;;
  base64Image ← lift (readFile_base64 rt imagePath retryCount) ;
  ret (data_url imagePath base64Image).

(** *** [analyzeImage] *)

(** The request, and the two objects [analyzeImage] returns. *)
Definition request (url : jsstring) : Request :=
  {| req_model := model config;
     req_text := prompt config;
     req_image_url := url;
     req_max_tokens := maxTokens config |}.

Definition success_result (imagePath : jsstring) (retryCount : nat)
  (response : Response) : Outcome :=
  Success (basename rt imagePath) imagePath
    (message_content response) (response_model response)
    (response_usage response) (now rt imagePath retryCount).

Definition failure_result (imagePath : jsstring) (retryCount : nat)
  (message : jsstring) : Outcome :=
  Failure (basename rt imagePath) imagePath message (now rt imagePath retryCount).

(** The body of the [try] block. *)
Definition attempt (imagePath : jsstring) (retryCount : nat) : M Outcome :=
  url ← imageToBase64 imagePath retryCount ;
  emit (EvRemoteCall imagePath retryCount) ;;
  response ← lift (chat_completions_create rt imagePath retryCount (request url)) ;
  ret (success_result imagePath retryCount response).

Equations? analyzeImage (imagePath : jsstring) (retryCount : nat) : M Outcome
  by wf (maxRetries config - retryCount)%nat lt :=
  analyzeImage imagePath retryCount with attempt imagePath retryCount := {
    | (evs, Normal result) := (evs, Normal result)
    | (evs, Throw message) with lt_dec retryCount (maxRetries config) := {
        | left _ :=
            bind (evs ++ [LogRetry (basename rt imagePath) (retryCount + 1)
                            (maxRetries config);
                          EvRetryWait (retryDelay config)], Normal tt)
                 (fun _ => analyzeImage imagePath (S retryCount))
        | right _ :=
            (evs, Normal (failure_result imagePath retryCount message)) } }.
Proof. lia. Qed.

(** *** [analyzeImage] between two awaits

    While its promise is pending, a call of [analyzeImage] waits for the
    file to be read, for the service to answer or for the retry delay to
    pass.  When what it waits for arrives it runs on to the next [await],
    or returns, and logs what [analyzeImage] logs on the way: [EvEncode]
    when an attempt starts and asks for the file, [EvRemoteCall] when the
    request goes out. *)

Inductive Stage : Type :=
| Reading
| Calling (url : jsstring)
| Waiting.

Record Task : Type := mkTask {
  task_path : jsstring;
  task_retry : nat;
  task_stage : Stage
}.

Inductive Progress : Type :=
| Continues (t : Task) (evs : list Event)
| Resolves (result : Outcome) (evs : list Event).

(** The [catch] block. *)
Definition on_error (t : Task) (message : jsstring) : Progress :=
  if decide (task_retry t < maxRetries config)%nat then
    Continues
      {| task_path := task_path t; task_retry := task_retry t;
         task_stage := Waiting |}
      [LogRetry (basename rt (task_path t)) (task_retry t + 1)
         (maxRetries config);
       EvRetryWait (retryDelay config)]
  else Resolves (failure_result (task_path t) (task_retry t) message) [].

Definition task_step (t : Task) : Progress :=
  match task_stage t with
  | Reading =>
      match readFile_base64 rt (task_path t) (task_retry t) with
      | Normal base64Image =>
          Continues
            {| task_path := task_path t; task_retry := task_retry t;
               task_stage := Calling (data_url (task_path t) base64Image) |}
            [EvRemoteCall (task_path t) (task_retry t)]
      | Throw message => on_error t message
      end
  | Calling url =>
      match chat_completions_create rt (task_path t) (task_retry t)
              (request url) with
      | Normal response =>
          Resolves (success_result (task_path t) (task_retry t) response) []
      | Throw message => on_error t message
      end
  | Waiting =>
      Continues
        {| task_path := task_path t; task_retry := S (task_retry t);
           task_stage := Reading |}
        [EvEncode (task_path t) (S (task_retry t))]
  end.

(** A call of [analyzeImage] from its first [await] on. *)
Definition started (imagePath : jsstring) : Task :=
  {| task_path := imagePath; task_retry := 0; task_stage := Reading |}.

Fixpoint run_task (fuel : nat) (t : Task) : option (list Event * Outcome) :=
  match fuel with
  | O => None
  | S fuel' =>
      match task_step t with
      | Resolves result evs => Some (evs, result)
      | Continues t' evs =>
          '(evs', result) ← run_task fuel' t'; Some (evs ++ evs', result)
      end
  end.

(** *** [getImageFiles] *)

Definition getImageFiles : M (list jsstring) :=
  try_catch
    (files ← lift (readdir rt (imagesDir config));
     let imageFiles :=
       filter (λ file, toLowerCase rt (extname rt file) ∈ imageExtensions config)
              files in
     mret (map (λ file, join rt (imagesDir config) file) imageFiles))
    (λ message,
       lift (Throw (js "Failed to read images directory: " ++ message))).

(** *** The fields of the processor object *)

Record RunState : Type := mkRunState {
  results : list Outcome;
  errors : list Outcome;
  processedCount : nat;
  totalCount : nat
}.

(** The constructor. *)
Definition new_processor : RunState :=
  {| results := []; errors := []; processedCount := 0; totalCount := 0 |}.

(** *** [processBatch]: what runs once [analyzeImage] has resolved *)

Definition settle (imagePath : jsstring) (result : Outcome) (st : RunState)
  : RunState * list Event :=
  let count := S (processedCount st) in
  let line := LogProgress count (totalCount st) (basename rt imagePath) in
  match result with
  | Success _ _ _ _ _ _ =>
      ({| results := results st ++ [result]; errors := errors st;
          processedCount := count; totalCount := totalCount st |},
       [line])
  | Failure _ _ error _ =>
      ({| results := results st; errors := errors st ++ [result];
          processedCount := count; totalCount := totalCount st |},
       [line; LogItemError error])
  end.

(** *** [Array.prototype.slice] *)

Definition relative_index (len k : Z) : Z :=
  if k <? 0 then Z.max (len + k) 0 else Z.min k len.

Definition slice {A} (l : list A) (start final : Z) : list A :=
  let len := Z.of_nat (length l) in
  let k := relative_index len start in
  let e := relative_index len final in
  take (Z.to_nat (e - k)) (drop (Z.to_nat k) l).

(** *** The loop of [process]

    The loop is run one step at a time.  A step either tests the loop
    condition and hands the next slice to [processBatch], which calls
    [analyzeImage] on every path of the slice, or lets one of these calls
    run on from the [await] it stands at, or, once [Promise.all] has
    resolved, waits for the delay and advances [i].  The calls of
    [analyzeImage] whose promise is pending are [inflight]; which of them
    moves next is the choice of the runtime. *)

Inductive Phase : Type :=
| LoopTest
| AwaitBatch
| LoopDone.

Record Sched : Type := mkSched {
  i : Z;
  inflight : list Task;
  this : RunState;
  console : list Event;
  phase : Phase
}.

Definition step (imageFiles : list jsstring) (choice : nat) (s : Sched) : Sched :=
  match phase s with
  | LoopTest =>
      if i s <? Z.of_nat (length imageFiles) then
        let batch := slice imageFiles (i s) (i s + concurrency config) in
        {| i := i s; inflight := map started batch; this := this s;
           console := console s
             ++ EvDispatch batch :: map (λ imagePath, EvEncode imagePath 0) batch;
           phase := AwaitBatch |}
      else
        {| i := i s; inflight := inflight s; this := this s;
           console := console s; phase := LoopDone |}
  | AwaitBatch =>
      match inflight s with
      | [] =>
          let wait :=
            if i s + concurrency config <? Z.of_nat (length imageFiles)
            then [EvBatchWait (batchDelay config)] else [] in
          {| i := i s + concurrency config; inflight := []; this := this s;
             console := console s ++ wait; phase := LoopTest |}
      | _ :: _ =>
          let k := (choice mod length (inflight s))%nat in
          match inflight s !! k with
          | Some t =>
              match task_step t with
              | Continues t' evs =>
                  {| i := i s; inflight := <[k := t']> (inflight s);
                     this := this s; console := console s ++ evs;
                     phase := AwaitBatch |}
              | Resolves result evs =>
                  let '(this', evs') := settle (task_path t) result (this s) in
                  {| i := i s; inflight := delete k (inflight s); this := this';
                     console := console s
                       ++ evs ++ EvResolved (task_path t) :: evs';
                     phase := AwaitBatch |}
              end
          | None => s
          end
      end
  | LoopDone => s
  end.

Definition exec (imageFiles : list jsstring) (choices : list nat) (s : Sched)
  : Sched :=
  fold_left (λ s choice, step imageFiles choice s) choices s.

(** The state in which [process] enters the loop. *)
Definition loop_entry (st : RunState) (printed : list Event) : Sched :=
  {| i := 0; inflight := []; this := st; console := printed; phase := LoopTest |}.

(** The requests to the service that are out. *)
Definition calls_in_flight (s : Sched) : list jsstring :=
  omap (λ t, match task_stage t with
             | Calling _ => Some (task_path t)
             | _ => None
             end) (inflight s).

(** The same loop as a step relation: the batch is dispatched, a call of
    [analyzeImage] moves to its next [await], a call returns and its
    outcome is recorded, the loop advances once the batch is empty, the
    loop exits. *)
Inductive sched_step (imageFiles : list jsstring) : Sched → Sched → Prop :=
| step_dispatch s :
    phase s = LoopTest →
    i s < Z.of_nat (length imageFiles) →
    sched_step imageFiles s
      {| i := i s;
         inflight :=
           map started (slice imageFiles (i s) (i s + concurrency config));
         this := this s;
         console := console s
           ++ EvDispatch (slice imageFiles (i s) (i s + concurrency config))
           :: map (λ imagePath, EvEncode imagePath 0)
                (slice imageFiles (i s) (i s + concurrency config));
         phase := AwaitBatch |}
| step_exit s :
    phase s = LoopTest →
    ¬ i s < Z.of_nat (length imageFiles) →
    sched_step imageFiles s
      {| i := i s; inflight := inflight s; this := this s;
         console := console s; phase := LoopDone |}
| step_progress s k t t' evs :
    phase s = AwaitBatch →
    inflight s !! k = Some t →
    task_step t = Continues t' evs →
    sched_step imageFiles s
      {| i := i s; inflight := <[k := t']> (inflight s); this := this s;
         console := console s ++ evs; phase := AwaitBatch |}
| step_settle s k t evs result this' evs' :
    phase s = AwaitBatch →
    inflight s !! k = Some t →
    task_step t = Resolves result evs →
    settle (task_path t) result (this s) = (this', evs') →
    sched_step imageFiles s
      {| i := i s; inflight := delete k (inflight s); this := this';
         console := console s ++ evs ++ EvResolved (task_path t) :: evs';
         phase := AwaitBatch |}
| step_advance s :
    phase s = AwaitBatch →
    inflight s = [] →
    sched_step imageFiles s
      {| i := i s + concurrency config; inflight := []; this := this s;
         console := console s
           ++ (if i s + concurrency config <? Z.of_nat (length imageFiles)
               then [EvBatchWait (batchDelay config)] else []);
         phase := LoopTest |}
| step_halt s :
    phase s = LoopDone →
    sched_step imageFiles s s.

(** *** [saveResults] *)

(** The object literals returned by [analyzeImage], as [JSON.stringify]
    writes them: [description], [model] and [usage] are there when the
    response had them. *)
Definition outcome_json (o : Outcome) : json :=
  match o with
  | Success image path description model_ usage timestamp =>
      object [ (js "image", Some (JString image));
               (js "path", Some (JString path));
               (js "success", Some (JBool true));
               (js "description", description);
               (js "model", model_);
               (js "usage", usage);
               (js "timestamp", Some (JString timestamp)) ]
  | Failure image path error timestamp =>
      object [ (js "image", Some (JString image));
               (js "path", Some (JString path));
               (js "success", Some (JBool false));
               (js "error", Some (JString error));
               (js "timestamp", Some (JString timestamp)) ]
  end.

Definition output (st : RunState) : json :=
  JObject
    [ (js "metadata",
       JObject [ (js "processedAt", JString (processedAt rt));
                 (js "totalImages", JNumber (Z.of_nat (totalCount st)));
                 (js "successfulCount", JNumber (Z.of_nat (length (results st))));
                 (js "errorCount", JNumber (Z.of_nat (length (errors st))));
                 (js "model", JString (model config));
                 (js "prompt", JString (prompt config)) ]);
      (js "results", JArray (map outcome_json (results st)));
      (js "errors", JArray (map outcome_json (errors st))) ].

Definition saveResults (st : RunState) : M unit :=
  let text := stringify (output st) in
  lift (writeFile rt (outputFile config) text) ;;
  emit (EvWriteFile (outputFile config) text) ;;
  emit (LogSaved (outputFile config)).

(** [r.usage?.total_tokens]: [undefined] unless [usage] is an object with
    that property. *)
Definition usage_total (r : Outcome) : option json :=
  match r with
  | Success _ _ _ _ usage _ => usage ≫= get "total_tokens"
  | Failure _ _ _ _ => None
  end.

(** [results.reduce((sum, r) => sum + (r.usage?.total_tokens || 0), 0)]. *)
Definition totalTokens (rs : list Outcome) : Total :=
  fold_left (λ sum r, add_or_0 sum (usage_total r)) rs (TotalNumber 0).

Definition printSummary (st : RunState) : M unit :=
  emit (LogSummary (totalCount st) (length (results st)) (length (errors st))) ;;
  match results st with
  | _ :: _ => emit (LogTokens (totalTokens (results st)))
  | [] => mret tt
  end.

(** *** [process] and [main] *)

(** How a call of [process] stands after the given choices: it has
    returned, it has thrown, or the loop is still running. *)
Inductive Status : Type :=
| Returned
| Thrown (message : jsstring)
| Running.

Record Run : Type := mkRun {
  final : RunState;
  out : list Event;
  status : Status;
  loop : option Sched
}.

Definition with_total (st : RunState) (n : nat) : RunState :=
  {| results := results st; errors := errors st;
     processedCount := processedCount st; totalCount := n |}.

(** The end of [process], from the state [s] the loop has reached: the
    results are saved and the summary is printed. *)
Definition after_loop (s : Sched) : Run :=
  match phase s with
  | LoopDone =>
      match saveResults (this s) ≫= (λ _, printSummary (this s)) with
      | (evs', Normal _) =>
          {| final := this s; out := console s ++ evs';
             status := Returned; loop := Some s |}
      | (evs', Throw message) =>
          {| final := this s; out := console s ++ evs';
             status := Thrown message; loop := Some s |}
      end
  | LoopTest | AwaitBatch =>
      {| final := this s; out := console s; status := Running;
         loop := Some s |}
  end.

Definition process (choices : list nat) : Run :=
  if negb (truthy_str (apiKey config)) then
    {| final := new_processor; out := [];
       status := Thrown (js "OPENAI_API_KEY is not set in environment variables");
       loop := None |}
  else
    match getImageFiles with
    | (evs, Throw message) =>
        {| final := new_processor; out := evs; status := Thrown message;
           loop := None |}
    | (evs, Normal imageFiles) =>
        let st := with_total new_processor (length imageFiles) in
        if (totalCount st =? 0)%nat then
          {| final := st; out := evs ++ [LogNoImages]; status := Returned;
             loop := None |}
        else
          after_loop
            (exec imageFiles choices
               (loop_entry st (evs ++ [LogFound (totalCount st)])))
    end.

(** The image files among the names of a directory listing, and the state
    of the loop of [process] over them after the given choices. *)
Definition matching (files : list jsstring) : list jsstring :=
  map (λ file, join rt (imagesDir config) file)
    (filter (λ file, toLowerCase rt (extname rt file) ∈ imageExtensions config)
       files).

Definition loop_state (imageFiles : list jsstring) (choices : list nat) : Sched :=
  exec imageFiles choices
    (loop_entry (with_total new_processor (length imageFiles))
       [LogFound (length imageFiles)]).

(** The outcome of the program: the processor, if its constructor
    returned, what was printed and written, and the exit code once the
    program has ended. *)
Record Exit : Type := mkExit {
  processor : option RunState;
  stdout : list Event;
  exitCode : option Z
}.

Definition main (choices : list nat) : Exit :=
  match new_OpenAI rt (apiKey config) with
  | Throw message =>
      {| processor := None; stdout := [LogFatal message]; exitCode := Some 1 |}
  | Normal _ =>
      let r := process choices in
      match status r with
      | Returned =>
          {| processor := Some (final r); stdout := out r; exitCode := Some 0 |}
      | Thrown message =>
          {| processor := Some (final r); stdout := out r ++ [LogFatal message];
             exitCode := Some 1 |}
      | Running =>
          {| processor := Some (final r); stdout := out r; exitCode := None |}
      end
  end.

End Processor.

(** ** Reading the record of a run *)

(** The retry counts of the attempts started. *)
Definition attempts (evs : list Event) : list nat :=
  omap (λ e, match e with EvEncode _ k => Some k | _ => None end) evs.

Definition remote_calls (evs : list Event) : list (jsstring * nat) :=
  omap (λ e, match e with EvRemoteCall p k => Some (p, k) | _ => None end) evs.

(** Attempts and the waits between them. *)
Definition retry_timeline (evs : list Event) : list (nat + Z) :=
  omap (λ e, match e with
             | EvEncode _ k => Some (inl k)
             | EvRetryWait ms => Some (inr ms)
             | _ => None
             end) evs.

(** Attempts numbered from [k] on, [count] of them, with a wait of [d]
    between one and the next. *)
Fixpoint expected_timeline (d : Z) (k count : nat) : list (nat + Z) :=
  match count with
  | O => []
  | S O => [inl k]
  | S count' => inl k :: inr d :: expected_timeline d (S k) count'
  end.

Definition timeline_attempts (tl : list (nat + Z)) : list nat :=
  omap (λ x, match x with inl k => Some k | inr _ => None end) tl.

(** What the scheduler does: batches, resolved promises, waits. *)
Inductive Sk : Type :=
| SkDispatch (batch : list jsstring)
| SkResolved (imagePath : jsstring)
| SkWait (ms : Z).

Definition skeleton (evs : list Event) : list Sk :=
  omap (λ e, match e with
             | EvDispatch b => Some (SkDispatch b)
             | EvResolved p => Some (SkResolved p)
             | EvBatchWait ms => Some (SkWait ms)
             | _ => None
             end) evs.

Definition sk_dispatches (sk : list Sk) : list (list jsstring) :=
  omap (λ e, match e with SkDispatch b => Some b | _ => None end) sk.

Definition sk_waits (sk : list Sk) : list Z :=
  omap (λ e, match e with SkWait ms => Some ms | _ => None end) sk.

Definition dispatches (evs : list Event) : list (list jsstring) :=
  sk_dispatches (skeleton evs).

Definition batch_waits (evs : list Event) : list Z := sk_waits (skeleton evs).

(** Windows that are over: the batch is dispatched, its promises resolve in
    some order, the wait follows. *)
Inductive closed_windows (d : Z) : list (list jsstring) → list Sk → Prop :=
| closed_nil : closed_windows d [] []
| closed_snoc ws sk w order :
    closed_windows d ws sk →
    order ≡ₚ w →
    closed_windows d (ws ++ [w])
      (sk ++ SkDispatch w :: map SkResolved order ++ [SkWait d]).

(** The windows [ws] are over and [w] is dispatched, with the promises
    [settled] resolved so far. *)
Definition open_window (d : Z) (ws : list (list jsstring))
  (w settled : list jsstring) (sk : list Sk) : Prop :=
  ∃ sk0, closed_windows d ws sk0
         ∧ sk = sk0 ++ SkDispatch w :: map SkResolved settled.

(** A whole run over [items]: windows of [size] items and a last one of 1
    to [size], each started when the one before is settled and the wait
    is over; no wait after the last. *)
Definition windowed_run (d : Z) (size : nat) (items : list jsstring)
  (sk : list Sk) : Prop :=
  ∃ ws w order,
    open_window d ws w order sk
    ∧ order ≡ₚ w
    ∧ concat (ws ++ [w]) = items
    ∧ Forall (λ b, length b = size) ws
    ∧ (1 ≤ length w ≤ size)%nat.

Definition written (evs : list Event) : list (jsstring * jsstring) :=
  omap (λ e, match e with EvWriteFile f t => Some (f, t) | _ => None end) evs.

(** An object read back from the artifact holds an outcome: each property
    of the outcome is read from it with the outcome's value, and
    [description], [model] and [usage] are read when the outcome has
    them. *)
Definition holds (entry : json) (o : Outcome) : Prop :=
  match o with
  | Success image path description model_ usage timestamp =>
      get "image" entry = Some (JString image)
      ∧ get "path" entry = Some (JString path)
      ∧ get "success" entry = Some (JBool true)
      ∧ get "description" entry = description
      ∧ get "model" entry = model_
      ∧ get "usage" entry = usage
      ∧ get "timestamp" entry = Some (JString timestamp)
  | Failure image path error timestamp =>
      get "image" entry = Some (JString image)
      ∧ get "path" entry = Some (JString path)
      ∧ get "success" entry = Some (JBool false)
      ∧ get "error" entry = Some (JString error)
      ∧ get "timestamp" entry = Some (JString timestamp)
  end.

(** ** A small runtime to run the program on *)

Module Demo.

Fixpoint after_last (sep : N) (s : jsstring) : option jsstring :=
  match s with
  | [] => None
  | c :: t =>
      match after_last sep t with
      | Some r => Some r
      | None => if (c =? sep)%N then Some t else None
      end
  end.

(** The parts of a path between its slashes. *)
Fixpoint segments (p : jsstring) : list jsstring :=
  match p with
  | [] => [[]]
  | c :: t =>
      if (c =? 47)%N then [] :: segments t
      else match segments t with
           | seg :: rest => (c :: seg) :: rest
           | [] => [[c]]
           end
  end.

(** [path.basename]: the last part that is not empty. *)
Definition posix_basename (p : jsstring) : jsstring :=
  default [] (last (filter (λ seg, seg ≠ []) (segments p))).

(** [path.extname]: from the last dot of the base name on, unless that dot
    is its first character or the name is [..]. *)
Definition posix_extname (p : jsstring) : jsstring :=
  let name := posix_basename p in
  match after_last 46 name with
  | Some e =>
      if decide (S (length e) = length name ∨ name = js "..") then []
      else 46%N :: e
  | None => []
  end.

Definition ascii_lower (s : jsstring) : jsstring :=
  map (λ c, if ((65 <=? c) && (c <=? 90))%N then (c + 32)%N else c) s.

(** [path.normalize]: empty parts and [.] are dropped, [..] takes back the
    part before it. *)
Definition normalize_step (absolute : bool) (kept : list jsstring)
  (seg : jsstring) : list jsstring :=
  if decide (seg = [] ∨ seg = js ".") then kept
  else if decide (seg = js "..") then
    match last kept with
    | Some previous =>
        if decide (previous = js "..") then kept ++ [seg] else removelast kept
    | None => if absolute then kept else kept ++ [seg]
    end
  else kept ++ [seg].

Definition posix_normalize (p : jsstring) : jsstring :=
  match p with
  | [] => js "."
  | c :: _ =>
      let absolute := (c =? 47)%N in
      let trailing := bool_decide (last p = Some 47%N) in
      let kept := fold_left (normalize_step absolute) (segments p) [] in
      match kept with
      | [] => if absolute then js "/" else if trailing then js "./" else js "."
      | _ :: _ =>
          (if absolute then js "/" else [])
          ++ join_with (js "/") kept
          ++ (if trailing then js "/" else [])
      end
  end.

(** [path.join] of two paths. *)
Definition posix_join (dir file : jsstring) : jsstring :=
  match dir, file with
  | [], [] => js "."
  | [], _ => posix_normalize file
  | _, [] => posix_normalize dir
  | _, _ => posix_normalize (dir ++ 47%N :: file)
  end.

(** The directory listing is [listing]; the service rejects the first
    [failures imagePath] attempts on an image and answers the next. *)
Definition runtime (listing : Completion (list jsstring))
  (failures : jsstring -> nat) : Runtime := {|
  basename := posix_basename;
  extname := posix_extname;
  toLowerCase := ascii_lower;
  join := posix_join;
  new_OpenAI := λ key,
    match key with
    | Some _ => Normal tt
    | None => Throw (js "The OPENAI_API_KEY environment variable is missing or empty")
    end;
  readFile_base64 := λ _ _, Normal (js "QUJD");
  chat_completions_create := λ imagePath retryCount request,
    if (retryCount <? failures imagePath)%nat
    then Throw (js "429 attempt " ++ JSON.digits (N.of_nat retryCount))
    else Normal {| message_content := Some (JString (js "A photo."));
                   response_model := Some (JString (req_model request));
                   response_usage :=
                     Some (JObject [ (js "prompt_tokens", JNumber 1105);
                                     (js "completion_tokens", JNumber 150);
                                     (js "total_tokens", JNumber 1255) ]) |};
  now := λ _ _, js "2025-01-15T10:30:15.000Z";
  readdir := λ _, listing;
  writeFile := λ _ _, Normal tt;
  processedAt := js "2025-01-15T10:31:00.000Z"
|}.

Definition seven : list jsstring :=
  [js "a.jpg"; js "b.JPG"; js "notes.txt"; js "c.png"; js "d.gif";
   js "e.webp"; js "f.jpeg"; js "g.jpg"].

(** Two images; the service never answers for the second. *)
Definition two : list jsstring := [js "a.jpg"; js "b.png"].

Definition b_fails (imagePath : jsstring) : nat :=
  if decide (imagePath = js "images/b.png") then 99%nat else 0%nat.

Definition env (c : string) : Env :=
  {[ "OPENAI_API_KEY"%string := js "sk-test";
     "CONCURRENCY"%string := js c;
     "BATCH_DELAY"%string := js "100" ]}.

End Demo.

(** ** Invariants of the loop *)

Section LoopInvariants.

Variable config : Config.
Variable imageFiles : list jsstring.

Local Abbreviation n := (Z.of_nat (length imageFiles)).
Local Abbreviation c := (concurrency config).

(** The aggregator's counters agree with its collections. *)
Definition counted (s : Sched) : Prop :=
  processedCount (this s)
    = (length (results (this s)) + length (errors (this s)))%nat
  ∧ totalCount (this s) = length imageFiles.

(** [results] holds the successes and [errors] the failures. *)
Definition sorted_outcomes (s : Sched) : Prop :=
  Forall (λ o, success o = true) (results (this s))
  ∧ Forall (λ o, success o = false) (errors (this s)).

(** The calls in flight are for images of the slice taken at [i], each at
    most once. *)
Definition within_batch (s : Sched) : Prop :=
  match phase s with
  | AwaitBatch =>
      map task_path (inflight s) `sublist_of` slice imageFiles (i s) (i s + c)
  | _ => inflight s = []
  end.

(** With a positive [concurrency]: the items before [i] are settled, and
    those of the open batch are settled or in flight. *)
Definition progress_pos (s : Sched) : Prop :=
  0 ≤ i s ∧
  match phase s with
  | LoopTest =>
      inflight s = [] ∧ Z.of_nat (processedCount (this s)) = Z.min (i s) n
  | AwaitBatch =>
      i s < n
      ∧ Z.of_nat (processedCount (this s)) + Z.of_nat (length (inflight s))
        = Z.min (i s + c) n
      ∧ Z.of_nat (length (inflight s)) ≤ c
  | LoopDone =>
      inflight s = [] ∧ Z.of_nat (processedCount (this s)) = n
  end.

(** With a [concurrency] of zero or less: [i] never gets past 0, and only
    the slice taken at [i = 0] can hold items. *)
Definition progress_nonpos (s : Sched) : Prop :=
  i s ≤ 0 ∧ (c = 0 → i s = 0)
  ∧ Z.of_nat (processedCount (this s)) + Z.of_nat (length (inflight s)) ≤ n
  ∧ match phase s with
    | LoopTest => inflight s = [] ∧ (i s = 0 → processedCount (this s) = 0%nat)
    | AwaitBatch =>
        (c = 0 → inflight s = [] ∧ processedCount (this s) = 0%nat)
        ∧ (i s < 0 → inflight s = [])
    | LoopDone => n ≤ i s ∧ inflight s = []
    end.

(** With a positive [concurrency]: the windows dispatched so far. *)
Definition windows_inv (s : Sched) : Prop :=
  let sk := skeleton (console s) in
  let d := batchDelay config in
  let size := Z.to_nat c in
  match phase s with
  | LoopTest =>
      (i s < n
       ∧ ∃ ws, closed_windows d ws sk
               ∧ concat ws = take (Z.to_nat (i s)) imageFiles
               ∧ Forall (λ b, length b = size) ws)
      ∨ (n ≤ i s ∧ windowed_run d size imageFiles sk)
  | AwaitBatch =>
      ∃ ws settled,
        open_window d ws (slice imageFiles (i s) (i s + c)) settled sk
        ∧ concat ws = take (Z.to_nat (i s)) imageFiles
        ∧ Forall (λ b, length b = size) ws
        ∧ settled ++ map task_path (inflight s)
          ≡ₚ slice imageFiles (i s) (i s + c)
  | LoopDone => windowed_run d size imageFiles sk
  end.

(** The steps a call of [analyzeImage] has left, at most: three for each
    attempt to come. *)
Definition task_left (t : Task) : nat :=
  match task_stage t with
  | Reading => 3 * (maxRetries config - task_retry t) + 2
  | Calling _ => 3 * (maxRetries config - task_retry t) + 1
  | Waiting => 3 * (maxRetries config - S (task_retry t)) + 3
  end.

(** A bound on the steps left before the loop is done, for a positive
    [concurrency]. *)
Definition steps_left (s : Sched) : Z :=
  let per_image := 3 * Z.of_nat (maxRetries config) + 5 in
  match phase s with
  | LoopTest => per_image * Z.max (n - i s) 0 + 1
  | AwaitBatch =>
      per_image * Z.max (n - (i s + c)) 0 + 2
      + Z.of_nat (sum_list (map task_left (inflight s)))
  | LoopDone => 0
  end.

End LoopInvariants.

(** ** More on [parseInt] *)

(** What follows the digits [parseInt] reads: the end of the string or a
    code unit that is not a decimal digit. *)
Definition no_digit_next (rest : jsstring) : Prop :=
  match rest with
  | [] => True
  | c :: _ => is_digit c = false
  end.

(** ** More of the record of a run *)

(** The images whose file is read or for which a request goes out. *)
Definition touched (evs : list Event) : list jsstring :=
  omap (λ e, match e with
             | EvEncode imagePath _ => Some imagePath
             | EvRemoteCall imagePath _ => Some imagePath
             | _ => None
             end) evs.

(** The progress lines [[processed/total]] and the error lines. *)
Definition progress_lines (evs : list Event) : list (nat * nat) :=
  omap (λ e, match e with
             | LogProgress processed total _ => Some (processed, total)
             | _ => None
             end) evs.

Definition error_lines (evs : list Event) : list jsstring :=
  omap (λ e, match e with LogItemError message => Some message | _ => None end)
    evs.

Definition retry_waits (evs : list Event) : list Z :=
  omap (λ e, match e with EvRetryWait ms => Some ms | _ => None end) evs.

Definition outcome_error (o : Outcome) : option jsstring :=
  match o with
  | Failure _ _ error _ => Some error
  | Success _ _ _ _ _ _ => None
  end.

(** What [saveResults] and [printSummary] print. *)
Definition closing_lines (evs : list Event) : list Event :=
  omap (λ e, match e with
             | LogSaved _ | LogSummary _ _ _ | LogTokens _ => Some e
             | _ => None
             end) evs.

(** The tokens of a result, read as a number: [usage.total_tokens] where
    it is a number, 1 where it is [true], and 0 where the service reported
    none or a falsy one. *)
Definition tokens (r : Outcome) : option Z :=
  match usage_total r with
  | None | Some JNull | Some (JBool false) | Some (JString []) => Some 0
  | Some (JNumber z) => Some z
  | Some (JBool true) => Some 1
  | Some (JString (_ :: _)) | Some (JArray _) | Some (JObject _) => None
  end.

(** The tokens of the recorded results, added up. *)
Definition tokens_of (rs : list Outcome) : Z :=
  foldr (λ r sum, default 0 (tokens r) + sum) 0 rs.

(** The images with an outcome. *)
Definition settled_paths (st : RunState) : list jsstring :=
  map outcome_path (results st ++ errors st).

(** ** More invariants of the loop *)

Section RunInvariants.

Variable config : Config.
Variable imageFiles : list jsstring.

Local Abbreviation c := (concurrency config).

(** Only image files are read and sent. *)
Definition touches_images (s : Sched) : Prop :=
  Forall (λ imagePath, imagePath ∈ imageFiles) (touched (console s)).

(** With a positive [concurrency]: the images before [i], and those of the
    open batch, have an outcome or a call in flight, each once. *)
Definition accounted (s : Sched) : Prop :=
  match phase s with
  | LoopTest => settled_paths (this s) ≡ₚ take (Z.to_nat (i s)) imageFiles
  | AwaitBatch =>
      settled_paths (this s) ++ map task_path (inflight s)
      ≡ₚ take (Z.to_nat (i s + c)) imageFiles
  | LoopDone => settled_paths (this s) ≡ₚ imageFiles
  end.

(** The reads, requests and retry waits a call in flight may still make. *)
Definition reads_left (t : Task) : nat := maxRetries config - task_retry t.

Definition calls_left (t : Task) : nat :=
  match task_stage t with
  | Reading => S (maxRetries config) - task_retry t
  | _ => maxRetries config - task_retry t
  end.

Definition waits_left (t : Task) : nat :=
  match task_stage t with
  | Waiting => maxRetries config - S (task_retry t)
  | _ => maxRetries config - task_retry t
  end.

(** Every image dispatched has its budget of [maxRetries + 1] attempts;
    what is spent and what is left stay within it. *)
Definition in_budget (s : Sched) : Prop :=
  let dispatched := (processedCount (this s) + length (inflight s))%nat in
  Forall (λ t, (task_retry t ≤ maxRetries config)%nat
               ∧ (task_stage t = Waiting →
                  (task_retry t < maxRetries config)%nat)) (inflight s)
  ∧ (length (attempts (console s)) + sum_list (map reads_left (inflight s))
     ≤ S (maxRetries config) * dispatched)%nat
  ∧ (length (remote_calls (console s)) + sum_list (map calls_left (inflight s))
     ≤ S (maxRetries config) * dispatched)%nat
  ∧ (length (retry_waits (console s)) + sum_list (map waits_left (inflight s))
     ≤ maxRetries config * dispatched)%nat.

(** The lines printed by [processBatch]: the count goes up by one from 1,
    and the error lines are the messages of [errors]. *)
Definition lines_printed (s : Sched) : Prop :=
  progress_lines (console s)
  = map (λ k, (k, totalCount (this s))) (seq 1 (processedCount (this s)))
  ∧ error_lines (console s) = omap outcome_error (errors (this s)).

End RunInvariants.

(** ** More runtimes to run the program on *)

Module Samples.

Definition read_only (listing : list jsstring) (failures : jsstring → nat)
  : Runtime :=
  let rt := Demo.runtime (Normal listing) failures in
  {| basename := basename rt;
     extname := extname rt;
     toLowerCase := toLowerCase rt;
     join := join rt;
     new_OpenAI := new_OpenAI rt;
     readFile_base64 := readFile_base64 rt;
     chat_completions_create := chat_completions_create rt;
     now := now rt;
     readdir := readdir rt;
     writeFile := λ _ _, Throw (js "EACCES: permission denied, open './results.json'");
     processedAt := processedAt rt |}.


End Samples.

(** * The extractor: a shallow embedding of [extract-descriptions.js]

    The script reads the result files of a directory, collects the
    descriptions of the results that succeeded and writes two documents.
    A document read by [JSON.parse] is a [json] value whose members are
    the object's own properties in their order ([get] reads one); its
    numbers are integers. *)

Module Extractor.

(** The document [saveResults] of [index.js] writes. *)
Definition artifact (rt : Runtime) (config : Config) (st : RunState) : json :=
  output rt config st.

(** ** String methods *)

Fixpoint startsWith (prefix s : jsstring) : bool :=
  match prefix, s with
  | [], _ => true
  | p :: prefix', c :: s' => (p =? c)%N && startsWith prefix' s'
  | _ :: _, [] => false
  end.

Definition endsWith (suffix s : jsstring) : bool :=
  startsWith (rev suffix) (rev s).

Fixpoint includes (sub s : jsstring) : bool :=
  startsWith sub s ||
  match s with
  | [] => false
  | _ :: s' => includes sub s'
  end.

(** [s.replace (pattern, replacement)] for a pattern that is a string and
    a replacement without [$]: the first occurrence is replaced. *)
Fixpoint replace (pattern replacement s : jsstring) : jsstring :=
  if startsWith pattern s then replacement ++ drop (length pattern) s
  else match s with
       | [] => []
       | c :: s' => c :: replace pattern replacement s'
       end.

(** ** Values *)

Definition isArray (v : option json) : bool :=
  match v with
  | Some (JArray _) => true
  | _ => false
  end.

Definition elements (v : option json) : list json :=
  match v with
  | Some (JArray items) => items
  | _ => []
  end.

(** [result.usage?.total_tokens]. *)
Definition usage_total_tokens (result : json) : option json :=
  match get "usage" result with
  | None | Some JNull => None
  | Some usage => get "total_tokens" usage
  end.

(** ** What the script prints, reads and writes *)

Inductive Line : Type :=
| LogStart
| LogNoFiles
| LogFound (jsonFiles : nat)
| LogReadingFrom (dir : jsstring)
| ReadFile (filePath : jsstring)
| LogFileError (file message : jsstring)
| WriteFile (file text : jsstring)
| LogSummary (totalFiles totalImages successfulDescriptions failedImages : nat)
| LogSavedTo (simple detailed : jsstring)
| LogComplete
| LogFatal (message : jsstring).

(** What Node provides.  [null_property name] is the message of the
    [TypeError] thrown when the property [name] of [null] is read. *)
Record Host : Type := mkHost {
  readdir : jsstring → Completion (list jsstring);
  readFile : jsstring → Completion jsstring;
  JSON_parse : jsstring → Completion json;
  writeFile : jsstring → jsstring → Completion unit;
  join : jsstring → jsstring → jsstring;
  extractedAt : jsstring;
  null_property : string → jsstring
}.

(** An element of [allDescriptions]; a property that is [undefined] is
    left out when the object is serialized. *)
Record Item : Type := mkItem {
  item_image : option json;
  item_description : option json;
  item_timestamp : option json;
  item_tokens : json
}.

(** [allDescriptions] and the counters of [metadata]. *)
Record Tally : Type := mkTally {
  allDescriptions : list Item;
  totalImages : nat;
  successfulDescriptions : nat;
  failedImages : nat
}.

Definition empty_tally : Tally :=
  {| allDescriptions := []; totalImages := 0; successfulDescriptions := 0;
     failedImages := 0 |}.

(** What the counters keep: a description counted is a description kept,
    it is truthy, and the descriptions and the failed images are among
    the images counted. *)
Definition tally_ok (t : Tally) : Prop :=
  successfulDescriptions t = length (allDescriptions t)
  ∧ (successfulDescriptions t + failedImages t ≤ totalImages t)%nat
  ∧ Forall (λ item, ∃ d, item_description item = Some d) (allDescriptions t).

Definition RESULTS_DIR : jsstring := js "./results".
Definition OUTPUT_FILE : jsstring := js "./extracts/descriptions.json".

Section Script.

Variable h : Host.

(** *** The body of the loop over [data.results] *)

Definition extract_result (result : json) (t : Tally) : Tally * Completion unit :=
  let counted :=
    {| allDescriptions := allDescriptions t;
       totalImages := S (totalImages t);
       successfulDescriptions := successfulDescriptions t;
       failedImages := failedImages t |} in
  match result with
  | JNull => (counted, Throw (null_property h "success"))
  | _ =>
      if truthy (get "success" result) && truthy (get "description" result) then
        let tokens := usage_total_tokens result in
        ({| allDescriptions :=
              allDescriptions t
              ++ [ {| item_image := get "image" result;
                      item_description := get "description" result;
                      item_timestamp := get "timestamp" result;
                      item_tokens :=
                        if truthy tokens then default JNull tokens else JNull |} ];
            totalImages := S (totalImages t);
            successfulDescriptions := S (successfulDescriptions t);
            failedImages := failedImages t |},
         Normal tt)
      else (counted, Normal tt)
  end.

Fixpoint extract_results (results : list json) (t : Tally)
  : Tally * Completion unit :=
  match results with
  | [] => (t, Normal tt)
  | result :: rest =>
      match extract_result result t with
      | (t', Normal _) => extract_results rest t'
      | (t', Throw message) => (t', Throw message)
      end
  end.

(** *** The body of the inner [try], after [JSON.parse] *)

Definition extract_data (data : json) (t : Tally) : Tally * Completion unit :=
  match data with
  | JNull => (t, Throw (null_property h "results"))
  | _ =>
      let results := get "results" data in
      let '(t1, c) :=
        if truthy results && isArray results
        then extract_results (elements results) t
        else (t, Normal tt) in
      match c with
      | Throw message => (t1, Throw message)
      | Normal _ =>
          let errors := get "errors" data in
          if truthy errors && isArray errors then
            ({| allDescriptions := allDescriptions t1;
                totalImages := totalImages t1 + length (elements errors);
                successfulDescriptions := successfulDescriptions t1;
                failedImages := failedImages t1 + length (elements errors) |},
             Normal tt)
          else (t1, Normal tt)
      end
  end.

(** *** The body of the loop over [jsonFiles] *)

Definition extract_file (file : jsstring) (t : Tally) : Tally * list Line :=
  let filePath := join h RESULTS_DIR file in
  match readFile h filePath with
  | Throw message => (t, [ReadFile filePath; LogFileError file message])
  | Normal content =>
      match JSON_parse h content with
      | Throw message => (t, [ReadFile filePath; LogFileError file message])
      | Normal data =>
          match extract_data data t with
          | (t', Normal _) => (t', [ReadFile filePath])
          | (t', Throw message) =>
              (t', [ReadFile filePath; LogFileError file message])
          end
      end
  end.

Fixpoint extract_files (jsonFiles : list jsstring) (t : Tally)
  : Tally * list Line :=
  match jsonFiles with
  | [] => (t, [])
  | file :: rest =>
      let '(t', lines) := extract_file file t in
      let '(t'', lines') := extract_files rest t' in
      (t'', lines ++ lines')
  end.

(** *** The documents *)

Definition metadata (totalFiles : nat) (t : Tally) : json :=
  JObject [ (js "extractedAt", JString (extractedAt h));
            (js "totalFiles", JNumber (Z.of_nat totalFiles));
            (js "totalImages", JNumber (Z.of_nat (totalImages t)));
            (js "successfulDescriptions",
             JNumber (Z.of_nat (successfulDescriptions t)));
            (js "failedImages", JNumber (Z.of_nat (failedImages t))) ].

Definition item_json (item : Item) : json :=
  object [ (js "image", item_image item);
           (js "description", item_description item);
           (js "timestamp", item_timestamp item);
           (js "tokens", Some (item_tokens item)) ].

(** [output]: an element of an array that is [undefined] is written as
    [null]. *)
Definition output (totalFiles : nat) (t : Tally) : json :=
  JObject [ (js "metadata", metadata totalFiles t);
            (js "descriptions",
             JArray (map (λ item, default JNull (item_description item))
                       (allDescriptions t))) ].

Definition detailedOutput (totalFiles : nat) (t : Tally) : json :=
  JObject [ (js "metadata", metadata totalFiles t);
            (js "descriptions", JArray (map item_json (allDescriptions t))) ].

Definition detailedOutputFile : jsstring :=
  replace (js ".json") (js "-detailed.json") OUTPUT_FILE.

(** *** [extractDescriptions] *)

Definition jsonFiles (files : list jsstring) : list jsstring :=
  List.filter
    (λ file, endsWith (js ".json") file && negb (includes (js "summary") file))
    files.

Record Exit : Type := mkExit {
  stdout : list Line;
  exitCode : Z
}.

Definition fatal (lines : list Line) (message : jsstring) : Exit :=
  {| stdout := lines ++ [LogFatal message]; exitCode := 1 |}.

Definition extractDescriptions : Exit :=
  match readdir h RESULTS_DIR with
  | Throw message => fatal [LogStart] message
  | Normal files =>
      let found := jsonFiles files in
      if (length found =? 0)%nat then
        {| stdout := [LogStart; LogNoFiles]; exitCode := 0 |}
      else
        let '(t, lines) := extract_files found empty_tally in
        let printed :=
          [LogStart; LogFound (length found); LogReadingFrom RESULTS_DIR]
          ++ lines in
        let text := stringify (output (length found) t) in
        match writeFile h OUTPUT_FILE text with
        | Throw message => fatal printed message
        | Normal _ =>
            let text' := stringify (detailedOutput (length found) t) in
            match writeFile h detailedOutputFile text' with
            | Throw message =>
                fatal (printed ++ [WriteFile OUTPUT_FILE text]) message
            | Normal _ =>
                {| stdout :=
                     printed
                     ++ [WriteFile OUTPUT_FILE text;
                         WriteFile detailedOutputFile text';
                         LogSummary (length found) (totalImages t)
                           (successfulDescriptions t) (failedImages t);
                         LogSavedTo OUTPUT_FILE detailedOutputFile;
                         LogComplete];
                   exitCode := 0 |}
            end
        end
  end.

End Script.

(** ** Reading the record of an extraction *)

Definition reads (lines : list Line) : list jsstring :=
  omap (λ l, match l with ReadFile filePath => Some filePath | _ => None end)
    lines.

Definition writes (lines : list Line) : list (jsstring * jsstring) :=
  omap (λ l, match l with WriteFile f t => Some (f, t) | _ => None end) lines.

Definition file_errors (lines : list Line) : list jsstring :=
  omap (λ l, match l with LogFileError file _ => Some file | _ => None end)
    lines.

(** ** Artifacts of [index.js] as result files *)

(** The results of an artifact that carry a description: one that is
    not falsy. *)
Definition described (rs : list Outcome) : list Outcome :=
  List.filter
    (λ r, match r with
          | Success _ _ description _ _ _ => truthy description
          | Failure _ _ _ _ => false
          end) rs.

(** What the extractor keeps of such a result. *)
Definition item_of (r : Outcome) : Item :=
  match r with
  | Success image _ description _ usage timestamp =>
      {| item_image := Some (JString image);
         item_description := description;
         item_timestamp := Some (JString timestamp);
         item_tokens :=
           let tokens := usage ≫= get "total_tokens" in
           if truthy tokens then default JNull tokens else JNull |}
  | Failure image _ _ timestamp =>
      {| item_image := Some (JString image); item_description := None;
         item_timestamp := Some (JString timestamp); item_tokens := JNull |}
  end.

(** The tally after one more artifact. *)
Definition add_artifact (st : RunState) (t : Tally) : Tally :=
  {| allDescriptions := allDescriptions t ++ map item_of (described (results st));
     totalImages :=
       totalImages t + length (results st) + length (errors st);
     successfulDescriptions :=
       successfulDescriptions t + length (described (results st));
     failedImages := failedImages t + length (errors st) |}.

(** The tally of the artifacts of several runs, and the descriptions the
    simple list then holds. *)
Definition tally_of (sts : list RunState) : Tally :=
  foldl (λ t st, add_artifact st t) empty_tally sts.

Definition description_json (r : Outcome) : json :=
  match r with
  | Success _ _ description _ _ _ => default JNull description
  | Failure _ _ _ _ => JNull
  end.

(** ** A host to run the script on *)

(** The directory holds the given files, by name; a file that is not
    there cannot be read, [JSON.parse] reads what [parse] reads, and the
    files named [unwritable] cannot be written. *)
Definition host (files : list (jsstring * jsstring)) (unwritable : list jsstring)
  : Host :=
  {| readdir := λ _, Normal (map fst files);
     readFile := λ filePath,
       match List.find (λ f, bool_decide (js "results/" ++ f.1 = filePath)) files with
       | Some f => Normal f.2
       | None => Throw (js "ENOENT: no such file or directory")
       end;
     JSON_parse := λ text,
       match parse text with
       | Some v => Normal v
       | None => Throw (js "Unexpected token in JSON")
       end;
     writeFile := λ file _,
       if bool_decide (file ∈ unwritable)
       then Throw (js "EACCES: permission denied")
       else Normal tt;
     join := λ _ file, js "results/" ++ file;
     extractedAt := js "2025-01-16T08:00:00.000Z";
     null_property := λ name,
       js "Cannot read properties of null (reading '" ++ js name ++ js "')" |}.

End Extractor.

(** * Properties *)

(** ** JSON: what is written is read back *)

Section NumberFacts.

Lemma parse_digits_stop a rest :
  number_ends rest → parse_digits a rest = (a, rest).
Proof.
  destruct rest as [|c t]; [done|]. simpl. intros (-> & _). done.
Qed.

Lemma digit_is_digit d : (d < 10)%N → is_digit (48 + d) = true.
Proof. intros H. unfold is_digit. apply andb_true_intro. split; apply N.leb_le; lia. Qed.

Lemma div10_bound n fuel :
  (n < 2 ^ N.of_nat (S fuel))%N → (n / 10 < 2 ^ N.of_nat fuel)%N.
Proof.
  intros Hn. rewrite Nat2N.inj_succ, N.pow_succ_r' in Hn.
  apply N.Div0.div_lt_upper_bound.
  generalize dependent (2 ^ N.of_nat fuel)%N. intros. lia.
Qed.

Lemma parse_digits_aux fuel :
  ∀ n a acc rest, (n < 2 ^ N.of_nat fuel)%N →
  ∃ k, parse_digits a (digits_aux fuel n acc ++ rest)
       = parse_digits (a * 10 ^ k + n) (acc ++ rest).
Proof.
  induction fuel as [|fuel IH]; intros n a acc rest Hn.
  - exists 0%N. simpl in *. f_equal. lia.
  - simpl digits_aux.
    pose proof (div10_bound n fuel Hn) as Hq.
    assert (Hd : (n mod 10 < 10)%N) by (apply N.mod_lt; lia).
    assert (Hdm : n = (10 * (n / 10) + n mod 10)%N) by (apply N.div_mod; lia).
    revert Hq Hd Hdm.
    generalize (n / 10)%N (n mod 10)%N. intros q m Hq Hd Hdm.
    destruct (N.eqb_spec q 0) as [Hz|Hz].
    + exists 1%N. simpl parse_digits. rewrite (digit_is_digit _ Hd).
      f_equal. rewrite N.pow_1_r. lia.
    + destruct (IH q a ((48 + m)%N :: acc) rest Hq) as [k Hk].
      exists (k + 1)%N. rewrite Hk. simpl parse_digits.
      rewrite (digit_is_digit _ Hd).
      f_equal. rewrite N.pow_add_r, N.pow_1_r.
      replace (48 + m - 48)%N with m by lia.
      rewrite Hdm. ring.
Qed.

Lemma digits_fuel_ok n : (n < 2 ^ N.of_nat (S (N.to_nat (N.log2 n))))%N.
Proof.
  rewrite Nat2N.inj_succ, N2Nat.id.
  destruct (N.eq_dec n 0%N) as [->|Hn]; [done|].
  apply N.log2_spec. lia.
Qed.

Lemma parse_digits_digits n rest :
  number_ends rest → parse_digits 0 (digits n ++ rest) = (n, rest).
Proof.
  intros Hr. unfold digits.
  destruct (parse_digits_aux _ n 0%N [] rest (digits_fuel_ok n)) as [k ->].
  simpl. by apply parse_digits_stop.
Qed.

Lemma digits_aux_head fuel :
  ∀ n acc, (0 < n)%N → (n < 2 ^ N.of_nat fuel)%N →
  ∃ c t, digits_aux fuel n acc = c :: t ∧ (49 ≤ c)%N ∧ (c ≤ 57)%N.
Proof.
  induction fuel as [|fuel IH]; intros n acc Hpos Hn.
  - simpl in Hn. lia.
  - simpl digits_aux.
    pose proof (div10_bound n fuel Hn) as Hq.
    assert (Hd : (n mod 10 < 10)%N) by (apply N.mod_lt; lia).
    assert (Hdm : n = (10 * (n / 10) + n mod 10)%N) by (apply N.div_mod; lia).
    revert Hq Hd Hdm.
    generalize (n / 10)%N (n mod 10)%N. intros q m Hq Hd Hdm.
    destruct (N.eqb_spec q 0) as [Hz|Hz].
    + eexists _, _. split; [done|]. lia.
    + apply IH; [lia|done].
Qed.

Lemma parse_int_digits n rest :
  number_ends rest → parse_int (digits n ++ rest) = Some (n, rest).
Proof.
  intros Hr. destruct (N.eq_dec n 0%N) as [->|Hn].
  - change (digits 0) with [48%N]. simpl.
    destruct rest as [|c t]; [done|]. destruct Hr as (-> & _). done.
  - destruct (digits_aux_head _ n [] ltac:(lia) (digits_fuel_ok n))
      as (c & t & Hd & Hc1 & Hc2).
    pose proof (parse_digits_digits n rest Hr) as Hp.
    unfold digits in *. rewrite Hd in *. simpl app in *.
    unfold parse_int.
    destruct (N.eqb_spec c 48); [lia|].
    assert (is_digit c = true) as ->.
    { unfold is_digit. apply andb_true_intro. split; apply N.leb_le; lia. }
    by rewrite Hp.
Qed.

Lemma number_ends_no_fraction rest : number_ends rest → no_fraction rest = true.
Proof.
  destruct rest as [|c t]; [done|]. intros (_ & H1 & H2 & H3). simpl.
  destruct (N.eqb_spec c 46), (N.eqb_spec c 101), (N.eqb_spec c 69); done.
Qed.

Lemma digits_head_not_minus n : ∃ c t, digits n = c :: t ∧ c ≠ 45%N.
Proof.
  destruct (N.eq_dec n 0%N) as [->|Hn].
  - by exists 48%N, [].
  - destruct (digits_aux_head _ n [] ltac:(lia) (digits_fuel_ok n))
      as (c & t & Hd & Hc1 & Hc2).
    exists c, t. split; [done|lia].
Qed.

Lemma parse_number_text z rest :
  number_ends rest → parse_number (number_text z ++ rest) = Some (z, rest).
Proof.
  intros Hr. unfold number_text.
  destruct (Z.ltb_spec z 0) as [Hneg|Hpos].
  - simpl. rewrite (parse_int_digits _ _ Hr). simpl.
    rewrite (number_ends_no_fraction _ Hr). f_equal. f_equal. lia.
  - destruct (digits_head_not_minus (Z.to_N z)) as (c & t & Hd & Hc).
    pose proof (parse_int_digits (Z.to_N z) rest Hr) as Hp.
    rewrite Hd in *. simpl app in *. unfold parse_number.
    destruct (N.eqb_spec c 45); [done|].
    rewrite Hp. simpl. rewrite (number_ends_no_fraction _ Hr).
    f_equal. f_equal. lia.
Qed.

End NumberFacts.

Section StringFacts.

#[local] Arguments unicode_escape : simpl never.
#[local] Arguments quote_unit : simpl never.

Lemma hex_value_digit d : (d < 16)%N → hex_value (hex_digit d) = Some d.
Proof.
  intros Hd. unfold hex_digit, hex_value, is_digit.
  destruct (N.ltb_spec d 10).
  - replace ((48 <=? 48 + d) && (48 + d <=? 57))%N with true
      by (symmetry; apply andb_true_intro; split; apply N.leb_le; lia).
    f_equal. lia.
  - replace ((48 <=? 87 + d) && (87 + d <=? 57))%N with false
      by (symmetry; apply andb_false_intro2; apply N.leb_gt; lia).
    replace ((97 <=? 87 + d) && (87 + d <=? 102))%N with true
      by (symmetry; apply andb_true_intro; split; apply N.leb_le; lia).
    f_equal. lia.
Qed.

Lemma hex_split c :
  (c < 65536)%N →
  (c / 4096 mod 16 * 4096 + c / 256 mod 16 * 256 + c / 16 mod 16 * 16 + c mod 16)%N
  = c.
Proof.
  intros Hc.
  pose proof (N.div_mod c 16 ltac:(lia)) as H0.
  pose proof (N.div_mod (c / 16) 16 ltac:(lia)) as H1.
  pose proof (N.div_mod (c / 256) 16 ltac:(lia)) as H2.
  rewrite N.Div0.div_div in H1. rewrite N.Div0.div_div in H2.
  change (16 * 16)%N with 256%N in *. change (256 * 16)%N with 4096%N in *.
  assert (H3 : (c / 4096 < 16)%N) by (apply N.Div0.div_lt_upper_bound; lia).
  rewrite (N.mod_small (c / 4096) 16) by done.
  pose proof (N.mod_lt c 16 ltac:(lia)).
  pose proof (N.mod_lt (c / 16) 16 ltac:(lia)).
  pose proof (N.mod_lt (c / 256) 16 ltac:(lia)).
  revert H0 H1 H2 H3 H H4 H5.
  generalize (c / 4096)%N (c / 256)%N (c / 16)%N
    (c mod 16)%N ((c / 16) mod 16)%N ((c / 256) mod 16)%N.
  intros. lia.
Qed.

Lemma parse_unicode_escape c rest :
  (c < 65536)%N →
  ∃ e, unicode_escape c = 92%N :: e ∧ parse_escape (e ++ rest) = Some (c, rest).
Proof.
  intros Hc. eexists. split; [reflexivity|].
  simpl.
  rewrite !hex_value_digit by (apply N.mod_lt; lia). simpl.
  by rewrite hex_split.
Qed.

Lemma parse_chars_plain c fuel t :
  plain c →
  parse_chars (S fuel) (c :: t)
  = '(us, rest) ← parse_chars fuel t; Some (c :: us, rest).
Proof.
  intros (H1 & H2 & H3). simpl.
  destruct (N.eqb_spec c 34); [done|].
  destruct (N.eqb_spec c 92); [done|].
  destruct (N.ltb_spec c 32); [lia|]. done.
Qed.

Lemma parse_chars_escape e u fuel t :
  parse_escape (e ++ t) = Some (u, t) →
  parse_chars (S fuel) (92%N :: e ++ t)
  = '(us, rest) ← parse_chars fuel t; Some (u :: us, rest).
Proof. intros He. simpl. rewrite He. done. Qed.

Lemma surrogate_plain c :
  is_high_surrogate c = true ∨ is_low_surrogate c = true → plain c.
Proof.
  unfold is_high_surrogate, is_low_surrogate, plain.
  intros [H|H]; apply andb_prop in H as [H1 H2];
    apply N.leb_le in H1; apply N.leb_le in H2; lia.
Qed.

Lemma surrogate_bound c :
  is_high_surrogate c = true ∨ is_low_surrogate c = true → (c < 65536)%N.
Proof.
  unfold is_high_surrogate, is_low_surrogate.
  intros [H|H]; apply andb_prop in H as [H1 H2];
    apply N.leb_le in H1; apply N.leb_le in H2; lia.
Qed.

(** The text of one code unit is read back as that code unit. *)
Lemma parse_chars_quote_unit c fuel t :
  parse_chars (S fuel) (quote_unit c ++ t)
  = '(us, rest) ← parse_chars fuel t; Some (c :: us, rest).
Proof.
  unfold quote_unit.
  destruct (N.eqb_spec c 8) as [->|?]; [done|].
  destruct (N.eqb_spec c 9) as [->|?]; [done|].
  destruct (N.eqb_spec c 10) as [->|?]; [done|].
  destruct (N.eqb_spec c 12) as [->|?]; [done|].
  destruct (N.eqb_spec c 13) as [->|?]; [done|].
  destruct (N.eqb_spec c 34) as [->|?]; [done|].
  destruct (N.eqb_spec c 92) as [->|?]; [done|].
  destruct ((c <? 32)%N || is_high_surrogate c || is_low_surrogate c) eqn:Hesc.
  - assert (Hc : (c < 65536)%N).
    { apply orb_prop in Hesc as [Hesc|Hesc];
        [apply orb_prop in Hesc as [Hesc|Hesc]|].
      - apply N.ltb_lt in Hesc. lia.
      - apply surrogate_bound. auto.
      - apply surrogate_bound. auto. }
    destruct (parse_unicode_escape c t Hc) as (e & -> & He).
    change ((92%N :: e) ++ t) with (92%N :: e ++ t).
    by apply parse_chars_escape.
  - apply orb_false_elim in Hesc as [Hesc _].
    apply orb_false_elim in Hesc as [Hesc _].
    apply N.ltb_ge in Hesc.
    by apply parse_chars_plain.
Qed.

Lemma quote_units_cons c t :
  quote_units (c :: t)
  = if is_high_surrogate c then
      match t with
      | d :: t' =>
          if is_low_surrogate d then c :: d :: quote_units t'
          else unicode_escape c ++ quote_units t
      | [] => unicode_escape c
      end
    else quote_unit c ++ quote_units t.
Proof. reflexivity. Qed.

Lemma quote_units_length s : (length s ≤ length (quote_units s))%nat.
Proof.
  remember (length s) as n eqn:Hn. revert s Hn.
  induction n as [n IH] using lt_wf_ind. intros s ->.
  destruct s as [|c t]; [done|]. simpl.
  assert (Hu : ∀ x, (1 ≤ length (quote_unit x))%nat).
  { intros x. unfold quote_unit.
    repeat (match goal with |- context [if ?b then _ else _] => destruct b end);
      simpl; lia. }
  destruct (is_high_surrogate c).
  - destruct t as [|d t']; [simpl; lia|].
    destruct (is_low_surrogate d).
    + simpl. pose proof (IH (length t') ltac:(simpl; lia) t' eq_refl). lia.
    + pose proof (IH (length (d :: t')) ltac:(simpl; lia) (d :: t') eq_refl) as H.
      revert H. generalize (quote_units (d :: t')). intros l H.
      simpl in *. lia.
  - rewrite length_app. pose proof (Hu c).
    pose proof (IH (length t) ltac:(simpl; lia) t eq_refl). lia.
Qed.

Lemma parse_chars_quote_units s :
  ∀ fuel rest, (length (quote_units s) < fuel)%nat →
  parse_chars fuel (quote_units s ++ 34%N :: rest) = Some (s, rest).
Proof.
  remember (length s) as n eqn:Hn. revert s Hn.
  induction n as [n IH] using lt_wf_ind. intros s -> fuel rest Hf.
  destruct fuel as [|fuel]; [lia|].
  destruct s as [|c t]; [done|].
  rewrite quote_units_cons in *.
  destruct (is_high_surrogate c) eqn:Hhigh.
  - destruct t as [|d t'].
    + destruct (parse_unicode_escape c (34%N :: rest)) as (e & He & Hp);
        [apply surrogate_bound; auto|].
      rewrite He in *. simpl app. rewrite (parse_chars_escape _ _ _ _ Hp).
      destruct fuel as [|fuel]; [simpl in Hf; lia|]. done.
    + destruct (is_low_surrogate d) eqn:Hlow.
      * simpl app. rewrite parse_chars_plain by (apply surrogate_plain; auto).
        destruct fuel as [|fuel]; [simpl in Hf; lia|].
        rewrite parse_chars_plain by (apply surrogate_plain; auto).
        rewrite (IH (length t') ltac:(simpl; lia) t' eq_refl);
          [done|simpl in Hf; lia].
      * destruct (parse_unicode_escape c (quote_units (d :: t') ++ 34%N :: rest))
          as (e & He & Hp); [apply surrogate_bound; auto|].
        rewrite He in *. rewrite <- app_assoc. simpl app.
        rewrite (parse_chars_escape _ _ _ _ Hp).
        rewrite (IH (length (d :: t')) ltac:(simpl; lia) (d :: t') eq_refl);
          [done|].
        rewrite length_app in Hf. simpl in Hf. simpl. lia.
  - rewrite <- app_assoc. rewrite parse_chars_quote_unit.
    rewrite (IH (length t) ltac:(simpl; lia) t eq_refl); [done|].
    rewrite length_app in Hf.
    assert (1 ≤ length (quote_unit c))%nat.
    { unfold quote_unit.
      repeat (match goal with |- context [if ?b then _ else _] => destruct b end);
        simpl; lia. }
    lia.
Qed.

Lemma parse_string_quote s rest : parse_string (quote s ++ rest) = Some (s, rest).
Proof.
  unfold quote, parse_string.
  change ((34%N :: quote_units s ++ [34%N]) ++ rest)
    with (34%N :: (quote_units s ++ [34%N]) ++ rest).
  cbv beta iota. rewrite N.eqb_refl, <- app_assoc.
  change ([34%N] ++ rest) with (34%N :: rest).
  apply parse_chars_quote_units.
  rewrite length_app. simpl. lia.
Qed.

End StringFacts.

Section ValueFacts.

#[local] Arguments quote : simpl never.
#[local] Arguments number_text : simpl never.

Lemma json_ind_nested (P : json → Prop) :
  P JNull → (∀ b, P (JBool b)) → (∀ z, P (JNumber z)) → (∀ s, P (JString s)) →
  (∀ items, Forall P items → P (JArray items)) →
  (∀ members, Forall (λ m, P m.2) members → P (JObject members)) →
  ∀ v, P v.
Proof.
  intros Hnull Hbool Hnum Hstr Harr Hobj.
  fix IH 1. intros [ | b | z | s | items | members].
  - apply Hnull.
  - apply Hbool.
  - apply Hnum.
  - apply Hstr.
  - apply Harr. revert items. fix IHl 1.
    intros [|x xs]; constructor; [apply IH|apply IHl].
  - apply Hobj. revert members. fix IHl 1.
    intros [|[k x] xs]; constructor; [apply IH|apply IHl].
Qed.

Lemma skip_ws_app pre s : all_ws pre → skip_ws (pre ++ s) = skip_ws s.
Proof.
  induction 1 as [|c pre Hc _ IH]; [done|]. simpl. by rewrite Hc.
Qed.

Lemma all_ws_gap ind : all_ws ind → all_ws (ind ++ gap).
Proof. intros H. apply Forall_app. split; [done|]. by repeat constructor. Qed.

Lemma all_ws_newline ind : all_ws ind → all_ws (10%N :: ind).
Proof. intros H. by constructor. Qed.

Lemma parse_value_skip fuel pre s :
  all_ws pre → parse_value fuel (pre ++ s) = parse_value fuel s.
Proof.
  intros H. destruct fuel as [|fuel]; [done|].
  simpl. by rewrite (skip_ws_app _ _ H).
Qed.

Lemma parse_members_skip fuel pre s :
  all_ws pre → parse_members fuel (pre ++ s) = parse_members fuel s.
Proof.
  intros H. destruct fuel as [|fuel]; [done|].
  simpl. by rewrite (skip_ws_app _ _ H).
Qed.

Lemma expect_app lit rest : expect lit (lit ++ rest) = Some rest.
Proof.
  unfold expect. rewrite take_app_length, drop_app_length.
  by rewrite decide_True.
Qed.

Lemma digits_head n : ∃ c t, digits n = c :: t ∧ (48 ≤ c)%N ∧ (c ≤ 57)%N.
Proof.
  destruct (N.eq_dec n 0%N) as [->|Hn].
  - exists 48%N, []. split; [done|]. lia.
  - destruct (digits_aux_head _ n [] ltac:(lia) (digits_fuel_ok n))
      as (c & t & Hd & Hc1 & Hc2).
    exists c, t. split; [done|lia].
Qed.

Lemma number_text_head z :
  ∃ c t, number_text z = c :: t ∧ (c = 45%N ∨ ((48 ≤ c)%N ∧ (c ≤ 57)%N)).
Proof.
  unfold number_text. destruct (z <? 0).
  - eexists _, _. split; [done|]. by left.
  - destruct (digits_head (Z.to_N z)) as (c & t & -> & H). eauto.
Qed.

Lemma serialize_head ind v :
  ∃ c t, serialize ind v = c :: t ∧ starts_value c.
Proof.
  destruct v as [ | [] | z | s | items | members]; simpl;
    try (eexists _, _; split; [reflexivity|]; by repeat split).
  - destruct (number_text_head z) as (c & t & -> & Hc).
    exists c, t. split; [done|].
    unfold starts_value, is_ws.
    destruct Hc as [->|[H1 H2]]; [by repeat split|].
    repeat split; try lia.
    repeat (apply orb_false_intro); apply N.eqb_neq; lia.
  - unfold wrap. destruct (map _ items);
      eexists _, _; (split; [reflexivity|]); by repeat split.
  - unfold wrap. destruct (map _ members);
      eexists _, _; (split; [reflexivity|]); by repeat split.
Qed.

Lemma skip_ws_value ind v rest :
  ∃ c t, serialize ind v ++ rest = c :: t
         ∧ skip_ws (serialize ind v ++ rest) = c :: t ∧ starts_value c.
Proof.
  destruct (serialize_head ind v) as (c & t & -> & Hc).
  exists c, (t ++ rest). split; [done|]. split; [|done].
  simpl. destruct Hc as [-> _]. done.
Qed.

Lemma number_ends_delim c t :
  c = 44%N ∨ c = 10%N → number_ends (c :: t).
Proof. intros [->| ->]; by repeat split. Qed.

Lemma parse_value_S fuel s :
  parse_value (S fuel) s
  = match skip_ws s with
    | c :: t =>
        if (c =? 110)%N then rest ← expect (js "ull") t; Some (JNull, rest)
        else if (c =? 116)%N then rest ← expect (js "rue") t; Some (JBool true, rest)
        else if (c =? 102)%N then rest ← expect (js "alse") t; Some (JBool false, rest)
        else if (c =? 34)%N then
          '(str, rest) ← parse_string (c :: t); Some (JString str, rest)
        else if (c =? 91)%N then
          match skip_ws t with
          | d :: t' =>
              if (d =? 93)%N then Some (JArray [], t')
              else '(items, rest) ← parse_elements fuel t; Some (JArray items, rest)
          | [] => None
          end
        else if (c =? 123)%N then
          match skip_ws t with
          | d :: t' =>
              if (d =? 125)%N then Some (JObject [], t')
              else '(members, rest) ← parse_members fuel t; Some (JObject members, rest)
          | [] => None
          end
        else '(z, rest) ← parse_number (c :: t); Some (JNumber z, rest)
    | [] => None
    end.
Proof. reflexivity. Qed.

Lemma parse_elements_S fuel s :
  parse_elements (S fuel) s
  = '(v, t) ← parse_value fuel s;
    match skip_ws t with
    | c :: t' =>
        if (c =? 44)%N then
          '(vs, rest) ← parse_elements fuel t'; Some (v :: vs, rest)
        else if (c =? 93)%N then Some ([v], t')
        else None
    | [] => None
    end.
Proof. reflexivity. Qed.

Lemma parse_members_S fuel s :
  parse_members (S fuel) s
  = '(k, t0) ← parse_string (skip_ws s);
    match skip_ws t0 with
    | c :: t1 =>
        if (c =? 58)%N then
          '(v, t) ← parse_value fuel t1;
          match skip_ws t with
          | d :: t' =>
              if (d =? 44)%N then
                '(ms, rest) ← parse_members fuel t'; Some ((k, v) :: ms, rest)
              else if (d =? 125)%N then Some ([(k, v)], t')
              else None
          | [] => None
          end
        else None
    | [] => None
    end.
Proof. reflexivity. Qed.

Lemma skip_ws_close ind c rest :
  all_ws ind → is_ws c = false →
  skip_ws (10%N :: ind ++ c :: rest) = c :: rest.
Proof.
  intros Hind Hc.
  change (10%N :: ind ++ c :: rest) with ((10%N :: ind) ++ c :: rest).
  rewrite skip_ws_app by (by apply all_ws_newline).
  simpl. by rewrite Hc.
Qed.

#[local] Arguments join_lines : simpl never.
#[local] Arguments serialize : simpl never.

Lemma join_lines_one ind p : join_lines ind [p] = p.
Proof. reflexivity. Qed.

Lemma join_lines_more ind p q ps :
  join_lines ind (p :: q :: ps)
  = p ++ 44%N :: 10%N :: ind ++ join_lines ind (q :: ps).
Proof. reflexivity. Qed.

Lemma skip_ws_indent ind c rest :
  all_ws ind → is_ws c = false → skip_ws (ind ++ c :: rest) = c :: rest.
Proof.
  intros Hind Hc. rewrite skip_ws_app by done. simpl. by rewrite Hc.
Qed.

Lemma parse_elements_join vs :
  Forall reads_back vs → vs ≠ [] →
  ∀ ind ind' rest fuel pre,
    all_ws ind → all_ws ind' → all_ws pre →
    (length (join_lines ind' (map (serialize ind') vs)) + 2 ≤ fuel)%nat →
    parse_elements fuel
      (pre ++ join_lines ind' (map (serialize ind') vs)
           ++ 10%N :: ind ++ 93%N :: rest)
    = Some (vs, rest).
Proof.
  induction 1 as [|v vs Hv Hvs IH]; [done|]. intros _ ind ind' rest fuel pre Hi Hi' Hpre Hf.
  destruct fuel as [|fuel]; [lia|].
  rewrite parse_elements_S, parse_value_skip by done.
  destruct vs as [|v2 vs].
  - simpl map in *. rewrite join_lines_one in *.
    rewrite (Hv ind' _ fuel Hi'); [|by apply number_ends_delim; auto|lia].
    simpl. rewrite skip_ws_indent by done. done.
  - simpl map in *. rewrite join_lines_more in *.
    rewrite length_app in Hf. simpl length in Hf. rewrite length_app in Hf.
    rewrite <- !app_assoc. simpl app. rewrite <- !app_assoc.
    rewrite (Hv ind' _ fuel Hi'); [|by apply number_ends_delim; auto|lia].
    simpl.
    match goal with
    | |- context [parse_elements fuel (10%N :: ind' ++ ?x)] =>
        change (10%N :: ind' ++ x) with ((10%N :: ind') ++ x)
    end.
    rewrite (IH ltac:(done) ind ind' rest fuel (10%N :: ind')); try done.
    + by apply all_ws_newline.
    + lia.
Qed.

Lemma quote_head s : ∃ t, quote s = 34%N :: t.
Proof. by eexists. Qed.

Lemma member_text_app ind' k v tail :
  member_text ind' (k, v) ++ tail
  = quote k ++ 58%N :: 32%N :: serialize ind' v ++ tail.
Proof. unfold member_text. by rewrite <- app_assoc. Qed.

Lemma skip_ws_quote k x : skip_ws (quote k ++ x) = quote k ++ x.
Proof. reflexivity. Qed.

Lemma member_text_length ind' k v :
  (length (serialize ind' v) + 2 ≤ length (member_text ind' (k, v)))%nat.
Proof. unfold member_text. rewrite length_app. simpl. lia. Qed.

Lemma parse_value_space fuel s : parse_value fuel (32%N :: s) = parse_value fuel s.
Proof. apply (parse_value_skip fuel [32%N]). by repeat constructor. Qed.

Lemma parse_members_join ms :
  Forall (λ m, reads_back m.2) ms → ms ≠ [] →
  ∀ ind ind' rest fuel pre,
    all_ws ind → all_ws ind' → all_ws pre →
    (length (join_lines ind' (map (member_text ind') ms)) + 2 ≤ fuel)%nat →
    parse_members fuel
      (pre ++ join_lines ind' (map (member_text ind') ms)
           ++ 10%N :: ind ++ 125%N :: rest)
    = Some (ms, rest).
Proof.
  induction 1 as [|[k v] ms Hv Hms IH]; [done|].
  intros _ ind ind' rest fuel pre Hi Hi' Hpre Hf.
  destruct fuel as [|fuel]; [lia|].
  rewrite parse_members_S, skip_ws_app by done.
  simpl in Hv. pose proof (member_text_length ind' k v) as Hlen.
  destruct ms as [|m2 ms].
  - simpl map in *. rewrite join_lines_one in *.
    rewrite member_text_app, skip_ws_quote, parse_string_quote.
    simpl. rewrite parse_value_space.
    rewrite (Hv ind' _ fuel Hi'); [|by apply number_ends_delim; auto|lia].
    simpl. rewrite skip_ws_indent by done. done.
  - simpl map in *. rewrite join_lines_more in *.
    rewrite length_app in Hf. cbn [length] in Hf. rewrite length_app in Hf.
    rewrite <- app_assoc.
    rewrite member_text_app, skip_ws_quote, parse_string_quote.
    simpl. rewrite parse_value_space. rewrite <- !app_assoc.
    rewrite (Hv ind' _ fuel Hi'); [|by apply number_ends_delim; auto|lia].
    simpl.
    match goal with
    | |- context [parse_members fuel (10%N :: ind' ++ ?x)] =>
        change (10%N :: ind' ++ x) with ((10%N :: ind') ++ x)
    end.
    rewrite (IH ltac:(done) ind ind' rest fuel (10%N :: ind')); try done.
    + by apply all_ws_newline.
    + lia.
Qed.

Lemma serialize_array ind v vs :
  serialize ind (JArray (v :: vs))
  = 91%N :: 10%N :: (ind ++ gap)
      ++ join_lines (ind ++ gap) (map (serialize (ind ++ gap)) (v :: vs))
      ++ 10%N :: ind ++ [93%N].
Proof. reflexivity. Qed.

Lemma serialize_object ind m ms :
  serialize ind (JObject (m :: ms))
  = 123%N :: 10%N :: (ind ++ gap)
      ++ join_lines (ind ++ gap) (map (member_text (ind ++ gap)) (m :: ms))
      ++ 10%N :: ind ++ [125%N].
Proof. reflexivity. Qed.

Lemma join_lines_head ind p ps : ∃ tail, join_lines ind (p :: ps) = p ++ tail.
Proof.
  destruct ps as [|q ps].
  - exists []. by rewrite app_nil_r.
  - eexists. apply join_lines_more.
Qed.

(** The first character after the opening bracket and the indentation. *)
Lemma skip_ws_first (pre ind p : jsstring) (ps : list jsstring)
  (tail : jsstring) (c : N) (t : jsstring) :
  all_ws pre → p = c :: t → is_ws c = false →
  ∃ t', skip_ws (pre ++ join_lines ind (p :: ps) ++ tail) = c :: t'.
Proof.
  intros Hpre Hp Hc. rewrite skip_ws_app by done.
  destruct (join_lines_head ind p ps) as [tl ->]. subst p.
  eexists. simpl. rewrite Hc. reflexivity.
Qed.

Lemma parse_value_array fuel t :
  parse_value (S fuel) (91%N :: t)
  = match skip_ws t with
    | d :: t' =>
        if (d =? 93)%N then Some (JArray [], t')
        else '(items, rest) ← parse_elements fuel t; Some (JArray items, rest)
    | [] => None
    end.
Proof. reflexivity. Qed.

Lemma parse_value_object fuel t :
  parse_value (S fuel) (123%N :: t)
  = match skip_ws t with
    | d :: t' =>
        if (d =? 125)%N then Some (JObject [], t')
        else '(members, rest) ← parse_members fuel t; Some (JObject members, rest)
    | [] => None
    end.
Proof. reflexivity. Qed.

Lemma reads_back_all v : reads_back v.
Proof.
  induction v as [ | b | z | s | items IH | members IH] using json_ind_nested;
    intros ind rest fuel Hind Hrest Hf;
    (destruct fuel as [|fuel]; [lia|]).
  - rewrite parse_value_S.
    change (serialize ind JNull ++ rest) with (110%N :: (js "ull" ++ rest)).
    change (skip_ws (110%N :: (js "ull" ++ rest)))
      with (110%N :: (js "ull" ++ rest)).
    cbv beta iota. change (110 =? 110)%N with true. cbv iota.
    by rewrite expect_app.
  - rewrite parse_value_S. destruct b.
    + change (serialize ind (JBool true) ++ rest)
        with (116%N :: (js "rue" ++ rest)).
      change (skip_ws (116%N :: (js "rue" ++ rest)))
        with (116%N :: (js "rue" ++ rest)).
      cbv beta iota. change (116 =? 110)%N with false.
      change (116 =? 116)%N with true. cbv iota.
      by rewrite expect_app.
    + change (serialize ind (JBool false) ++ rest)
        with (102%N :: (js "alse" ++ rest)).
      change (skip_ws (102%N :: (js "alse" ++ rest)))
        with (102%N :: (js "alse" ++ rest)).
      cbv beta iota. change (102 =? 110)%N with false.
      change (102 =? 116)%N with false. change (102 =? 102)%N with true.
      cbv iota.
      by rewrite expect_app.
  - rewrite parse_value_S.
    change (serialize ind (JNumber z)) with (number_text z).
    pose proof (parse_number_text z rest Hrest) as Hp.
    destruct (number_text_head z) as (c & t & Hz & Hc). rewrite Hz in *.
    simpl app in *.
    assert (Hws : is_ws c = false).
    { unfold is_ws. destruct Hc as [->|[H1 H2]]; [done|].
      repeat (apply orb_false_intro); apply N.eqb_neq; lia. }
    simpl skip_ws. rewrite Hws.
    destruct (N.eqb_spec c 110); [lia|]. destruct (N.eqb_spec c 116); [lia|].
    destruct (N.eqb_spec c 102); [lia|]. destruct (N.eqb_spec c 34); [lia|].
    destruct (N.eqb_spec c 91); [lia|]. destruct (N.eqb_spec c 123); [lia|].
    rewrite Hp. done.
  - rewrite parse_value_S.
    change (serialize ind (JString s)) with (quote s).
    rewrite skip_ws_quote.
    pose proof (parse_string_quote s rest) as Hp.
    destruct (quote_head s) as [qt Hq]. rewrite Hq in *. simpl app in *.
    simpl N.eqb. cbv iota. rewrite Hp. done.
  - destruct items as [|v vs].
    + change (serialize ind (JArray []) ++ rest) with (91%N :: 93%N :: rest).
      done.
    + rewrite serialize_array in *.
      assert (Hind' : all_ws (ind ++ gap)) by (by apply all_ws_gap).
      set (ind' := ind ++ gap) in *.
      assert (Hpe := parse_elements_join (v :: vs) IH ltac:(done) ind ind' rest
                       fuel (10%N :: ind') Hind Hind' (all_ws_newline _ Hind')).
      destruct (serialize_head ind' v) as (c & t & Hser & Hws & Hc1 & Hc2 & Hc3).
      destruct (skip_ws_first (10%N :: ind') ind' (serialize ind' v)
                  (map (serialize ind') vs) (10%N :: ind ++ 93%N :: rest) c t)
        as [t' Hskip]; [by apply all_ws_newline|done|done|].
      simpl map in *.
      set (J := join_lines ind' (serialize ind' v :: map (serialize ind') vs)) in *.
      replace ((91%N :: 10%N :: ind' ++ J ++ 10%N :: ind ++ [93%N]) ++ rest)
        with (91%N :: (10%N :: ind') ++ J ++ 10%N :: ind ++ 93%N :: rest)
        by (simpl; rewrite <- !app_assoc; simpl; by rewrite <- !app_assoc).
      rewrite parse_value_array, Hskip.
      destruct (N.eqb_spec c 93); [done|].
      rewrite Hpe; [done|].
      simpl in Hf. rewrite !length_app in Hf. simpl in Hf. lia.
  - destruct members as [|m ms].
    + change (serialize ind (JObject []) ++ rest) with (123%N :: 125%N :: rest).
      done.
    + rewrite serialize_object in *.
      assert (Hind' : all_ws (ind ++ gap)) by (by apply all_ws_gap).
      set (ind' := ind ++ gap) in *.
      assert (Hpe := parse_members_join (m :: ms) IH ltac:(done) ind ind' rest
                       fuel (10%N :: ind') Hind Hind' (all_ws_newline _ Hind')).
      destruct (quote_head m.1) as [qt Hq].
      destruct (skip_ws_first (10%N :: ind') ind' (member_text ind' m)
                  (map (member_text ind') ms) (10%N :: ind ++ 125%N :: rest)
                  34%N (qt ++ 58%N :: 32%N :: serialize ind' m.2))
        as [t' Hskip]; [by apply all_ws_newline| |done|].
      { unfold member_text. by rewrite Hq. }
      simpl map in *.
      set (J := join_lines ind' (member_text ind' m :: map (member_text ind') ms)) in *.
      replace ((123%N :: 10%N :: ind' ++ J ++ 10%N :: ind ++ [125%N]) ++ rest)
        with (123%N :: (10%N :: ind') ++ J ++ 10%N :: ind ++ 125%N :: rest)
        by (simpl; rewrite <- !app_assoc; simpl; by rewrite <- !app_assoc).
      rewrite parse_value_object, Hskip.
      change (34 =? 125)%N with false. cbv iota.
      rewrite Hpe; [done|].
      simpl in Hf. rewrite !length_app in Hf. simpl in Hf. lia.
Qed.

(** What [JSON.stringify] writes, [JSON.parse] reads back. *)
Lemma parse_stringify v : parse (stringify v) = Some v.
Proof.
  unfold parse, stringify.
  pose proof (reads_back_all v [] [] (S (length (serialize [] v)))
                ltac:(constructor) I ltac:(lia)) as H.
  rewrite app_nil_r in H. rewrite H. done.
Qed.

End ValueFacts.


(** ** JSON: what is written is well formed *)

Section WellFormedFacts.

#[local] Arguments unicode_escape : simpl never.
#[local] Arguments quote_unit : simpl never.
#[local] Arguments join_lines : simpl never.
#[local] Arguments serialize : simpl never.

Lemma well_formed_cons c t :
  not_surrogate c → well_formed (c :: t) = well_formed t.
Proof. intros [H1 H2]. simpl. by rewrite H1, H2. Qed.

Lemma well_formed_app a :
  ∀ b, well_formed a = true → well_formed b = true → well_formed (a ++ b) = true.
Proof.
  remember (length a) as n eqn:Hn. revert a Hn.
  induction n as [n IH] using lt_wf_ind. intros a -> b Ha Hb.
  destruct a as [|c t]; [done|]. simpl in *.
  destruct (is_high_surrogate c).
  - destruct t as [|d t']; [done|]. simpl.
    apply andb_prop in Ha as [-> Ha]. simpl.
    apply (IH (length t')); simpl; auto; lia.
  - apply andb_prop in Ha as [-> Ha]. simpl.
    apply (IH (length t)); simpl; auto; lia.
Qed.

Lemma low_unit_not_surrogate c : (c < 55296)%N → not_surrogate c.
Proof.
  intros H. unfold not_surrogate, is_high_surrogate, is_low_surrogate.
  split; apply andb_false_intro1; apply N.leb_gt; lia.
Qed.

Lemma low_units_well_formed s : low_units s → well_formed s = true.
Proof.
  induction 1 as [|c t Hc _ IH]; [done|].
  by rewrite well_formed_cons by (by apply low_unit_not_surrogate).
Qed.

Lemma hex_digit_low d : (d < 16)%N → (hex_digit d < 55296)%N.
Proof. intros H. unfold hex_digit. destruct (d <? 10)%N; lia. Qed.

Lemma unicode_escape_low c : low_units (unicode_escape c).
Proof.
  unfold unicode_escape.
  repeat constructor; apply hex_digit_low; apply N.mod_lt; lia.
Qed.

Lemma quote_unit_well_formed c : well_formed (quote_unit c) = true.
Proof.
  unfold quote_unit.
  repeat (match goal with
          | |- context [if (c =? ?k)%N then _ else _] =>
              destruct (N.eqb_spec c k); [done|]
          end).
  destruct (_ || _) eqn:Hesc.
  - apply low_units_well_formed, unicode_escape_low.
  - apply orb_false_elim in Hesc as [Hesc H2].
    apply orb_false_elim in Hesc as [_ H1].
    rewrite well_formed_cons; [done|by split].
Qed.

Lemma quote_units_well_formed s : well_formed (quote_units s) = true.
Proof.
  remember (length s) as n eqn:Hn. revert s Hn.
  induction n as [n IH] using lt_wf_ind. intros s ->.
  destruct s as [|c t]; [done|]. rewrite quote_units_cons.
  destruct (is_high_surrogate c) eqn:Hhigh.
  - destruct t as [|d t'].
    + apply low_units_well_formed, unicode_escape_low.
    + destruct (is_low_surrogate d) eqn:Hlow.
      * simpl. rewrite Hhigh, Hlow. simpl.
        apply (IH (length t')); simpl; auto; lia.
      * apply well_formed_app.
        -- apply low_units_well_formed, unicode_escape_low.
        -- apply (IH (length (d :: t'))); simpl; auto; lia.
  - apply well_formed_app; [apply quote_unit_well_formed|].
    apply (IH (length t)); simpl; auto; lia.
Qed.

Lemma quote_well_formed s : well_formed (quote s) = true.
Proof.
  unfold quote.
  change (34%N :: quote_units s ++ [34%N]) with ([34%N] ++ quote_units s ++ [34%N]).
  apply well_formed_app; [done|].
  apply well_formed_app; [apply quote_units_well_formed|done].
Qed.

Lemma digits_aux_low fuel : ∀ n acc, low_units acc → low_units (digits_aux fuel n acc).
Proof.
  induction fuel as [|fuel IH]; intros n acc Hacc; [done|]. simpl.
  assert (Hd : (n mod 10 < 10)%N) by (apply N.mod_lt; lia).
  revert Hd. generalize (n mod 10)%N. intros m Hd.
  assert (low_units ((48 + m)%N :: acc)) by (constructor; [lia|done]).
  destruct (_ =? _)%N; [done|]. by apply IH.
Qed.

Lemma number_text_well_formed z : well_formed (number_text z) = true.
Proof.
  apply low_units_well_formed. unfold number_text, digits.
  destruct (z <? 0).
  - constructor; [lia|]. apply digits_aux_low. constructor.
  - apply digits_aux_low. constructor.
Qed.

Lemma indent_well_formed ind :
  Forall (λ c, is_ws c = true) ind → well_formed ind = true.
Proof.
  intros H. apply low_units_well_formed.
  eapply Forall_impl; [exact H|]. intros c Hc. unfold is_ws in Hc.
  repeat (apply orb_prop in Hc as [Hc|Hc]); apply N.eqb_eq in Hc; lia.
Qed.

Lemma join_lines_well_formed ind parts :
  well_formed ind = true →
  Forall (λ p, well_formed p = true) parts →
  well_formed (join_lines ind parts) = true.
Proof.
  intros Hind. induction 1 as [|p ps Hp Hps IH]; [done|].
  destruct ps as [|q ps]; [by rewrite join_lines_one|].
  rewrite join_lines_more.
  apply well_formed_app; [done|].
  change (44%N :: 10%N :: ind ++ join_lines ind (q :: ps))
    with ([44%N; 10%N] ++ ind ++ join_lines ind (q :: ps)).
  apply well_formed_app; [done|]. by apply well_formed_app.
Qed.

Lemma serialize_well_formed v :
  ∀ ind, Forall (λ c, is_ws c = true) ind → well_formed (serialize ind v) = true.
Proof.
  induction v as [ | b | z | s | items IH | members IH] using json_ind_nested;
    intros ind Hind.
  - done.
  - by destruct b.
  - apply number_text_well_formed.
  - apply quote_well_formed.
  - destruct items as [|v vs]; [done|]. rewrite serialize_array.
    assert (Hind' : Forall (λ c, is_ws c = true) (ind ++ gap)).
    { apply Forall_app. split; [done|]. by repeat constructor. }
    change (91%N :: 10%N :: (ind ++ gap) ++ ?x)
      with ([91%N; 10%N] ++ (ind ++ gap) ++ x).
    apply well_formed_app; [done|].
    apply well_formed_app; [by apply indent_well_formed|].
    apply well_formed_app.
    + apply join_lines_well_formed; [by apply indent_well_formed|].
      apply Forall_map. eapply Forall_impl; [exact IH|].
      intros x Hx. by apply Hx.
    + change (10%N :: ind ++ [93%N]) with ([10%N] ++ ind ++ [93%N]).
      apply well_formed_app; [done|].
      apply well_formed_app; [by apply indent_well_formed|done].
  - destruct members as [|m ms]; [done|]. rewrite serialize_object.
    assert (Hind' : Forall (λ c, is_ws c = true) (ind ++ gap)).
    { apply Forall_app. split; [done|]. by repeat constructor. }
    change (123%N :: 10%N :: (ind ++ gap) ++ ?x)
      with ([123%N; 10%N] ++ (ind ++ gap) ++ x).
    apply well_formed_app; [done|].
    apply well_formed_app; [by apply indent_well_formed|].
    apply well_formed_app.
    + apply join_lines_well_formed; [by apply indent_well_formed|].
      apply Forall_map. eapply Forall_impl; [exact IH|].
      intros [k x] Hx. unfold member_text. simpl in *.
      apply well_formed_app; [apply quote_well_formed|].
      change (58%N :: 32%N :: serialize (ind ++ gap) x)
        with ([58%N; 32%N] ++ serialize (ind ++ gap) x).
      apply well_formed_app; [done|]. by apply Hx.
    + change (10%N :: ind ++ [125%N]) with ([10%N] ++ ind ++ [125%N]).
      apply well_formed_app; [done|].
      apply well_formed_app; [by apply indent_well_formed|done].
Qed.

(** What [JSON.stringify] returns is well formed, whatever the strings in
    the value. *)
Lemma stringify_well_formed v : well_formed (stringify v) = true.
Proof. apply serialize_well_formed. constructor. Qed.

End WellFormedFacts.

(** ** The configuration *)

Section ConfigFacts.

Lemma num_or_falsy n d : truthy_num n = false → num_or n d = d.
Proof.
  destruct n as [|z]; simpl; [done|].
  destruct (Z.eqb_spec z 0); [done|discriminate].
Qed.

Lemma falsy_num_iff n : truthy_num n = false ↔ n = NaN ∨ n = Num 0.
Proof.
  destruct n as [|z]; simpl.
  - intuition.
  - destruct (Z.eqb_spec z 0) as [->|Hz]; simpl.
    + intuition.
    + split; [discriminate|]. intros [H|H]; [discriminate|].
      injection H as ->. done.
Qed.

Lemma num_or_nonzero n d : d ≠ 0 → num_or n d ≠ 0.
Proof.
  intros Hd. destruct n as [|z]; simpl; [done|].
  destruct (Z.eqb_spec z 0); done.
Qed.

Lemma num_or_truthy z d : z ≠ 0 → num_or (Num z) d = z.
Proof. intros Hz. simpl. destruct (Z.eqb_spec z 0); done. Qed.

End ConfigFacts.

Example parseInt_examples :
  parseInt (Some (js "  42px")) = Num 42 ∧
  parseInt (Some (js "-3")) = Num (-3) ∧
  parseInt (Some (js "0x1F")) = Num 31 ∧
  parseInt (Some (js "abc")) = NaN ∧
  parseInt (Some (js "")) = NaN ∧
  parseInt (Some (js "-0")) = Num 0 ∧
  parseInt None = NaN.
Proof. repeat split; reflexivity. Qed.

(** C10.  For [maxTokens], [concurrency] and [batchDelay], an environment
    value on which [parseInt] gives [NaN] (it does not parse as an integer)
    or zero is replaced by the default, 500, 5 and 1000; hence none of the
    three options is ever 0. *)
Theorem CONFIG_numeric_options_fall_back (env : Env) :
  (parseInt (env !! "MAX_TOKENS"%string) = NaN
   ∨ parseInt (env !! "MAX_TOKENS"%string) = Num 0 →
   maxTokens (CONFIG env) = 500) ∧
  (parseInt (env !! "CONCURRENCY"%string) = NaN
   ∨ parseInt (env !! "CONCURRENCY"%string) = Num 0 →
   concurrency (CONFIG env) = 5) ∧
  (parseInt (env !! "BATCH_DELAY"%string) = NaN
   ∨ parseInt (env !! "BATCH_DELAY"%string) = Num 0 →
   batchDelay (CONFIG env) = 1000) ∧
  maxTokens (CONFIG env) ≠ 0 ∧
  concurrency (CONFIG env) ≠ 0 ∧
  batchDelay (CONFIG env) ≠ 0.
Proof.
  unfold CONFIG; simpl.
  repeat split;
    try (intros H; apply num_or_falsy, falsy_num_iff, H);
    apply num_or_nonzero; lia.
Qed.

(** The three options set to ["0"], to a word, and left out. *)
Lemma CONFIG_numeric_options_fall_back_witness :
  let env : Env := {[ "MAX_TOKENS"%string := js "0";
                      "CONCURRENCY"%string := js "many" ]} in
  parseInt (env !! "MAX_TOKENS"%string) = Num 0 ∧
  parseInt (env !! "CONCURRENCY"%string) = NaN ∧
  parseInt (env !! "BATCH_DELAY"%string) = NaN ∧
  maxTokens (CONFIG env) = 500 ∧
  concurrency (CONFIG env) = 5 ∧
  batchDelay (CONFIG env) = 1000.
Proof.
  intros env.
  destruct (CONFIG_numeric_options_fall_back env) as (H1 & H2 & H3 & _).
  split; [vm_compute; reflexivity|].
  split; [vm_compute; reflexivity|].
  split; [vm_compute; reflexivity|].
  split; [apply H1; right; vm_compute; reflexivity|].
  split; [apply H2; left; vm_compute; reflexivity|].
  apply H3; left; vm_compute; reflexivity.
Defined.

(** A sign is kept: the guard replaces zero and [NaN] only. *)
Example CONFIG_negative_concurrency :
  concurrency (CONFIG {[ "CONCURRENCY"%string := js "-3" ]}) = -3.
Proof. vm_compute. reflexivity. Qed.

(** ** The retry wrapper *)

Section RetryFacts.

Variable rt : Runtime.
Variable config : Config.

Lemma analyzeImage_body imagePath retryCount :
  analyzeImage rt config imagePath retryCount =
  match attempt rt config imagePath retryCount with
  | (evs, Normal result) => (evs, Normal result)
  | (evs, Throw message) =>
      if lt_dec retryCount (maxRetries config) then
        bind (evs ++ [LogRetry (basename rt imagePath) (retryCount + 1)
                        (maxRetries config);
                      EvRetryWait (retryDelay config)], Normal tt)
             (λ _, analyzeImage rt config imagePath (S retryCount))
      else (evs, Normal (failure_result rt imagePath retryCount message))
  end.
Proof.
  rewrite analyzeImage_unfold_eq at 1. unfold analyzeImage_unfold.
  destruct (attempt rt config imagePath retryCount) as [evs [r|msg]]; simpl.
  - reflexivity.
  - destruct (lt_dec retryCount (maxRetries config)); reflexivity.
Qed.

(** One attempt encodes, then calls the service unless encoding failed;
    what it returns is a [Success]. *)
Lemma attempt_events imagePath retryCount evs c :
  attempt rt config imagePath retryCount = (evs, c) →
  (evs = [EvEncode imagePath retryCount]
   ∨ evs = [EvEncode imagePath retryCount; EvRemoteCall imagePath retryCount])
  ∧ (∀ result, c = Normal result →
       success result = true ∧ outcome_path result = imagePath).
Proof.
  unfold attempt, imageToBase64, mbind, M_bind, bind, emit, lift, mret, M_ret, ret.
  simpl.
  destruct (readFile_base64 rt imagePath retryCount) as [b|m]; simpl.
  - destruct (chat_completions_create rt imagePath retryCount _) as [r|m]; simpl;
      intros [= <- <-]; split; auto; intros ? [= <-]; auto.
  - intros [= <- <-]; split; auto; intros ? [=].
Qed.

Lemma attempt_timeline imagePath retryCount evs c :
  attempt rt config imagePath retryCount = (evs, c) →
  retry_timeline evs = [inl retryCount] ∧ skeleton evs = [].
Proof.
  intros H. apply attempt_events in H as [[-> | ->] _]; done.
Qed.

Lemma retry_timeline_app evs evs' :
  retry_timeline (evs ++ evs') = retry_timeline evs ++ retry_timeline evs'.
Proof. apply omap_app. Qed.

Lemma skeleton_app evs evs' : skeleton (evs ++ evs') = skeleton evs ++ skeleton evs'.
Proof. apply omap_app. Qed.

(** The course of [analyzeImage] from retry count [k] on: it returns, its
    last attempt is [last], the attempts before it threw, and the result
    is what the last attempt returned or, with the retries used up, a
    [Failure] with the message the last attempt threw. *)
Lemma analyzeImage_course imagePath n :
  ∀ k, (maxRetries config - k = n)%nat →
  ∃ evs result last,
    analyzeImage rt config imagePath k = (evs, Normal result) ∧
    (k ≤ last)%nat ∧ (last ≤ Nat.max k (maxRetries config))%nat ∧
    retry_timeline evs
      = expected_timeline (retryDelay config) k (S (last - k)) ∧
    skeleton evs = [] ∧
    outcome_path result = imagePath ∧
    (∀ j, (k ≤ j < last)%nat →
       ∃ e m, attempt rt config imagePath j = (e, Throw m)) ∧
    ((∃ e, attempt rt config imagePath last = (e, Normal result)
           ∧ success result = true)
     ∨ ((maxRetries config ≤ last)%nat ∧
        ∃ e m, attempt rt config imagePath last = (e, Throw m) ∧
               result = Failure (basename rt imagePath) imagePath m
                          (now rt imagePath last))).
Proof.
  induction n as [|n IH]; intros k Hk.
  - rewrite analyzeImage_body.
    destruct (attempt rt config imagePath k) as [evs [r|m]] eqn:Ha.
    + destruct (attempt_events _ _ _ _ Ha) as [_ Hs].
      destruct (attempt_timeline _ _ _ _ Ha) as [Ht Hsk].
      destruct (Hs r eq_refl) as [Hs1 Hs2].
      exists evs, r, k. rewrite Nat.sub_diag.
      repeat split; auto; try lia. left. eauto.
    + destruct (attempt_timeline _ _ _ _ Ha) as [Ht Hsk].
      destruct (lt_dec k (maxRetries config)); [lia|].
      eexists evs, _, k. rewrite Nat.sub_diag.
      repeat split; auto; try lia. right. split; [lia|]. eauto.
  - rewrite analyzeImage_body.
    destruct (attempt rt config imagePath k) as [evs [r|m]] eqn:Ha.
    + destruct (attempt_events _ _ _ _ Ha) as [_ Hs].
      destruct (attempt_timeline _ _ _ _ Ha) as [Ht Hsk].
      destruct (Hs r eq_refl) as [Hs1 Hs2].
      exists evs, r, k. rewrite Nat.sub_diag.
      repeat split; auto; try lia. left. eauto.
    + destruct (attempt_timeline _ _ _ _ Ha) as [Ht Hsk].
      destruct (lt_dec k (maxRetries config)); [|lia].
      destruct (IH (S k)) as (evs' & r & last & He & Hl1 & Hl2 & Ht' & Hsk' & Hp & Hb & Hr);
        [lia|].
      unfold bind. rewrite He.
      exists ((evs ++ [LogRetry (basename rt imagePath) (k + 1) (maxRetries config);
                       EvRetryWait (retryDelay config)]) ++ evs'), r, last.
      split; [reflexivity|].
      split; [lia|]. split; [lia|].
      split.
      { rewrite !retry_timeline_app, Ht, Ht'.
        replace (S (last - k)) with (S (S (last - S k))) by lia.
        reflexivity. }
      split.
      { rewrite !skeleton_app, Hsk, Hsk'. reflexivity. }
      split; [assumption|].
      split.
      { intros j Hj. destruct (decide (j = k)) as [->|Hne]; [eauto|].
        apply Hb. lia. }
      destruct Hr as [Hr|[Hm Hr]]; [left; assumption|right].
      split; [lia|assumption].
Qed.

Lemma attempts_timeline evs : attempts evs = timeline_attempts (retry_timeline evs).
Proof.
  induction evs as [|e evs IH]; [reflexivity|].
  destruct e; simpl; try apply IH; f_equal; apply IH.
Qed.

Lemma expected_timeline_attempts d count :
  ∀ k, timeline_attempts (expected_timeline d k count) = seq k count.
Proof.
  induction count as [|count IH]; intros k; [reflexivity|].
  destruct count as [|count]; [reflexivity|].
  change (timeline_attempts (expected_timeline d k (S (S count))))
    with (k :: timeline_attempts (expected_timeline d (S k) (S count))).
  rewrite IH. reflexivity.
Qed.

(** *** [analyzeImage] one [await] at a time *)

Lemma run_task_more fuel : ∀ fuel' t x,
  run_task rt config fuel t = Some x → (fuel ≤ fuel')%nat →
  run_task rt config fuel' t = Some x.
Proof.
  induction fuel as [|fuel IH]; intros fuel' t x H Hle; [discriminate|].
  destruct fuel' as [|fuel']; [lia|]. simpl in *.
  destruct (task_step rt config t) as [t' evs|r evs]; [|done].
  destruct (run_task rt config fuel t') as [[evs' r]|] eqn:Hr; [|discriminate].
  rewrite (IH fuel' t' _ Hr) by lia. done.
Qed.

#[local] Arguments run_task : simpl never.

Lemma run_task_S fuel t :
  run_task rt config (S fuel) t =
  match task_step rt config t with
  | Resolves result evs => Some (evs, result)
  | Continues t' evs =>
      '(evs', result) ← run_task rt config fuel t'; Some (evs ++ evs', result)
  end.
Proof. reflexivity. Qed.

(** Run from one [await] to the next, a call of [analyzeImage] logs what
    [analyzeImage] logs and returns what it returns; three steps for each
    attempt are enough. *)
Lemma run_task_analyzeImage imagePath n :
  ∀ k, (maxRetries config - k = n)%nat →
  ∃ evs result,
    analyzeImage rt config imagePath k
      = (EvEncode imagePath k :: evs, Normal result)
    ∧ run_task rt config (3 * n + 2) (mkTask imagePath k Reading)
      = Some (evs, result).
Proof.
  induction n as [|n IH]; intros k Hk; rewrite analyzeImage_body;
    unfold attempt, imageToBase64, mbind, M_bind, bind, emit, lift, mret,
      M_ret, ret; simpl fst; simpl snd.
  - change (3 * 0 + 2)%nat with 2%nat.
    destruct (readFile_base64 rt imagePath k) as [b|m] eqn:Hread; simpl.
    + destruct (chat_completions_create rt imagePath k _) as [r|m] eqn:Hcall; simpl.
      * eexists _, _. split; [reflexivity|].
        rewrite run_task_S. unfold task_step at 1. simpl. rewrite Hread.
        rewrite run_task_S. unfold task_step at 1. simpl. rewrite Hcall.
        reflexivity.
      * destruct (lt_dec k (maxRetries config)); [lia|].
        eexists _, _. split; [reflexivity|].
        rewrite run_task_S. unfold task_step at 1. simpl. rewrite Hread.
        rewrite run_task_S. unfold task_step at 1. simpl. rewrite Hcall.
        unfold on_error. simpl. destruct (decide _); [lia|]. reflexivity.
    + destruct (lt_dec k (maxRetries config)); [lia|].
      eexists _, _. split; [reflexivity|].
      rewrite run_task_S. unfold task_step at 1. simpl. rewrite Hread.
      unfold on_error. simpl. destruct (decide _); [lia|]. reflexivity.
  - destruct (IH (S k)) as (evs' & r' & He & Hrun); [lia|].
    replace (3 * S n + 2)%nat with (S (S (S (3 * n + 2)))) by lia.
    set (fuel := (3 * n + 2)%nat) in *.
    destruct (readFile_base64 rt imagePath k) as [b|m] eqn:Hread; simpl.
    + destruct (chat_completions_create rt imagePath k _) as [r|m] eqn:Hcall; simpl.
      * eexists _, _. split; [reflexivity|].
        rewrite run_task_S. unfold task_step at 1. simpl. rewrite Hread.
        rewrite run_task_S. unfold task_step at 1. simpl. rewrite Hcall.
        reflexivity.
      * destruct (lt_dec k (maxRetries config)); [|lia].
        rewrite He. simpl.
        eexists _, _. split; [reflexivity|].
        rewrite run_task_S. unfold task_step at 1. simpl. rewrite Hread.
        rewrite run_task_S. unfold task_step at 1. simpl. rewrite Hcall.
        unfold on_error. simpl. destruct (decide _); [|lia].
        rewrite run_task_S. unfold task_step at 1. simpl.
        rewrite Hrun. reflexivity.
    + destruct (lt_dec k (maxRetries config)); [|lia].
      rewrite He. simpl.
      eexists _, _. split; [reflexivity|].
      rewrite run_task_S. unfold task_step at 1. simpl. rewrite Hread.
      unfold on_error. simpl. destruct (decide _); [|lia].
      rewrite run_task_S. unfold task_step at 1. simpl.
      rewrite (run_task_more _ (S fuel) _ _ Hrun) by lia. reflexivity.
Qed.

(** What a step of a call logs, and where it leads. *)
Lemma task_step_continues t t' evs :
  task_step rt config t = Continues t' evs →
  task_path t' = task_path t
  ∧ skeleton evs = [] ∧ written evs = []
  ∧ (task_left config t' < task_left config t)%nat
  ∧ (∀ imagePath k, (imagePath, k) ∈ remote_calls evs →
       imagePath = task_path t ∧ task_stage t = Reading
       ∧ ∃ url, task_stage t' = Calling url).
Proof.
  assert (Hnone : ∀ (P : jsstring → nat → Prop) imagePath k,
            (imagePath, k) ∈ @nil (jsstring * nat) → P imagePath k)
    by (intros P imagePath k H; by apply elem_of_nil in H).
  unfold task_step, on_error, task_left. destruct t as [p k [|url|]]; simpl.
  - destruct (readFile_base64 rt p k).
    + intros [= <- <-]. simpl.
      split; [done|]. split; [done|]. split; [done|]. split; [lia|].
      intros imagePath j H. apply list_elem_of_singleton in H as [= -> ->].
      eauto.
    + destruct (decide _); intros [= <- <-]. simpl.
      split; [done|]. split; [done|]. split; [done|]. split; [lia|].
      apply Hnone.
  - destruct (chat_completions_create rt p k _); [discriminate|].
    destruct (decide _); intros [= <- <-]. simpl.
    split; [done|]. split; [done|]. split; [done|]. split; [lia|].
    apply Hnone.
  - intros [= <- <-]. simpl.
    split; [done|]. split; [done|]. split; [done|]. split; [lia|].
    apply Hnone.
Qed.

Lemma task_step_resolves t result evs :
  task_step rt config t = Resolves result evs →
  evs = [] ∧ outcome_path result = task_path t
  ∧ (0 < task_left config t)%nat.
Proof.
  unfold task_step, on_error, task_left. destruct t as [p k [|url|]]; simpl.
  - destruct (readFile_base64 rt p k); [discriminate|].
    destruct (decide _); intros [= <- <-]. repeat split; lia.
  - destruct (chat_completions_create rt p k _).
    + intros [= <- <-]. repeat split; lia.
    + destruct (decide _); intros [= <- <-]. repeat split; lia.
  - discriminate.
Qed.

End RetryFacts.


(** C2.  [analyzeImage] always returns an outcome and never throws.  It
    makes the attempts 0 to [last], with [last ≤ maxRetries], so at most
    [maxRetries + 1] of them, and waits [retryDelay] between one and the
    next; an attempt encodes the image and then, unless that threw, calls
    the service.  Every attempt before [last] threw.  Either attempt [last]
    returned, and its [Success] is the result, or the [maxRetries + 1]
    attempts all threw and the result is the [Failure] with the message of
    the last one.  Taken from one [await] to the next, the call logs and
    returns the same, in at most three steps for each attempt. *)
Theorem analyzeImage_retries (rt : Runtime) (config : Config) (imagePath : jsstring) :
  ∃ evs result last,
    analyzeImage rt config imagePath 0 = (evs, Normal result) ∧
    (last ≤ maxRetries config)%nat ∧
    attempts evs = seq 0 (S last) ∧
    retry_timeline evs = expected_timeline (retryDelay config) 0 (S last) ∧
    (∀ k, (attempt rt config imagePath k).1 = [EvEncode imagePath k]
          ∨ (attempt rt config imagePath k).1
            = [EvEncode imagePath k; EvRemoteCall imagePath k]) ∧
    (∀ j, (j < last)%nat → ∃ e m, attempt rt config imagePath j = (e, Throw m)) ∧
    ((∃ e, attempt rt config imagePath last = (e, Normal result)
           ∧ success result = true)
     ∨ (last = maxRetries config ∧
        ∃ e m, attempt rt config imagePath last = (e, Throw m) ∧
               result = Failure (basename rt imagePath) imagePath m
                          (now rt imagePath last))) ∧
    run_task rt config (3 * maxRetries config + 2) (started imagePath)
      = Some (tail evs, result).
Proof.
  destruct (analyzeImage_course rt config imagePath _ 0 eq_refl)
    as (evs & r & last & He & Hl1 & Hl2 & Ht & _ & _ & Hb & Hr).
  rewrite Nat.sub_0_r in Ht.
  destruct (run_task_analyzeImage rt config imagePath _ 0 eq_refl)
    as (evs0 & r0 & He0 & Hrun).
  rewrite Nat.sub_0_r in Hrun.
  rewrite He in He0. injection He0 as -> ->.
  exists (EvEncode imagePath 0 :: evs0), r0, last.
  split; [assumption|]. split; [lia|].
  split.
  { rewrite attempts_timeline, Ht. apply expected_timeline_attempts. }
  split; [assumption|].
  split.
  { intros k. destruct (attempt rt config imagePath k) as [e c] eqn:Ha.
    by destruct (attempt_events rt config _ _ _ _ Ha) as [H _]. }
  split; [intros j Hj; apply Hb; lia|].
  split; [|exact Hrun].
  destruct Hr as [Hr|[Hm Hr]]; [left; assumption|right].
  split; [lia|assumption].
Qed.

(** The service rejects the first two attempts and answers the third; and
    it rejects all four. *)
Example analyzeImage_third_attempt :
  let config := CONFIG (Demo.env "3") in
  let twice := Demo.runtime (Normal Demo.two) (λ _, 2%nat) in
  let always := Demo.runtime (Normal Demo.two) (λ _, 99%nat) in
  (∃ evs result,
     analyzeImage twice config (js "images/a.jpg") 0 = (evs, Normal result)
     ∧ success result = true
     ∧ retry_timeline evs
       = [inl 0%nat; inr 2000; inl 1%nat; inr 2000; inl 2%nat])
  ∧ (∃ evs,
       analyzeImage always config (js "images/a.jpg") 0
       = (evs, Normal (Failure (js "a.jpg") (js "images/a.jpg")
                         (js "429 attempt 3") (js "2025-01-15T10:30:15.000Z")))
       ∧ retry_timeline evs
         = [inl 0%nat; inr 2000; inl 1%nat; inr 2000; inl 2%nat; inr 2000;
            inl 3%nat]).
Proof.
  intros config twice always. split.
  - eexists _, _. split; [vm_compute; reflexivity|]. split; reflexivity.
  - eexists. split; [vm_compute; reflexivity|]. reflexivity.
Qed.

(** ** The window loop *)

Section SliceFacts.

Context {A : Type}.
Implicit Types l : list A.

Lemma slice_window l (a c : Z) :
  0 ≤ a → 0 ≤ c →
  slice l a (a + c) = take (Z.to_nat c) (drop (Z.to_nat a) l).
Proof.
  intros Ha Hc. unfold slice, relative_index.
  destruct (Z.ltb_spec a 0); [lia|].
  destruct (Z.ltb_spec (a + c) 0); [lia|].
  set (len := Z.of_nat (length l)).
  assert (Hlen : len = Z.of_nat (length l)) by reflexivity.
  destruct (Z.min_spec a len) as [[? ->]|[? ->]];
    destruct (Z.min_spec (a + c) len) as [[? ->]|[? ->]]; try lia.
  - f_equal. lia.
  - rewrite !take_ge; [reflexivity| |]; rewrite length_drop; lia.
  - rewrite !drop_ge by lia. rewrite !take_nil. reflexivity.
Qed.

Lemma slice_negative l (a c : Z) : a < 0 → c ≤ 0 → slice l a (a + c) = [].
Proof.
  intros Ha Hc. unfold slice, relative_index.
  destruct (Z.ltb_spec a 0); [|lia].
  destruct (Z.ltb_spec (a + c) 0); [|lia].
  replace (Z.to_nat _) with 0%nat by lia. reflexivity.
Qed.

Lemma slice_length_le l (a b : Z) : (length (slice l a b) ≤ length l)%nat.
Proof.
  unfold slice. rewrite length_take, length_drop. lia.
Qed.

Lemma slice_empty_range l (a : Z) : slice l a a = [].
Proof. unfold slice. rewrite Z.sub_diag. reflexivity. Qed.

Lemma slice_length_window l (a c : Z) :
  0 ≤ c → Z.of_nat (length (slice l a (a + c))) ≤ c.
Proof.
  intros Hc. unfold slice, relative_index.
  rewrite length_take, length_drop.
  destruct (Z.ltb_spec a 0); destruct (Z.ltb_spec (a + c) 0); lia.
Qed.

End SliceFacts.

Section TaskListFacts.

Lemma map_started_path (batch : list jsstring) :
  map task_path (map started batch) = batch.
Proof. induction batch as [|p batch IH]; simpl; congruence. Qed.

Lemma map_path_insert (l : list Task) k t t' :
  l !! k = Some t → task_path t' = task_path t →
  map task_path (<[k := t']> l) = map task_path l.
Proof.
  revert k. induction l as [|x l IH]; intros [|k] Hl Hp; simpl in *; try done.
  - injection Hl as ->. by rewrite Hp.
  - f_equal. by apply IH.
Qed.

Lemma map_path_delete (l : list Task) k :
  map task_path (delete k l) = delete k (map task_path l).
Proof.
  revert k. induction l as [|x l IH]; intros [|k]; simpl; try done.
  f_equal. apply IH.
Qed.

Lemma map_path_lookup (l : list Task) k t :
  l !! k = Some t → map task_path l !! k = Some (task_path t).
Proof.
  revert k. induction l as [|x l IH]; intros [|k] Hl; simpl in *; try done.
  - by injection Hl as ->.
  - by apply IH.
Qed.

Lemma sum_insert (f : Task → nat) (l : list Task) k t t' :
  l !! k = Some t →
  (sum_list (map f (<[k := t']> l)) + f t = sum_list (map f l) + f t')%nat.
Proof.
  revert k. induction l as [|x l IH]; intros [|k] Hl; simpl in *; try done.
  - injection Hl as ->. lia.
  - specialize (IH k Hl). lia.
Qed.

Lemma sum_delete (f : Task → nat) (l : list Task) k t :
  l !! k = Some t →
  (sum_list (map f (delete k l)) + f t = sum_list (map f l))%nat.
Proof.
  revert k. induction l as [|x l IH]; intros [|k] Hl; simpl in *; try done.
  - injection Hl as ->. lia.
  - specialize (IH k Hl). lia.
Qed.

Lemma sum_started config (batch : list jsstring) :
  sum_list (map (task_left config) (map started batch))
  = (length batch * (3 * maxRetries config + 2))%nat.
Proof.
  induction batch as [|p batch IH]; [reflexivity|].
  simpl map. simpl sum_list. rewrite IH. unfold task_left at 1. simpl. lia.
Qed.

Lemma length_omap_le {A B} (f : A → option B) (l : list A) :
  (length (omap f l) ≤ length l)%nat.
Proof.
  induction l as [|x l IH]; simpl; [lia|].
  change (list_omap A B f l) with (omap f l). destruct (f x); simpl; lia.
Qed.

Lemma length_calls_in_flight s :
  (length (calls_in_flight s) ≤ length (inflight s))%nat.
Proof. apply length_omap_le. Qed.

Lemma calls_in_flight_paths s imagePath :
  imagePath ∈ calls_in_flight s → imagePath ∈ map task_path (inflight s).
Proof.
  unfold calls_in_flight. intros H.
  apply list_elem_of_omap in H as (t & Ht & Hstage).
  destruct (task_stage t); try discriminate. injection Hstage as <-.
  apply list_elem_of_In, in_map, list_elem_of_In, Ht.
Qed.

End TaskListFacts.

Section SchedulerFacts.

Variable rt : Runtime.
Variable config : Config.
Variable imageFiles : list jsstring.

Local Abbreviation n := (Z.of_nat (length imageFiles)).
Local Abbreviation c := (concurrency config).
Local Abbreviation sstep := (sched_step rt config imageFiles).

(** Every step of the loop function is a step of the relation, and the
    other way round. *)
Lemma step_sound choice s : sstep s (step rt config imageFiles choice s).
Proof.
  unfold step. destruct (phase s) eqn:Hph.
  - destruct (Z.ltb_spec (i s) n).
    + by apply step_dispatch.
    + apply step_exit; [done|lia].
  - destruct (inflight s) as [|p rest] eqn:Hin.
    + by apply step_advance.
    + rewrite <- Hin.
      set (k := (choice mod length (inflight s))%nat).
      assert (Hk : (k < length (inflight s))%nat).
      { apply Nat.mod_upper_bound. rewrite Hin. simpl. lia. }
      destruct (lookup_lt_is_Some_2 _ _ Hk) as [t Hl].
      rewrite Hl.
      destruct (task_step rt config t) as [t' evs|r evs] eqn:Ht.
      * by eapply step_progress.
      * destruct (settle rt (task_path t) r (this s)) as [this' evs'] eqn:Hs.
        by eapply step_settle.
  - by apply step_halt.
Qed.

Lemma step_complete s s' : sstep s s' → ∃ choice, s' = step rt config imageFiles choice s.
Proof.
  intros H.
  destruct H as [s Hph Hi|s Hph Hi|s k t t' evs Hph Hl Ht
                |s k t evs r this' evs' Hph Hl Ht Hs|s Hph Hin|s Hph].
  - exists 0%nat. unfold step. rewrite Hph.
    destruct (Z.ltb_spec (i s) n); [done|lia].
  - exists 0%nat. unfold step. rewrite Hph.
    destruct (Z.ltb_spec (i s) n); [lia|done].
  - exists k. unfold step. rewrite Hph.
    assert (Hk : (k < length (inflight s))%nat) by (eapply lookup_lt_Some; eauto).
    destruct (inflight s) as [|q rest] eqn:Hin; [simpl in Hk; lia|].
    rewrite <- Hin in *. rewrite Nat.mod_small by done.
    rewrite Hl, Ht. done.
  - exists k. unfold step. rewrite Hph.
    assert (Hk : (k < length (inflight s))%nat) by (eapply lookup_lt_Some; eauto).
    destruct (inflight s) as [|q rest] eqn:Hin; [simpl in Hk; lia|].
    rewrite <- Hin in *. rewrite Nat.mod_small by done.
    rewrite Hl, Ht, Hs. done.
  - exists 0%nat. unfold step. rewrite Hph, Hin. done.
  - exists 0%nat. unfold step. rewrite Hph. done.
Qed.

Lemma exec_reachable choices : ∀ s, rtc sstep s (exec rt config imageFiles choices s).
Proof.
  induction choices as [|ch choices IH]; intros s; simpl.
  - apply rtc_refl.
  - eapply rtc_l; [apply step_sound|apply IH].
Qed.

Lemma reachable_exec s s' :
  rtc sstep s s' → ∃ choices, s' = exec rt config imageFiles choices s.
Proof.
  induction 1 as [s|s s1 s2 H1 _ [choices ->]].
  - by exists [].
  - destruct (step_complete _ _ H1) as [ch ->]. by exists (ch :: choices).
Qed.

Lemma invariant_reachable (P : Sched → Prop) s0 s :
  (∀ s s', P s → sstep s s' → P s') → P s0 → rtc sstep s0 s → P s.
Proof. intros Hstep H0 Hr. induction Hr; eauto. Qed.

(** What [settle] does to the processor. *)
Lemma settle_effect imagePath result st st' evs' :
  settle rt imagePath result st = (st', evs') →
  processedCount st' = S (processedCount st)
  ∧ totalCount st' = totalCount st
  ∧ skeleton evs' = []
  ∧ ((success result = true ∧ results st' = results st ++ [result]
      ∧ errors st' = errors st)
     ∨ (success result = false ∧ results st' = results st
        ∧ errors st' = errors st ++ [result])).
Proof.
  unfold settle. destruct result; intros [= <- <-]; simpl; auto 10.
Qed.

(** A step leaves the processor alone or settles exactly one outcome. *)
Lemma step_settles_one s s' :
  sstep s s' →
  this s' = this s
  ∨ (processedCount (this s') = S (processedCount (this s))
     ∧ totalCount (this s') = totalCount (this s)
     ∧ ∃ result,
         (results (this s') = results (this s) ++ [result]
          ∧ errors (this s') = errors (this s))
         ∨ (results (this s') = results (this s)
            ∧ errors (this s') = errors (this s) ++ [result])).
Proof.
  intros H. destruct H as [| | |s k t evs r this' evs' Hph Hl Ht Hs| |]; auto.
  right. simpl. apply settle_effect in Hs as (H1 & H2 & _ & H3).
  split; [done|]. split; [done|]. exists r. tauto.
Qed.

Lemma counted_step s s' : counted imageFiles s → sstep s s' → counted imageFiles s'.
Proof.
  intros [Hc Ht] H. unfold counted.
  destruct (step_settles_one _ _ H) as [->|(Hp & Htot & r & [[-> ->]|[-> ->]])];
    [done| |]; rewrite Hp, Htot, Hc, ?length_app; simpl; split; lia || done.
Qed.

(** The calls in flight are calls for images of the slice taken last. *)
Lemma within_batch_step s s' :
  within_batch config imageFiles s → sstep s s' →
  within_batch config imageFiles s'.
Proof.
  intros Hinv H. unfold within_batch in *.
  destruct H as [s Hph Hi|s Hph Hi|s k t t' evs Hph Hl Ht
                |s k t evs r this' evs' Hph Hl Ht Hs|s Hph Hin|s Hph];
    simpl; try rewrite Hph in Hinv; try done; try (by rewrite Hph).
  - by rewrite map_started_path.
  - apply task_step_continues in Ht as (Hp & _).
    by rewrite (map_path_insert _ _ _ _ Hl Hp).
  - rewrite map_path_delete. etrans; [apply sublist_delete|done].
Qed.

Lemma progress_pos_step s s' :
  0 < c → progress_pos config imageFiles s → sstep s s' →
  progress_pos config imageFiles s'.
Proof.
  intros Hc [Hi Hinv] H. unfold progress_pos.
  destruct H as [s Hph Hlt|s Hph Hge|s k t t' evs Hph Hl Ht
                |s k t evs r this' evs' Hph Hl Ht Hs|s Hph Hin|s Hph];
    simpl; try rewrite Hph in Hinv.
  - destruct Hinv as [Hin Hp]. split; [done|]. split; [done|].
    rewrite length_map, slice_window by lia.
    rewrite length_take, length_drop. lia.
  - destruct Hinv as [Hin Hp]. split; [done|]. split; [done|]. lia.
  - rewrite length_insert. done.
  - destruct Hinv as (Hlt & Hsum & Hle).
    apply settle_effect in Hs as (Hp & _).
    assert (Hk : (k < length (inflight s))%nat) by (eapply lookup_lt_Some; eauto).
    rewrite length_delete by eauto. rewrite Hp. lia.
  - destruct Hinv as (Hlt & Hsum & Hle). rewrite Hin in Hsum. simpl in Hsum.
    split; [lia|]. split; [done|]. lia.
  - rewrite Hph in *. done.
Qed.

Lemma progress_nonpos_step s s' :
  c ≤ 0 → progress_nonpos config imageFiles s → sstep s s' →
  progress_nonpos config imageFiles s'.
Proof.
  intros Hc (Hi & Hz & Hsum & Hinv) H. unfold progress_nonpos.
  destruct H as [s Hph Hlt|s Hph Hge|s k t t' evs Hph Hl Ht
                |s k t evs r this' evs' Hph Hl Ht Hs|s Hph Hin|s Hph];
    simpl; try rewrite Hph in Hinv.
  - destruct Hinv as [Hin Hp]. split; [done|]. split; [done|].
    rewrite length_map.
    destruct (decide (i s = 0)) as [H0|H0].
    + rewrite H0 in *. rewrite (Hp eq_refl).
      pose proof (slice_length_le imageFiles 0 (0 + c)).
      split; [lia|]. split; [|lia].
      intros ->. by rewrite slice_empty_range.
    + rewrite slice_negative by lia. simpl.
      rewrite Hin in Hsum. simpl in Hsum.
      split; [lia|]. split; [|done]. intros ?. lia.
  - destruct Hinv as [Hin Hp]. split; [done|]. split; [done|].
    split; [done|]. split; [lia|done].
  - destruct Hinv as (Hz0 & Hneg).
    assert (Hk : (k < length (inflight s))%nat) by (eapply lookup_lt_Some; eauto).
    assert (i s = 0 ∧ c ≠ 0) as [H0 Hc0].
    { split.
      - destruct (decide (i s = 0)); [done|].
        rewrite Hneg in Hk by lia. simpl in Hk. lia.
      - intros Hc0. destruct (Hz0 Hc0) as [Hin _]. rewrite Hin in Hk.
        simpl in Hk. lia. }
    rewrite length_insert.
    split; [done|]. split; [done|]. split; [done|].
    split; intros; lia.
  - destruct Hinv as (Hz0 & Hneg).
    apply settle_effect in Hs as (Hp & _).
    assert (Hk : (k < length (inflight s))%nat) by (eapply lookup_lt_Some; eauto).
    assert (i s = 0 ∧ c ≠ 0) as [H0 Hc0].
    { split.
      - destruct (decide (i s = 0)); [done|].
        rewrite Hneg in Hk by lia. simpl in Hk. lia.
      - intros Hc0. destruct (Hz0 Hc0) as [Hin _]. rewrite Hin in Hk.
        simpl in Hk. lia. }
    rewrite length_delete by eauto. rewrite Hp.
    split; [done|]. split; [done|]. split; [lia|].
    split; intros; lia.
  - destruct Hinv as (Hz0 & Hneg). rewrite Hin in Hsum. simpl in Hsum.
    split; [lia|]. split; [intros Hc0; rewrite (Hz Hc0); lia|].
    split; [simpl; lia|]. split; [done|].
    intros H0. assert (c = 0) as Hc0 by lia. by destruct (Hz0 Hc0).
  - rewrite Hph in *. done.
Qed.

End SchedulerFacts.

Section WindowFacts.

Variable rt : Runtime.
Variable config : Config.
Variable imageFiles : list jsstring.

Local Abbreviation n := (Z.of_nat (length imageFiles)).
Local Abbreviation c := (concurrency config).
Local Abbreviation sstep := (sched_step rt config imageFiles).

Lemma skeleton_encodes (batch : list jsstring) :
  skeleton (map (λ imagePath, EvEncode imagePath 0) batch) = [].
Proof. induction batch as [|p batch IH]; [reflexivity|exact IH]. Qed.

Lemma windows_inv_step s s' :
  0 < c → progress_pos config imageFiles s → windows_inv config imageFiles s →
  sstep s s' → windows_inv config imageFiles s'.
Proof.
  intros Hc [Hi Hpr] Hinv H. unfold windows_inv in *.
  destruct H as [s Hph Hlt|s Hph Hge|s k t t' evs Hph Hl Ht
                |s k t evs r this' evs' Hph Hl Ht Hs|s Hph Hin|s Hph];
    simpl; try rewrite Hph in Hinv, Hpr.
  - destruct Hinv as [(_ & ws & Hcl & Hcat & Hall)|[? _]]; [|lia].
    exists ws, []. rewrite skeleton_app. simpl. rewrite skeleton_encodes.
    split; [by exists (skeleton (console s))|].
    split; [done|]. split; [done|]. by rewrite map_started_path.
  - destruct Hinv as [[? _]|[_ Hrun]]; [lia|done].
  - destruct Hinv as (ws & settled & Hopen & Hcat & Hall & Hperm).
    apply task_step_continues in Ht as (Hp & Hsk & _).
    exists ws, settled. rewrite skeleton_app, Hsk, app_nil_r.
    split; [done|]. split; [done|]. split; [done|].
    by rewrite (map_path_insert _ _ _ _ Hl Hp).
  - destruct Hinv as (ws & settled & (sk0 & Hcl & Hsk) & Hcat & Hall & Hperm).
    apply task_step_resolves in Ht as (-> & _).
    apply settle_effect in Hs as (_ & _ & Hsk' & _).
    exists ws, (settled ++ [task_path t]).
    split.
    { exists sk0. split; [done|].
      rewrite !skeleton_app. simpl. rewrite Hsk', Hsk.
      rewrite map_app. simpl. rewrite <- app_assoc. reflexivity. }
    split; [done|]. split; [done|].
    rewrite <- Hperm, <- app_assoc. simpl.
    apply Permutation_app_head. rewrite map_path_delete.
    symmetry. apply delete_Permutation. by apply map_path_lookup.
  - destruct Hinv as (ws & settled & (sk0 & Hcl & Hsk) & Hcat & Hall & Hperm).
    destruct Hpr as (Hlt & _). rewrite Hin in Hperm. simpl in Hperm.
    rewrite app_nil_r in Hperm.
    rewrite slice_window in * by lia.
    set (w := take (Z.to_nat c) (drop (Z.to_nat (i s)) imageFiles)) in *.
    assert (Hcat' : concat (ws ++ [w]) = take (Z.to_nat (i s + c)) imageFiles).
    { rewrite concat_app, Hcat. simpl. rewrite app_nil_r. unfold w.
      rewrite take_take_drop. f_equal. lia. }
    assert (Hw : length w = Z.to_nat (Z.min c (n - i s))).
    { unfold w. rewrite length_take, length_drop. lia. }
    destruct (Z.ltb_spec (i s + c) n) as [Hnext|Hlast].
    + left. split; [done|]. exists (ws ++ [w]).
      split.
      { rewrite skeleton_app, Hsk. simpl.
        replace ((sk0 ++ SkDispatch w :: map SkResolved settled) ++ [SkWait (batchDelay config)])
          with (sk0 ++ SkDispatch w :: map SkResolved settled ++ [SkWait (batchDelay config)])
          by (rewrite <- app_assoc; reflexivity).
        by apply closed_snoc. }
      split; [done|].
      apply Forall_app. split; [done|]. apply Forall_singleton. lia.
    + right. split; [done|]. exists ws, w, settled.
      rewrite skeleton_app. simpl. rewrite app_nil_r.
      split; [by exists sk0|]. split; [done|].
      split; [rewrite Hcat'; apply take_ge; lia|].
      split; [done|]. lia.
  - rewrite Hph in *. done.
Qed.

Lemma steps_left_step s s' :
  0 < c → progress_pos config imageFiles s → phase s ≠ LoopDone → sstep s s' →
  steps_left config imageFiles s' + 1 ≤ steps_left config imageFiles s.
Proof.
  intros Hc [Hi Hpr] Hnd H. unfold steps_left.
  set (per_image := 3 * Z.of_nat (maxRetries config) + 5).
  destruct H as [s Hph Hlt|s Hph Hge|s k t t' evs Hph Hl Ht
                |s k t evs r this' evs' Hph Hl Ht Hs|s Hph Hin|s Hph];
    simpl; try rewrite Hph in *.
  - rewrite sum_started, slice_window by lia.
    rewrite length_take, length_drop.
    rewrite (Z.max_l (n - i s) 0) by lia.
    destruct (Z.le_ge_cases c (n - i s)).
    + rewrite (Z.max_l (n - (i s + c)) 0) by lia.
      replace (Z.to_nat c `min` (length imageFiles - Z.to_nat (i s)))%nat
        with (Z.to_nat c) by lia.
      rewrite Nat2Z.inj_mul, Z2Nat.id by lia. unfold per_image. nia.
    + rewrite (Z.max_r (n - (i s + c)) 0) by lia.
      replace (Z.to_nat c `min` (length imageFiles - Z.to_nat (i s)))%nat
        with (Z.to_nat (n - i s)) by lia.
      rewrite Nat2Z.inj_mul, Z2Nat.id by lia. unfold per_image. nia.
  - rewrite Z.max_r by lia. lia.
  - apply task_step_continues in Ht as (_ & _ & _ & Hlt & _).
    pose proof (sum_insert (task_left config) _ _ _ t' Hl). lia.
  - apply task_step_resolves in Ht as (_ & _ & Hpos).
    pose proof (sum_delete (task_left config) _ _ _ Hl). lia.
  - rewrite Hin. simpl. lia.
  - done.
Qed.

Lemma steps_left_nonneg s : 0 ≤ steps_left config imageFiles s.
Proof.
  unfold steps_left.
  assert (∀ x, 0 ≤ (3 * Z.of_nat (maxRetries config) + 5) * Z.max x 0)
    by (intros; apply Z.mul_nonneg_nonneg; lia).
  destruct (phase s); [specialize (H (n - i s))|specialize (H (n - (i s + c)))|];
    lia.
Qed.

Lemma exec_done choices s :
  phase s = LoopDone → exec rt config imageFiles choices s = s.
Proof.
  intros Hph. induction choices as [|ch choices IH]; [done|].
  simpl. replace (step rt config imageFiles ch s) with s; [exact IH|].
  unfold step. by rewrite Hph.
Qed.

(** With a positive [concurrency] the loop ends, whatever the order in
    which the calls of [analyzeImage] move on. *)
Lemma exec_terminates choices :
  ∀ s, 0 < c → progress_pos config imageFiles s →
       steps_left config imageFiles s ≤ Z.of_nat (length choices) →
       phase (exec rt config imageFiles choices s) = LoopDone.
Proof.
  induction choices as [|ch choices IH]; intros s Hc Hpr Hsteps.
  - simpl in *. pose proof (steps_left_nonneg s) as Hnn.
    unfold steps_left in *.
    assert (∀ x, 0 ≤ (3 * Z.of_nat (maxRetries config) + 5) * Z.max x 0) as Hx
      by (intros; apply Z.mul_nonneg_nonneg; lia).
    destruct (phase s); [specialize (Hx (n - i s))
                        |specialize (Hx (n - (i s + c)))|]; [lia|lia|done].
  - assert (phase s = LoopDone ∨ phase s ≠ LoopDone) as [Hd|Hd]
      by (destruct (phase s); auto; right; discriminate).
    + by rewrite exec_done.
    + simpl. apply IH; [done| |].
      * eapply progress_pos_step; eauto. apply step_sound.
      * pose proof (steps_left_step s _ Hc Hpr Hd (step_sound rt config imageFiles ch s)).
        simpl in Hsteps. lia.
Qed.

End WindowFacts.

(** ** [process] and [main] *)

Section ProcessFacts.

Variable rt : Runtime.
Variable config : Config.

Lemma getImageFiles_listed files :
  readdir rt (imagesDir config) = Normal files →
  getImageFiles rt config = ([], Normal (matching rt config files)).
Proof.
  intros H. unfold getImageFiles, try_catch, mbind, M_bind, bind, lift.
  rewrite H. reflexivity.
Qed.

Lemma getImageFiles_unreadable m :
  readdir rt (imagesDir config) = Throw m →
  getImageFiles rt config
  = ([], Throw (js "Failed to read images directory: " ++ m)).
Proof.
  intros H. unfold getImageFiles, try_catch, mbind, M_bind, bind, lift.
  rewrite H. reflexivity.
Qed.

Lemma process_no_key choices :
  truthy_str (apiKey config) = false →
  process rt config choices
  = {| final := new_processor; out := [];
       status := Thrown (js "OPENAI_API_KEY is not set in environment variables");
       loop := None |}.
Proof. intros H. unfold process. rewrite H. reflexivity. Qed.

Lemma process_unreadable choices m :
  truthy_str (apiKey config) = true →
  readdir rt (imagesDir config) = Throw m →
  process rt config choices
  = {| final := new_processor; out := [];
       status := Thrown (js "Failed to read images directory: " ++ m);
       loop := None |}.
Proof.
  intros Hk H. unfold process. rewrite Hk, (getImageFiles_unreadable _ H).
  reflexivity.
Qed.

Lemma process_no_images choices files :
  truthy_str (apiKey config) = true →
  readdir rt (imagesDir config) = Normal files →
  matching rt config files = [] →
  process rt config choices
  = {| final := new_processor; out := [LogNoImages]; status := Returned;
       loop := None |}.
Proof.
  intros Hk H He. unfold process. rewrite Hk, (getImageFiles_listed _ H), He.
  reflexivity.
Qed.

Lemma process_loop choices files :
  truthy_str (apiKey config) = true →
  readdir rt (imagesDir config) = Normal files →
  matching rt config files ≠ [] →
  process rt config choices
  = after_loop rt config (loop_state rt config (matching rt config files) choices).
Proof.
  intros Hk H Hne. unfold process. rewrite Hk, (getImageFiles_listed _ H).
  simpl negb. cbv iota.
  destruct (matching rt config files) as [|f fs] eqn:Hm; [done|].
  reflexivity.
Qed.

(** Saving and summing up: either [writeFile] throws and nothing is
    printed, or the file is written and lines are printed. *)
Lemma save_and_summary st :
  (∃ m, writeFile rt (outputFile config) (stringify (output rt config st)) = Throw m
        ∧ saveResults rt config st ≫= (λ _, printSummary st) = ([], Throw m))
  ∨ (writeFile rt (outputFile config) (stringify (output rt config st)) = Normal ()
     ∧ ∃ lines,
         saveResults rt config st ≫= (λ _, printSummary st)
         = (EvWriteFile (outputFile config) (stringify (output rt config st))
              :: lines, Normal ())
         ∧ skeleton lines = [] ∧ written lines = []).
Proof.
  unfold saveResults, printSummary, mbind, M_bind, bind, lift, emit, mret, M_ret, ret.
  destruct (writeFile rt _ _) as [[]|m]; simpl.
  - right. split; [done|]. destruct (results st); simpl; eauto.
  - left. eauto.
Qed.

(** What the end of [process] makes of the state of the loop. *)
Lemma after_loop_run s :
  final (after_loop rt config s) = this s
  ∧ loop (after_loop rt config s) = Some s
  ∧ skeleton (out (after_loop rt config s)) = skeleton (console s)
  ∧ (status (after_loop rt config s) = Running ↔
       phase s = LoopTest ∨ phase s = AwaitBatch)
  ∧ (status (after_loop rt config s) = Returned ↔
       phase s = LoopDone
       ∧ writeFile rt (outputFile config) (stringify (output rt config (this s)))
         = Normal ())
  ∧ (∀ m, status (after_loop rt config s) = Thrown m ↔
       phase s = LoopDone
       ∧ writeFile rt (outputFile config)
           (stringify (output rt config (this s))) = Throw m).
Proof.
  unfold after_loop.
  destruct (phase s) eqn:Hph; simpl.
  - repeat split; intros; try done; intuition congruence.
  - repeat split; intros; try done; intuition congruence.
  - destruct (save_and_summary (this s))
      as [(m' & Hw & ->)|(Hw & lines & -> & Hsk & _)]; rewrite Hw; simpl.
    + rewrite app_nil_r.
      repeat split; intros; try done; intuition congruence.
    + rewrite skeleton_app. simpl. rewrite Hsk, app_nil_r.
      repeat split; intros; try done; intuition congruence.
Qed.

(** [process] either stops before the loop, with the processor as it was
    created, or runs the loop over the image files found. *)
Lemma process_shape :
  (∀ choices,
     final (process rt config choices) = new_processor
     ∧ loop (process rt config choices) = None
     ∧ status (process rt config choices) ≠ Running
     ∧ skeleton (out (process rt config choices)) = []
     ∧ written (out (process rt config choices)) = [])
  ∨ (∃ imageFiles,
       imageFiles ≠ []
       ∧ ∀ choices,
           process rt config choices
           = after_loop rt config (loop_state rt config imageFiles choices)).
Proof.
  destruct (truthy_str (apiKey config)) eqn:Hk.
  - destruct (readdir rt (imagesDir config)) as [files|m] eqn:Hr.
    + destruct (matching rt config files) as [|f fs] eqn:Hm.
      * left. intros choices. by rewrite (process_no_images _ _ Hk Hr Hm).
      * right. exists (f :: fs). split; [done|]. intros choices.
        rewrite <- Hm. apply process_loop; [done|done|]. by rewrite Hm.
    + left. intros choices. by rewrite (process_unreadable _ _ Hk Hr).
  - left. intros choices. by rewrite (process_no_key _ Hk).
Qed.

Lemma loop_state_snoc imageFiles choices choice :
  loop_state rt config imageFiles (choices ++ [choice])
  = step rt config imageFiles choice (loop_state rt config imageFiles choices).
Proof. unfold loop_state, exec. by rewrite fold_left_app. Qed.

Lemma loop_state_reachable imageFiles choices :
  rtc (sched_step rt config imageFiles)
    (loop_entry (with_total new_processor (length imageFiles))
       [LogFound (length imageFiles)])
    (loop_state rt config imageFiles choices).
Proof. apply exec_reachable. Qed.

(** The invariants hold when [process] enters the loop. *)
Lemma entry_counted imageFiles printed :
  counted imageFiles
    (loop_entry (with_total new_processor (length imageFiles)) printed).
Proof. done. Qed.

Lemma entry_progress_pos imageFiles printed :
  progress_pos config imageFiles
    (loop_entry (with_total new_processor (length imageFiles)) printed).
Proof. unfold progress_pos. simpl. split; [done|]. split; [done|]. lia. Qed.

Lemma entry_progress_nonpos imageFiles printed :
  progress_nonpos config imageFiles
    (loop_entry (with_total new_processor (length imageFiles)) printed).
Proof. unfold progress_nonpos. simpl. repeat split; auto; lia. Qed.

Lemma entry_windows_inv imageFiles printed :
  imageFiles ≠ [] → skeleton printed = [] →
  windows_inv config imageFiles
    (loop_entry (with_total new_processor (length imageFiles)) printed).
Proof.
  intros Hne Hsk. unfold windows_inv. simpl. left.
  split; [destruct imageFiles; [done|simpl; lia]|].
  exists []. rewrite Hsk. split; [constructor|]. split; [by rewrite take_0|done].
Qed.

Lemma reachable_counted imageFiles printed s :
  rtc (sched_step rt config imageFiles)
    (loop_entry (with_total new_processor (length imageFiles)) printed) s →
  counted imageFiles s.
Proof.
  apply invariant_reachable; [apply counted_step|apply entry_counted].
Qed.

Lemma reachable_progress_pos imageFiles printed s :
  0 < concurrency config →
  rtc (sched_step rt config imageFiles)
    (loop_entry (with_total new_processor (length imageFiles)) printed) s →
  progress_pos config imageFiles s.
Proof.
  intros Hc. apply invariant_reachable; [|apply entry_progress_pos].
  intros. by eapply progress_pos_step.
Qed.

Lemma reachable_progress_nonpos imageFiles printed s :
  concurrency config ≤ 0 →
  rtc (sched_step rt config imageFiles)
    (loop_entry (with_total new_processor (length imageFiles)) printed) s →
  progress_nonpos config imageFiles s.
Proof.
  intros Hc. apply invariant_reachable; [|apply entry_progress_nonpos].
  intros. by eapply progress_nonpos_step.
Qed.

Lemma reachable_windows_inv imageFiles printed s :
  0 < concurrency config → imageFiles ≠ [] → skeleton printed = [] →
  rtc (sched_step rt config imageFiles)
    (loop_entry (with_total new_processor (length imageFiles)) printed) s →
  windows_inv config imageFiles s.
Proof.
  intros Hc Hne Hsk Hr.
  cut (progress_pos config imageFiles s ∧ windows_inv config imageFiles s);
    [tauto|].
  revert Hr.
  apply (invariant_reachable rt config imageFiles
           (λ s, progress_pos config imageFiles s ∧ windows_inv config imageFiles s)).
  - intros s1 s2 [H1 H2] Hstep. split.
    + by eapply progress_pos_step.
    + by eapply windows_inv_step.
  - split; [apply entry_progress_pos|by apply entry_windows_inv].
Qed.

(** The counter never passes the total, whatever [concurrency] is. *)
Lemma reachable_processed_le imageFiles printed s :
  rtc (sched_step rt config imageFiles)
    (loop_entry (with_total new_processor (length imageFiles)) printed) s →
  (processedCount (this s) ≤ length imageFiles)%nat
  ∧ (phase s = LoopDone → processedCount (this s) = length imageFiles).
Proof.
  intros Hr. destruct (Z.lt_ge_cases 0 (concurrency config)) as [Hc|Hc].
  - destruct (reachable_progress_pos _ _ _ Hc Hr) as [Hi Hp].
    destruct (phase s).
    + split; [lia|done].
    + split; [lia|done].
    + split; [lia|intros _; lia].
  - destruct (reachable_progress_nonpos _ _ _ Hc Hr) as (Hi & _ & Hsum & Hp).
    split; [lia|]. intros Hd. rewrite Hd in Hp. lia.
Qed.

Lemma entry_steps_left imageFiles st printed :
  steps_left config imageFiles (loop_entry st printed)
  = Z.of_nat ((3 * maxRetries config + 5) * length imageFiles + 1).
Proof.
  unfold steps_left. simpl. rewrite Z.sub_0_r, Z.max_l by lia. lia.
Qed.

Lemma entry_within_batch imageFiles printed :
  within_batch config imageFiles
    (loop_entry (with_total new_processor (length imageFiles)) printed).
Proof. done. Qed.

Lemma reachable_within_batch imageFiles printed s :
  rtc (sched_step rt config imageFiles)
    (loop_entry (with_total new_processor (length imageFiles)) printed) s →
  within_batch config imageFiles s.
Proof.
  apply invariant_reachable; [|apply entry_within_batch].
  intros. by eapply within_batch_step.
Qed.

End ProcessFacts.

(** C1.  At every point of a run the counter [processedCount] equals the
    number of recorded results and errors and is at most [totalCount]; one
    more step of the run leaves the processor as it is or settles one
    outcome, adding it to [results] or to [errors] and 1 to the counter;
    and once [process] has returned or thrown, [processedCount] equals
    [totalCount]. *)
Theorem processedCount_counts_settled_outcomes
  (rt : Runtime) (config : Config) (choices : list nat) (choice : nat) :
  let r := process rt config choices in
  let r' := process rt config (choices ++ [choice]) in
  (processedCount (final r) ≤ totalCount (final r))%nat
  ∧ processedCount (final r)
    = (length (results (final r)) + length (errors (final r)))%nat
  ∧ (final r' = final r
     ∨ (processedCount (final r') = S (processedCount (final r))
        ∧ ∃ result,
            (results (final r') = results (final r) ++ [result]
             ∧ errors (final r') = errors (final r))
            ∨ (results (final r') = results (final r)
               ∧ errors (final r') = errors (final r) ++ [result])))
  ∧ (status r ≠ Running → processedCount (final r) = totalCount (final r)).
Proof.
  intros r r'. subst r r'.
  destruct (process_shape rt config) as [Hstop|(imageFiles & Hne & Hloop)].
  - destruct (Hstop choices) as (-> & _ & _ & _ & _).
    destruct (Hstop (choices ++ [choice])) as (-> & _ & _ & _ & _).
    simpl. auto.
  - rewrite !Hloop.
    destruct (after_loop_run rt config (loop_state rt config imageFiles choices))
      as (-> & _ & _ & Hrun & Hret & Hthr).
    destruct (after_loop_run rt config
                (loop_state rt config imageFiles (choices ++ [choice])))
      as (-> & _).
    rewrite loop_state_snoc.
    set (s := loop_state rt config imageFiles choices) in *.
    assert (Hr : rtc (sched_step rt config imageFiles)
                   (loop_entry (with_total new_processor (length imageFiles))
                      [LogFound (length imageFiles)]) s)
      by apply loop_state_reachable.
    destruct (reachable_counted rt config _ _ _ Hr) as [Hcount Htotal].
    destruct (reachable_processed_le rt config _ _ _ Hr) as [Hle Hdone].
    split; [lia|]. split; [done|]. split.
    + destruct (step_settles_one rt config imageFiles s _
                  (step_sound rt config imageFiles choice s))
        as [->|(Hp & _ & Hres)]; auto.
    + intros Hst. rewrite Htotal.
      destruct (phase s) eqn:Hph.
      * exfalso. apply Hst, Hrun. auto.
      * exfalso. apply Hst, Hrun. auto.
      * by apply Hdone.
Qed.


(** ** The windows of a run *)

Section WindowedRunFacts.

Lemma sk_dispatches_resolved order : sk_dispatches (map SkResolved order) = [].
Proof. induction order; done. Qed.

Lemma sk_waits_resolved order : sk_waits (map SkResolved order) = [].
Proof. induction order; done. Qed.

Lemma closed_windows_dispatches d ws sk :
  closed_windows d ws sk →
  sk_dispatches sk = ws ∧ sk_waits sk = repeat d (length ws).
Proof.
  induction 1 as [|ws sk w order _ [IH1 IH2] _]; [done|].
  unfold sk_dispatches, sk_waits in *.
  rewrite !omap_app. simpl. rewrite !omap_app. simpl.
  fold (sk_dispatches (map SkResolved order)).
  fold (sk_waits (map SkResolved order)).
  rewrite sk_dispatches_resolved, sk_waits_resolved, IH1, IH2.
  split; [done|].
  rewrite length_app. simpl. rewrite Nat.add_1_r. simpl.
  by rewrite repeat_cons.
Qed.

(** The batches of a whole run, in order, and the waits between them. *)
Lemma windowed_run_dispatches d size items sk :
  windowed_run d size items sk →
  ∃ ws w,
    sk_dispatches sk = ws ++ [w]
    ∧ sk_waits sk = repeat d (length ws)
    ∧ concat (ws ++ [w]) = items
    ∧ Forall (λ b, length b = size) ws
    ∧ (1 ≤ length w ≤ size)%nat.
Proof.
  intros (ws & w & order & (sk0 & Hcl & ->) & Hperm & Hcat & Hall & Hw).
  exists ws, w.
  destruct (closed_windows_dispatches _ _ _ Hcl) as [H1 H2].
  unfold sk_dispatches, sk_waits in *.
  rewrite !omap_app. simpl.
  fold (sk_dispatches (map SkResolved order)).
  fold (sk_waits (map SkResolved order)).
  rewrite sk_dispatches_resolved, sk_waits_resolved, H1, H2, app_nil_r.
  done.
Qed.

End WindowedRunFacts.

(** C3 for a positive [concurrency].  With the API key set and a directory
    listing with at least one image file, the run ends, whatever the order
    in which the calls of [analyzeImage] move on, and its record is a
    windowed run over the image files.  The batches handed to [processBatch] are consecutive
    pieces of the list, in order, each of [concurrency] items except the
    last, which has between 1 and [concurrency]; a batch is dispatched only
    after every promise of the batch before it has resolved and the wait
    of [batchDelay] is over; there is one such wait after each batch but
    the last. *)
Theorem windows_partition_the_items
  (rt : Runtime) (config : Config) (files : list jsstring) (choices : list nat) :
  truthy_str (apiKey config) = true →
  readdir rt (imagesDir config) = Normal files →
  matching rt config files ≠ [] →
  0 < concurrency config →
  let imageFiles := matching rt config files in
  let r := process rt config choices in
  (((3 * maxRetries config + 5) * length imageFiles + 1 ≤ length choices)%nat →
   status r ≠ Running)
  ∧ (status r ≠ Running →
     windowed_run (batchDelay config) (Z.to_nat (concurrency config))
       imageFiles (skeleton (out r))
     ∧ ∃ ws w,
         dispatches (out r) = ws ++ [w]
         ∧ concat (ws ++ [w]) = imageFiles
         ∧ Forall (λ b, length b = Z.to_nat (concurrency config)) ws
         ∧ (1 ≤ length w ≤ Z.to_nat (concurrency config))%nat
         ∧ batch_waits (out r) = repeat (batchDelay config) (length ws)).
Proof.
  intros Hk Hr Hne Hc imageFiles r. subst r.
  rewrite (process_loop rt config choices files Hk Hr Hne). fold imageFiles.
  set (s := loop_state rt config imageFiles choices).
  assert (Hreach : rtc (sched_step rt config imageFiles)
                     (loop_entry (with_total new_processor (length imageFiles))
                        [LogFound (length imageFiles)]) s)
    by apply loop_state_reachable.
  destruct (after_loop_run rt config s) as (_ & _ & Hsk & Hrun & _ & _).
  split.
  - intros Hlen Hst. apply Hrun in Hst.
    assert (Hd : phase s = LoopDone).
    { apply exec_terminates; [done|apply entry_progress_pos|].
      rewrite entry_steps_left. lia. }
    rewrite Hd in Hst. by destruct Hst.
  - intros Hst.
    assert (Hrun' : windowed_run (batchDelay config) (Z.to_nat (concurrency config))
                      imageFiles (skeleton (console s))).
    { pose proof (reachable_windows_inv rt config imageFiles
                    [LogFound (length imageFiles)] s Hc Hne eq_refl Hreach) as Hw.
      unfold windows_inv in Hw.
      destruct (phase s) eqn:Hph.
      - exfalso. apply Hst, Hrun. auto.
      - exfalso. apply Hst, Hrun. auto.
      - exact Hw. }
    rewrite Hsk. split; [exact Hrun'|].
    destruct (windowed_run_dispatches _ _ _ _ Hrun') as (ws & w & H1 & H2 & H3 & H4 & H5).
    exists ws, w. unfold dispatches, batch_waits. rewrite Hsk. done.
Qed.

(** Seven images among eight names, [CONCURRENCY=3], [BATCH_DELAY=100],
    every request answered at once: batches of 3, 3 and 1 and two waits of
    100 ms. *)
Lemma windows_partition_the_items_witness :
  let rt := Demo.runtime (Normal Demo.seven) (λ _, 0%nat) in
  let config := CONFIG (Demo.env "3") in
  let r := process rt config (repeat 0%nat 30) in
  status r = Returned
  ∧ map length (dispatches (out r)) = [3; 3; 1]%nat
  ∧ batch_waits (out r) = [100; 100]
  ∧ windowed_run 100 3 (matching rt config Demo.seven) (skeleton (out r)).
Proof.
  intros rt config r.
  assert (H1 : truthy_str (apiKey config) = true) by (vm_compute; reflexivity).
  assert (H2 : readdir rt (imagesDir config) = Normal Demo.seven) by reflexivity.
  assert (H3 : matching rt config Demo.seven ≠ []) by (vm_compute; discriminate).
  assert (H4 : 0 < concurrency config) by (vm_compute; reflexivity).
  destruct (windows_partition_the_items rt config Demo.seven (repeat 0%nat 30)
              H1 H2 H3 H4) as [_ Hw].
  assert (Hst : status r = Returned) by (vm_compute; reflexivity).
  split; [exact Hst|].
  split; [vm_compute; reflexivity|].
  split; [vm_compute; reflexivity|].
  apply Hw. fold r. rewrite Hst. discriminate.
Defined.

(** ** Requests in flight *)

Section InflightFacts.

Variable rt : Runtime.
Variable config : Config.

Lemma remote_calls_app evs evs' :
  remote_calls (evs ++ evs') = remote_calls evs ++ remote_calls evs'.
Proof. apply omap_app. Qed.

Lemma remote_calls_encodes (batch : list jsstring) :
  remote_calls (map (λ imagePath, EvEncode imagePath 0) batch) = [].
Proof. induction batch as [|p batch IH]; [reflexivity|exact IH]. Qed.

Lemma settle_remote_calls imagePath result st st' evs' :
  settle rt imagePath result st = (st', evs') → remote_calls evs' = [].
Proof. unfold settle. destruct result; intros [= <- <-]; done. Qed.

(** A request goes out when a call of [analyzeImage] in flight has read its
    file, and that call is then waiting for the service. *)
Lemma step_remote_calls imageFiles s s' :
  sched_step rt config imageFiles s s' →
  ∃ new, console s' = console s ++ new
         ∧ ∀ imagePath k, (imagePath, k) ∈ remote_calls new →
             imagePath ∈ map task_path (inflight s)
             ∧ imagePath ∈ calls_in_flight s'.
Proof.
  intros H.
  destruct H as [s Hph Hi|s Hph Hi|s k t t' evs Hph Hl Ht
                |s k t evs r this' evs' Hph Hl Ht Hs|s Hph Hin|s Hph];
    simpl.
  - eexists. split; [done|]. simpl. rewrite remote_calls_encodes.
    intros p k Hin. by apply elem_of_nil in Hin.
  - exists []. rewrite app_nil_r. split; [done|].
    intros p k Hin. by apply elem_of_nil in Hin.
  - eexists. split; [done|]. intros p j Hin.
    apply task_step_continues in Ht as (Hp & _ & _ & _ & Hcalls).
    destruct (Hcalls p j Hin) as (-> & _ & url & Hstage).
    split.
    + apply list_elem_of_In, in_map, list_elem_of_In.
      by eapply list_elem_of_lookup_2.
    + unfold calls_in_flight. simpl. apply list_elem_of_omap.
      exists t'. split; [|by rewrite Hstage, Hp].
      eapply list_elem_of_lookup_2. apply list_lookup_insert_eq.
      by eapply lookup_lt_Some.
  - eexists. split; [done|]. intros p j Hin.
    apply task_step_resolves in Ht as (-> & _).
    simpl in Hin. rewrite (settle_remote_calls _ _ _ _ _ Hs) in Hin.
    by apply elem_of_nil in Hin.
  - eexists. split; [done|]. intros p k Hel.
    destruct (_ <? _); simpl in Hel; by apply elem_of_nil in Hel.
  - exists []. rewrite app_nil_r. split; [done|].
    intros p k Hin. by apply elem_of_nil in Hin.
Qed.

End InflightFacts.

(** C4 for a [concurrency] that is not negative.  In every state the loop
    of [process] can reach, the calls of [analyzeImage] whose promise is
    pending are at most [concurrency], so the requests to the service that
    are out are at most [concurrency]; they are requests for images of the
    slice handed to [processBatch] last; and a request goes out only from
    a call in flight, which then counts among the requests that are out.
    Nothing but the size of the slice enforces the bound. *)
Theorem inflight_never_exceeds_concurrency
  (rt : Runtime) (config : Config) (imageFiles : list jsstring)
  (printed : list Event) (s : Sched) :
  0 ≤ concurrency config →
  rtc (sched_step rt config imageFiles)
    (loop_entry (with_total new_processor (length imageFiles)) printed) s →
  Z.of_nat (length (calls_in_flight s)) ≤ concurrency config
  ∧ (length (calls_in_flight s) ≤ length (inflight s))%nat
  ∧ Z.of_nat (length (inflight s)) ≤ concurrency config
  ∧ (∀ imagePath, imagePath ∈ calls_in_flight s →
       phase s = AwaitBatch
       ∧ imagePath ∈ slice imageFiles (i s) (i s + concurrency config))
  ∧ ∀ s', sched_step rt config imageFiles s s' →
          ∃ new, console s' = console s ++ new
                 ∧ ∀ imagePath k, (imagePath, k) ∈ remote_calls new →
                     imagePath ∈ map task_path (inflight s)
                     ∧ imagePath ∈ calls_in_flight s'.
Proof.
  intros Hc Hr.
  pose proof (reachable_within_batch rt config _ _ _ Hr) as Hin.
  pose proof (length_calls_in_flight s) as Hcalls.
  assert (Hlen : Z.of_nat (length (inflight s)) ≤ concurrency config).
  { unfold within_batch in Hin. destruct (phase s).
    - rewrite Hin. simpl. lia.
    - apply sublist_length in Hin. rewrite length_map in Hin.
      pose proof (slice_length_window imageFiles (i s) _ Hc). lia.
    - rewrite Hin. simpl. lia. }
  split; [lia|]. split; [done|]. split; [done|].
  split; [|apply step_remote_calls].
  intros p Hp. apply calls_in_flight_paths in Hp.
  unfold within_batch in Hin. destruct (phase s).
  - rewrite Hin in Hp. by apply elem_of_nil in Hp.
  - split; [done|]. by apply (sublist_subseteq _ _ Hin).
  - rewrite Hin in Hp. by apply elem_of_nil in Hp.
Qed.

(** Seven images with [CONCURRENCY=3], after the first batch is dispatched
    and two of its files are read: three calls of [analyzeImage] are in
    flight and two requests are out. *)
Lemma inflight_never_exceeds_concurrency_witness :
  let rt := Demo.runtime (Normal Demo.seven) (λ _, 1%nat) in
  let config := CONFIG (Demo.env "3") in
  let imageFiles := matching rt config Demo.seven in
  let s := loop_state rt config imageFiles [0; 0; 1]%nat in
  length (inflight s) = 3%nat
  ∧ calls_in_flight s = take 2 imageFiles
  ∧ Z.of_nat (length (calls_in_flight s)) ≤ concurrency config.
Proof.
  intros rt config imageFiles s.
  split; [vm_compute; reflexivity|].
  split; [vm_compute; reflexivity|].
  refine (proj1 (inflight_never_exceeds_concurrency rt config imageFiles
                   [LogFound (length imageFiles)] s _ _)).
  - vm_compute. discriminate.
  - apply loop_state_reachable.
Defined.

(** A negative [concurrency]: seven images with [CONCURRENCY=-3].  The
    first slice is [slice(0, -3)], four images, and the four requests are
    out at once. *)
Lemma inflight_exceeds_negative_concurrency_counterexample :
  let rt := Demo.runtime (Normal Demo.seven) (λ _, 0%nat) in
  let config := CONFIG (Demo.env "-3") in
  let imageFiles := matching rt config Demo.seven in
  let s := loop_state rt config imageFiles [0; 0; 1; 2; 3]%nat in
  concurrency config = -3
  ∧ length imageFiles = 7%nat
  ∧ calls_in_flight s = take 4 imageFiles
  ∧ ¬ Z.of_nat (length (calls_in_flight s)) ≤ concurrency config.
Proof.
  intros rt config imageFiles s.
  split; [vm_compute; reflexivity|].
  split; [vm_compute; reflexivity|].
  split; [vm_compute; reflexivity|].
  vm_compute. intros H. apply H. reflexivity.
Qed.

(** With a [concurrency] of zero or less and at least one image the loop
    never ends: [i] does not grow. *)
Lemma nonpositive_concurrency_never_done
  (rt : Runtime) (config : Config) (imageFiles : list jsstring)
  (choices : list nat) :
  concurrency config ≤ 0 → imageFiles ≠ [] →
  phase (loop_state rt config imageFiles choices) ≠ LoopDone.
Proof.
  intros Hc Hne Hd.
  destruct (reachable_progress_nonpos rt config imageFiles _ _ Hc
              (loop_state_reachable rt config imageFiles choices))
    as (Hi & _ & _ & Hp).
  rewrite Hd in Hp. destruct Hp as [Hn _].
  destruct imageFiles; [done|]. simpl in Hn. lia.
Qed.

(** Seven images with [CONCURRENCY=-3]: the first batch has four images,
    every later batch is empty, with a wait before each, the last three
    images are never dispatched, and [process] is still in the loop after
    40 steps. *)
Lemma windows_with_negative_concurrency_counterexample :
  let rt := Demo.runtime (Normal Demo.seven) (λ _, 0%nat) in
  let config := CONFIG (Demo.env "-3") in
  let imageFiles := matching rt config Demo.seven in
  let r := process rt config (repeat 0%nat 40) in
  concurrency config = -3
  ∧ length imageFiles = 7%nat
  ∧ status r = Running
  ∧ map length (dispatches (out r)) = 4%nat :: repeat 0%nat 15
  ∧ concat (dispatches (out r)) = take 4 imageFiles
  ∧ batch_waits (out r) = repeat 100 16.
Proof. vm_compute. repeat split; reflexivity. Qed.

(** ** Runs that end before the loop *)




(** C7.  Without an API key, or when the directory cannot be listed,
    [main] prints the fatal error and exits with code 1 and nothing else
    has happened: the fatal line is the only one, and the processor, if
    its constructor returned at all, is as the constructor made it
    ([processedCount] 0, no outcome).  With the client constructed, the
    key set and the directory listed, exit code 1 can only come from
    [writeFile] in [saveResults], after the loop is done; and with a
    positive [concurrency] the loop is done after
    [(3 * maxRetries + 5) * n + 1] steps with every image settled,
    whatever the attempts on the images did. *)
Theorem only_fatal_errors_halt_the_run
  (rt : Runtime) (config : Config) (choices : list nat) :
  let r := main rt config choices in
  (truthy_str (apiKey config) = false →
   exitCode r = Some 1
   ∧ (∃ m, stdout r = [LogFatal m])
   ∧ (processor r = None ∨ processor r = Some new_processor))
  ∧ (∀ m, truthy_str (apiKey config) = true →
          readdir rt (imagesDir config) = Throw m →
          exitCode r = Some 1
          ∧ (∃ m', stdout r = [LogFatal m'])
          ∧ (processor r = None ∨ processor r = Some new_processor))
  ∧ (∀ files, new_OpenAI rt (apiKey config) = Normal () →
              truthy_str (apiKey config) = true →
              readdir rt (imagesDir config) = Normal files →
              (exitCode r = Some 1 →
               ∃ s m, loop (process rt config choices) = Some s
                      ∧ phase s = LoopDone
                      ∧ writeFile rt (outputFile config)
                          (stringify (output rt config (this s))) = Throw m
                      ∧ last (stdout r) = Some (LogFatal m))
              ∧ (0 < concurrency config →
                 ((3 * maxRetries config + 5) * length (matching rt config files)
                  + 1 ≤ length choices)%nat →
                 ∃ code st, exitCode r = Some code
                            ∧ processor r = Some st
                            ∧ processedCount st
                              = length (matching rt config files))).
Proof.
  intros r. subst r. unfold main. split; [|split].
  - intros Hk. destruct (new_OpenAI rt (apiKey config)) as [[]|m0]; simpl.
    + rewrite (process_no_key rt config choices Hk). simpl. eauto.
    + eauto.
  - intros m Hk Hr. destruct (new_OpenAI rt (apiKey config)) as [[]|m0]; simpl.
    + rewrite (process_unreadable rt config choices m Hk Hr). simpl. eauto.
    + eauto.
  - intros files Hnew Hk Hr. rewrite Hnew.
    destruct (matching rt config files) as [|f fs] eqn:Hm.
    { rewrite (process_no_images rt config choices files Hk Hr Hm). simpl.
      split; [done|]. intros _ _. exists 0. eauto. }
    assert (Hne : matching rt config files ≠ []) by (by rewrite Hm).
    rewrite (process_loop rt config choices files Hk Hr Hne). rewrite Hm.
    set (s := loop_state rt config (f :: fs) choices).
    assert (Hreach : rtc (sched_step rt config (f :: fs))
                       (loop_entry (with_total new_processor (length (f :: fs)))
                          [LogFound (length (f :: fs))]) s)
      by apply loop_state_reachable.
    destruct (after_loop_run rt config s) as (Hfin & Hloop & _ & Hrun & Hret & Hthr).
    split.
    + destruct (status (after_loop rt config s)) as [|m|] eqn:Hst; simpl; try done.
      intros _. destruct (proj1 (Hthr m) eq_refl) as [Hd Hw].
      exists s, m. rewrite last_snoc. done.
    + intros Hc Hlen.
      assert (Hd : phase s = LoopDone).
      { apply exec_terminates; [done|apply entry_progress_pos|].
        rewrite entry_steps_left. lia. }
      destruct (reachable_processed_le rt config _ _ _ Hreach) as [_ Hall].
      destruct (status (after_loop rt config s)) as [|m|] eqn:Hst; simpl.
      * exists 0, (this s). rewrite Hfin. auto.
      * exists 1, (this s). rewrite Hfin. auto.
      * destruct (proj1 Hrun eq_refl) as [H|H]; rewrite Hd in H; done.
Qed.


(** ** The persisted artifact *)

Section ArtifactFacts.

Variable rt : Runtime.
Variable config : Config.

Lemma written_app evs evs' : written (evs ++ evs') = written evs ++ written evs'.
Proof. apply omap_app. Qed.

Lemma written_encodes (batch : list jsstring) :
  written (map (λ imagePath, EvEncode imagePath 0) batch) = [].
Proof. induction batch as [|p batch IH]; [reflexivity|exact IH]. Qed.

(** The loop writes no file. *)
Lemma step_writes_nothing imageFiles s s' :
  sched_step rt config imageFiles s s' →
  written (console s') = written (console s).
Proof.
  intros H.
  destruct H as [s Hph Hi|s Hph Hi|s k t t' evs Hph Hl Ht
                |s k t evs r this' evs' Hph Hl Ht Hs|s Hph Hin|s Hph];
    simpl; try done.
  - rewrite written_app. simpl. by rewrite written_encodes, app_nil_r.
  - apply task_step_continues in Ht as (_ & _ & Hw & _).
    by rewrite written_app, Hw, app_nil_r.
  - apply task_step_resolves in Ht as (-> & _).
    rewrite written_app. simpl.
    unfold settle in Hs. destruct r; injection Hs as <- <-; by rewrite app_nil_r.
  - rewrite written_app. destruct (_ <? _); by rewrite app_nil_r.
Qed.

Lemma loop_writes_nothing imageFiles choices :
  written (console (loop_state rt config imageFiles choices)) = [].
Proof.
  pose proof (loop_state_reachable rt config imageFiles choices) as Hr.
  revert Hr.
  apply (invariant_reachable rt config imageFiles (λ s, written (console s) = [])).
  - intros s s' Hs Hstep. by rewrite (step_writes_nothing _ _ _ Hstep).
  - done.
Qed.

(** What [process] writes: nothing, or the serialized [output] to
    [outputFile], once. *)
Lemma after_loop_written s :
  written (out (after_loop rt config s)) = written (console s)
  ∨ (status (after_loop rt config s) = Returned
     ∧ written (out (after_loop rt config s))
       = written (console s)
         ++ [(outputFile config, stringify (output rt config (this s)))]).
Proof.
  unfold after_loop.
  destruct (phase s); simpl; auto.
  destruct (save_and_summary rt config (this s))
    as [(m' & Hw & ->)|(Hw & lines & -> & _ & Hwr)]; simpl.
  - left. by rewrite app_nil_r.
  - right. rewrite written_app. simpl. by rewrite Hwr.
Qed.

Lemma process_written choices :
  written (out (process rt config choices)) = []
  ∨ (status (process rt config choices) = Returned
     ∧ written (out (process rt config choices))
       = [(outputFile config,
           stringify (output rt config (final (process rt config choices))))]).
Proof.
  destruct (process_shape rt config) as [Hstop|(imageFiles & Hne & Hloop)].
  - left. by destruct (Hstop choices) as (_ & _ & _ & _ & ?).
  - rewrite Hloop.
    destruct (after_loop_run rt config (loop_state rt config imageFiles choices))
      as (-> & _).
    destruct (after_loop_written (loop_state rt config imageFiles choices))
      as [->|[Hst ->]]; rewrite loop_writes_nothing; auto.
Qed.

(** The properties of the object [saveResults] serializes. *)
Lemma output_properties (st : RunState) :
  get "metadata" (output rt config st) ≫= get "totalImages"
  = Some (JNumber (Z.of_nat (totalCount st)))
  ∧ get "metadata" (output rt config st) ≫= get "successfulCount"
    = Some (JNumber (Z.of_nat (length (results st))))
  ∧ get "metadata" (output rt config st) ≫= get "errorCount"
    = Some (JNumber (Z.of_nat (length (errors st))))
  ∧ get "results" (output rt config st)
    = Some (JArray (map outcome_json (results st)))
  ∧ get "errors" (output rt config st)
    = Some (JArray (map outcome_json (errors st))).
Proof. repeat split. Qed.

(** Each property of an outcome is read from the object written for it. *)
Lemma outcome_json_holds (o : Outcome) : holds (outcome_json o) o.
Proof.
  destruct o as [im p [d|] [m|] [u|] ts|im p e ts]; repeat split.
Qed.

Lemma outcomes_json_hold (os : list Outcome) :
  Forall2 holds (map outcome_json os) os.
Proof.
  induction os as [|o os IH]; constructor; [apply outcome_json_holds|exact IH].
Qed.


End ArtifactFacts.

(** C6.  Whatever [process] has written is the artifact of the run, at
    [outputFile], written by a run that returned; the text is well formed,
    so the file holds it as it is.  Parsed again, the text gives a
    document in which [metadata.totalImages] is [totalCount],
    [metadata.successfulCount] the length of [results] and
    [metadata.errorCount] the length of [errors], and whose arrays
    [results] and [errors] hold the accumulated collections, outcome by
    outcome and in their order: every property of an outcome is read back
    with its value. *)
Theorem persisted_artifact_round_trip
  (rt : Runtime) (config : Config) (choices : list nat) (file text : jsstring) :
  (file, text) ∈ written (out (process rt config choices)) →
  let st := final (process rt config choices) in
  file = outputFile config
  ∧ status (process rt config choices) = Returned
  ∧ well_formed text = true
  ∧ ∃ doc saved_results saved_errors,
      parse text = Some doc
      ∧ get "metadata" doc ≫= get "totalImages"
        = Some (JNumber (Z.of_nat (totalCount st)))
      ∧ get "metadata" doc ≫= get "successfulCount"
        = Some (JNumber (Z.of_nat (length (results st))))
      ∧ get "metadata" doc ≫= get "errorCount"
        = Some (JNumber (Z.of_nat (length (errors st))))
      ∧ get "results" doc = Some (JArray saved_results)
      ∧ get "errors" doc = Some (JArray saved_errors)
      ∧ Forall2 holds saved_results (results st)
      ∧ Forall2 holds saved_errors (errors st).
Proof.
  intros Hin st.
  destruct (process_written rt config choices) as [Hw|[Hst Hw]];
    rewrite Hw in Hin.
  - by apply elem_of_nil in Hin.
  - apply list_elem_of_singleton in Hin. injection Hin as -> ->.
    split; [done|]. split; [done|].
    split; [apply stringify_well_formed|].
    exists (output rt config st),
      (map outcome_json (results st)), (map outcome_json (errors st)).
    split; [apply parse_stringify|].
    destruct (output_properties rt config st) as (H1 & H2 & H3 & H4 & H5).
    repeat split; try done; apply outcomes_json_hold.
Qed.

(** One image answered and one that fails every attempt: the artifact has
    one result and one error, read back with what the run recorded. *)
Lemma persisted_artifact_round_trip_witness :
  let rt := Demo.runtime (Normal Demo.two) Demo.b_fails in
  let config := CONFIG (Demo.env "3") in
  let r := process rt config (repeat 0%nat 20) in
  let text := stringify (output rt config (final r)) in
  written (out r) = [(js "./results.json", text)]
  ∧ results (final r)
    = [Success (js "a.jpg") (js "images/a.jpg")
         (Some (JString (js "A photo."))) (Some (JString (js "gpt-4o")))
         (Some (JObject [ (js "prompt_tokens", JNumber 1105);
                          (js "completion_tokens", JNumber 150);
                          (js "total_tokens", JNumber 1255) ]))
         (js "2025-01-15T10:30:15.000Z")]
  ∧ errors (final r)
    = [Failure (js "b.png") (js "images/b.png") (js "429 attempt 3")
         (js "2025-01-15T10:30:15.000Z")]
  ∧ ∃ doc saved_results saved_errors,
      parse text = Some doc
      ∧ get "metadata" doc ≫= get "totalImages" = Some (JNumber 2)
      ∧ get "metadata" doc ≫= get "successfulCount" = Some (JNumber 1)
      ∧ get "metadata" doc ≫= get "errorCount" = Some (JNumber 1)
      ∧ get "results" doc = Some (JArray saved_results)
      ∧ get "errors" doc = Some (JArray saved_errors)
      ∧ Forall2 holds saved_results (results (final r))
      ∧ Forall2 holds saved_errors (errors (final r)).
Proof.
  intros rt config r text.
  assert (Hw : written (out r) = [(js "./results.json", text)])
    by (vm_compute; reflexivity).
  split; [exact Hw|].
  split; [vm_compute; reflexivity|].
  split; [vm_compute; reflexivity|].
  destruct (persisted_artifact_round_trip rt config (repeat 0%nat 20)
              (js "./results.json") text)
    as (_ & _ & _ & doc & rs & es & Hp & H1 & H2 & H3 & H4 & H5 & H6 & H7).
  { fold r. rewrite Hw. constructor. }
  exists doc, rs, es. split; [exact Hp|].
  split; [exact H1|]. split; [exact H2|]. split; [exact H3|].
  split; [exact H4|]. split; [exact H5|]. split; [exact H6|exact H7].
Defined.

(** ** The fields of an outcome *)

Section OutcomeFacts.

Variable rt : Runtime.
Variable config : Config.

Lemma sorted_outcomes_step imageFiles s s' :
  sorted_outcomes s → sched_step rt config imageFiles s s' → sorted_outcomes s'.
Proof.
  intros [Hr He] H. unfold sorted_outcomes.
  destruct H as [| | |s k t evs r this' evs' Hph Hl Ha Hs| |]; simpl; auto.
  apply settle_effect in Hs as (_ & _ & _ & [(Hsuc & -> & ->)|(Hsuc & -> & ->)]).
  - split; [|done]. apply Forall_app. split; [done|]. by constructor.
  - split; [done|]. apply Forall_app. split; [done|]. by constructor.
Qed.

Lemma process_sorted_outcomes choices :
  Forall (λ o, success o = true) (results (final (process rt config choices)))
  ∧ Forall (λ o, success o = false) (errors (final (process rt config choices))).
Proof.
  destruct (process_shape rt config) as [Hstop|(imageFiles & Hne & Hloop)].
  - destruct (Hstop choices) as (-> & _). by split.
  - rewrite Hloop.
    destruct (after_loop_run rt config (loop_state rt config imageFiles choices))
      as (-> & _).
    pose proof (loop_state_reachable rt config imageFiles choices) as Hr.
    revert Hr. apply (invariant_reachable rt config imageFiles sorted_outcomes).
    + intros s s' Hs Hstep. by eapply sorted_outcomes_step.
    + by split.
Qed.

End OutcomeFacts.



(** ** The retry options *)

(** C9, as the code has it.  The retry wrapper takes its budget and its
    wait from the configuration object: at most [maxRetries config + 1]
    attempts, with [retryDelay config] between them.  In [CONFIG] the two
    are the constants 3 and 2000, whatever the environment holds. *)
Theorem retry_options_are_constants_of_CONFIG :
  (∀ (rt : Runtime) (config : Config) (imagePath : jsstring),
     ∃ evs result last,
       analyzeImage rt config imagePath 0 = (evs, Normal result)
       ∧ (last ≤ maxRetries config)%nat
       ∧ retry_timeline evs
         = expected_timeline (retryDelay config) 0 (S last))
  ∧ (∀ env : Env,
       maxRetries (CONFIG env) = 3%nat ∧ retryDelay (CONFIG env) = 2000).
Proof.
  split; [|done].
  intros rt config imagePath.
  destruct (analyzeImage_course rt config imagePath _ 0 eq_refl)
    as (evs & r & last & He & Hl1 & Hl2 & Ht & _).
  rewrite Nat.sub_0_r in Ht.
  exists evs, r, last. split; [done|]. split; [lia|done].
Qed.

(** An environment that sets [MAX_RETRIES] and [RETRY_DELAY], next to
    [MAX_TOKENS] and [BATCH_DELAY]: the latter two are taken, the former
    two are not, and an image that always fails is tried 4 times with
    waits of 2000 ms. *)
Lemma retry_options_from_the_environment_counterexample :
  let env : Env := {[ "OPENAI_API_KEY"%string := js "sk-test";
                      "MAX_TOKENS"%string := js "7";
                      "BATCH_DELAY"%string := js "100";
                      "MAX_RETRIES"%string := js "7";
                      "RETRY_DELAY"%string := js "100" ]} in
  let rt := Demo.runtime (Normal Demo.two) Demo.b_fails in
  parseInt (env !! "MAX_RETRIES"%string) = Num 7
  ∧ parseInt (env !! "RETRY_DELAY"%string) = Num 100
  ∧ maxTokens (CONFIG env) = 7
  ∧ batchDelay (CONFIG env) = 100
  ∧ maxRetries (CONFIG env) = 3%nat
  ∧ retryDelay (CONFIG env) = 2000
  ∧ retry_timeline (analyzeImage rt (CONFIG env) (js "images/b.png") 0).1
    = [inl 0%nat; inr 2000; inl 1%nat; inr 2000; inl 2%nat; inr 2000; inl 3%nat].
Proof. vm_compute. repeat split; reflexivity. Qed.

(** * More of [index.js] *)

(** ** [CONFIG]: the text of an option *)

Section ParseIntFacts.

Lemma skipWhite_app ws s :
  Forall (λ c, isStrWhiteSpace c = true) ws → skipWhite (ws ++ s) = skipWhite s.
Proof.
  induction 1 as [|c ws Hc _ IH]; [done|]. simpl. by rewrite Hc.
Qed.

Lemma digitVal_decimal c :
  digitVal 10 c = if is_digit c then Some (Z.of_N c - 48) else None.
Proof.
  unfold digitVal, is_digit.
  destruct (N.leb_spec 48 c), (N.leb_spec c 57), (N.leb_spec 97 c),
    (N.leb_spec c 122), (N.leb_spec 65 c), (N.leb_spec c 90);
    simpl; try lia; try done;
    match goal with |- context [?a <? 10] => destruct (Z.ltb_spec a 10) end;
    try done; lia.
Qed.

(** In radix 10 [parseInt] reads the digits [JSON.parse] reads. *)
Lemma digitsPrefix_decimal s :
  ∀ a, digitsPrefix 10 (Some (Z.of_N a)) s = Some (Z.of_N (parse_digits a s).1).
Proof.
  induction s as [|c t IH]; intros a; [done|].
  simpl. rewrite digitVal_decimal.
  destruct (is_digit c) eqn:Hc; [|done].
  rewrite <- IH. f_equal. f_equal.
  unfold is_digit in Hc. apply andb_prop in Hc as [H1 H2].
  apply N.leb_le in H1. lia.
Qed.

Lemma digitsPrefix_digits n rest :
  (0 < n)%N → no_digit_next rest →
  digitsPrefix 10 None (digits n ++ rest) = Some (Z.of_N n).
Proof.
  intros Hn Hrest.
  destruct (digits_aux_head _ n [] Hn (digits_fuel_ok n)) as (c & t & Hd & Hc1 & Hc2).
  assert (H0 : digitsPrefix 10 None (digits n ++ rest)
               = digitsPrefix 10 (Some (Z.of_N 0)) (digits n ++ rest)).
  { unfold digits. rewrite Hd. simpl. rewrite digitVal_decimal.
    assert (is_digit c = true) as ->; [|done].
    unfold is_digit. apply andb_true_intro. split; apply N.leb_le; lia. }
  rewrite H0, digitsPrefix_decimal. f_equal. f_equal.
  unfold digits.
  destruct (parse_digits_aux _ n 0%N [] rest (digits_fuel_ok n)) as [k ->].
  simpl app. replace (0 * 10 ^ k + n)%N with n by lia.
  destruct rest as [|d rest']; [done|]. simpl in *. by rewrite Hrest.
Qed.

Lemma parseInt_unsigned c t :
  isStrWhiteSpace c = false → c ≠ 45%N → c ≠ 43%N → c ≠ 48%N →
  parseInt (Some (c :: t))
  = match digitsPrefix 10 None (c :: t) with
    | Some m => Num (1 * m)
    | None => NaN
    end.
Proof.
  intros Hws Hminus Hplus Hzero. unfold parseInt, ToString. simpl skipWhite.
  rewrite Hws.
  destruct (N.eqb_spec c 45); [done|]. destruct (N.eqb_spec c 43); [done|].
  destruct c as [|p]; [reflexivity|].
  do 6 (try (destruct p as [p|p|]; try reflexivity)). done.
Qed.

Lemma parseInt_negative c t :
  c ≠ 48%N →
  parseInt (Some (45%N :: c :: t))
  = match digitsPrefix 10 None (c :: t) with
    | Some m => Num (-1 * m)
    | None => NaN
    end.
Proof.
  intros Hzero. unfold parseInt, ToString. simpl skipWhite. simpl N.eqb.
  cbv iota.
  destruct c as [|p]; [reflexivity|].
  do 6 (try (destruct p as [p|p|]; try reflexivity)). done.
Qed.

Lemma parseInt_skips ws s :
  Forall (λ c, isStrWhiteSpace c = true) ws →
  parseInt (Some (ws ++ s)) = parseInt (Some s).
Proof.
  intros Hws. unfold parseInt, ToString. by rewrite (skipWhite_app _ _ Hws).
Qed.

(** [parseInt] of an integer written in decimal, with white space before
    it and anything but a digit after it. *)
Lemma parseInt_number_text z ws rest :
  z ≠ 0 →
  Forall (λ c, isStrWhiteSpace c = true) ws →
  no_digit_next rest →
  parseInt (Some (ws ++ number_text z ++ rest)) = Num z.
Proof.
  intros Hz Hws Hrest. rewrite (parseInt_skips _ _ Hws). unfold number_text.
  destruct (Z.ltb_spec z 0) as [Hneg|Hpos].
  - destruct (digits_aux_head _ (Z.to_N (- z)) [] ltac:(lia) (digits_fuel_ok _))
      as (c & t & Hd & Hc1 & Hc2).
    pose proof (digitsPrefix_digits (Z.to_N (- z)) rest ltac:(lia) Hrest) as Hp.
    unfold digits in *. rewrite Hd in *. simpl app in *.
    rewrite parseInt_negative by lia. rewrite Hp. f_equal. lia.
  - destruct (digits_aux_head _ (Z.to_N z) [] ltac:(lia) (digits_fuel_ok _))
      as (c & t & Hd & Hc1 & Hc2).
    pose proof (digitsPrefix_digits (Z.to_N z) rest ltac:(lia) Hrest) as Hp.
    unfold digits in *. rewrite Hd in *. simpl app in *.
    rewrite parseInt_unsigned; try lia.
    + rewrite Hp. f_equal. lia.
    + unfold isStrWhiteSpace.
      rewrite (proj2 (N.leb_gt c 13)) by lia.
      rewrite (proj2 (N.leb_gt 8192 c)) by lia.
      rewrite !(proj2 (N.eqb_neq c _)) by lia.
      by rewrite andb_false_r.
Qed.

End ParseIntFacts.

(** X1.  A numeric option given as an integer in decimal, other than 0 and
    within the integers a Number holds exactly, is taken as it is, sign
    included: white space before it is skipped and what follows the digits
    is ignored.  So [CONCURRENCY=-3] gives a concurrency of -3 and
    [MAX_TOKENS=300 tokens] gives 300. *)
Theorem CONFIG_reads_a_decimal_integer
  (env : Env) (key : string) (z : Z) (ws rest : jsstring) :
  env !! key = Some (ws ++ number_text z ++ rest) →
  Forall (λ c, isStrWhiteSpace c = true) ws →
  no_digit_next rest →
  z ≠ 0 → - 2 ^ 53 ≤ z ≤ 2 ^ 53 →
  (key = "MAX_TOKENS"%string → maxTokens (CONFIG env) = z)
  ∧ (key = "CONCURRENCY"%string → concurrency (CONFIG env) = z)
  ∧ (key = "BATCH_DELAY"%string → batchDelay (CONFIG env) = z).
Proof.
  intros Hkey Hws Hrest Hz _.
  pose proof (parseInt_number_text z ws rest Hz Hws Hrest) as Hp.
  rewrite <- Hkey in Hp.
  unfold CONFIG; cbn [maxTokens concurrency batchDelay].
  repeat split; intros ->;
    (etrans; [|by eapply num_or_truthy]); f_equal; exact Hp.
Qed.

(** [CONCURRENCY] set to [" -3 workers"]. *)
Lemma CONFIG_reads_a_decimal_integer_witness :
  concurrency (CONFIG {[ "CONCURRENCY"%string := js " -3 workers" ]}) = -3.
Proof.
  refine (proj1 (proj2 (CONFIG_reads_a_decimal_integer
                          {[ "CONCURRENCY"%string := js " -3 workers" ]}
                          "CONCURRENCY" (-3) (js " ") (js " workers")
                          _ _ _ _ _)) eq_refl).
  - reflexivity.
  - repeat constructor.
  - reflexivity.
  - discriminate.
  - split; vm_compute; discriminate.
Defined.

(** X2.  [MODEL], [IMAGES_DIR], [OUTPUT_FILE] and [PROMPT]: a value that is
    not the empty string is taken as it is, and the empty string is the
    same as leaving the variable out.  The API key has no default: it is
    the variable's value, or undefined. *)
Theorem CONFIG_string_options (env : Env) (key : string) (v : jsstring) :
  key ∈ ["MODEL"; "IMAGES_DIR"; "OUTPUT_FILE"; "PROMPT"]%string →
  CONFIG (<[key := []]> env) = CONFIG (delete key env)
  ∧ (v ≠ [] →
     let config := CONFIG (<[key := v]> env) in
     (key = "MODEL"%string → model config = v)
     ∧ (key = "IMAGES_DIR"%string → imagesDir config = v)
     ∧ (key = "OUTPUT_FILE"%string → outputFile config = v)
     ∧ (key = "PROMPT"%string → prompt config = v))
  ∧ apiKey (CONFIG (<[key := v]> env)) = env !! "OPENAI_API_KEY"%string.
Proof.
  intros Hkey.
  assert (key = "MODEL" ∨ key = "IMAGES_DIR" ∨ key = "OUTPUT_FILE"
          ∨ key = "PROMPT")%string as Hcases.
  { repeat (apply elem_of_cons in Hkey as [?|Hkey]; [tauto|]).
    by apply elem_of_nil in Hkey. }
  split; [|split].
  - unfold CONFIG.
    destruct Hcases as [-> | [-> | [-> | ->]]];
      rewrite lookup_insert_eq, lookup_delete_eq;
      rewrite !lookup_insert_ne, !lookup_delete_ne by done; reflexivity.
  - intros Hv config. subst config. unfold CONFIG; simpl.
    destruct v as [|c v]; [done|].
    repeat split; intros ->; by rewrite lookup_insert_eq.
  - unfold CONFIG; simpl.
    destruct Hcases as [-> | [-> | [-> | ->]]]; by rewrite lookup_insert_ne.
Qed.

(** [OUTPUT_FILE] set to the empty string and to a name. *)
Lemma CONFIG_string_options_witness :
  outputFile (CONFIG {[ "OUTPUT_FILE"%string := [] ]}) = js "./results.json"
  ∧ outputFile (CONFIG {[ "OUTPUT_FILE"%string := js "out.json" ]}) = js "out.json".
Proof.
  assert (Hin : "OUTPUT_FILE"%string
                ∈ ["MODEL"; "IMAGES_DIR"; "OUTPUT_FILE"; "PROMPT"]%string)
    by (apply elem_of_cons; right; apply elem_of_cons; right; apply elem_of_cons;
        by left).
  destruct (CONFIG_string_options ∅ "OUTPUT_FILE" (js "out.json") Hin)
    as (Hempty & Hset & _).
  split.
  - exact (eq_trans (f_equal outputFile Hempty) eq_refl).
  - refine (proj1 (proj2 (proj2 (Hset _))) eq_refl). discriminate.
Defined.

(** ** [imageToBase64]: the MIME type *)

Lemma lookup_ext_cases (ext : jsstring) :
  lookup_ext ext mimeTypes = None
  ∨ (ext = js ".jpg" ∧ lookup_ext ext mimeTypes = Some (js "image/jpeg"))
  ∨ (ext = js ".jpeg" ∧ lookup_ext ext mimeTypes = Some (js "image/jpeg"))
  ∨ (ext = js ".png" ∧ lookup_ext ext mimeTypes = Some (js "image/png"))
  ∨ (ext = js ".gif" ∧ lookup_ext ext mimeTypes = Some (js "image/gif"))
  ∨ (ext = js ".webp" ∧ lookup_ext ext mimeTypes = Some (js "image/webp")).
Proof.
  unfold mimeTypes, lookup_ext.
  repeat (destruct (decide (_ = ext)) as [<-|?]; [tauto|]). tauto.
Qed.

(** X3.  The data URL is [data:<type>;base64,<payload>], where the type is
    [image/jpeg] for the extensions [.jpg] and [.jpeg], [image/png] for
    [.png], [image/gif] for [.gif], [image/webp] for [.webp], the
    extension taken in lower case, and [image/jpeg] for every other
    extension.  An image file that [getImageFiles] finds under [CONFIG]
    has one of the five extensions, where joining the directory leaves
    the extension of a file name as it is: its type is never the
    fallback. *)
Theorem data_url_has_an_image_type
  (rt : Runtime) (imagePath base64Image : jsstring) :
  let ext := toLowerCase rt (extname rt imagePath) in
  ∃ type,
    data_url rt imagePath base64Image
    = js "data:" ++ type ++ js ";base64," ++ base64Image
    ∧ (ext = js ".jpg" → type = js "image/jpeg")
    ∧ (ext = js ".jpeg" → type = js "image/jpeg")
    ∧ (ext = js ".png" → type = js "image/png")
    ∧ (ext = js ".gif" → type = js "image/gif")
    ∧ (ext = js ".webp" → type = js "image/webp")
    ∧ (ext ∉ [js ".jpg"; js ".jpeg"; js ".png"; js ".gif"; js ".webp"] →
       type = js "image/jpeg")
    ∧ (∀ (env : Env) (files : list jsstring),
         Forall (λ file, extname rt (join rt (imagesDir (CONFIG env)) file)
                         = extname rt file) files →
         imagePath ∈ matching rt (CONFIG env) files →
         ext ∈ [js ".jpg"; js ".jpeg"; js ".png"; js ".gif"; js ".webp"]).
Proof.
  intros ext.
  assert (Hfound : ∀ (env : Env) (files : list jsstring),
            Forall (λ file, extname rt (join rt (imagesDir (CONFIG env)) file)
                            = extname rt file) files →
            imagePath ∈ matching rt (CONFIG env) files →
            ext ∈ [js ".jpg"; js ".jpeg"; js ".png"; js ".gif"; js ".webp"]).
  { intros env files Hall Hin. unfold matching in Hin.
    apply list_elem_of_In, in_map_iff in Hin as (file & <- & Hfile).
    apply list_elem_of_In, list_elem_of_filter in Hfile as [Hext Hfile].
    rewrite Forall_forall in Hall. subst ext. rewrite (Hall file Hfile).
    exact Hext. }
  unfold data_url. fold ext. clearbody ext.
  assert (Hin : ∀ e, e ∈ [js ".jpg"; js ".jpeg"; js ".png"; js ".gif"; js ".webp"] →
                ∀ x, x ∉ [js ".jpg"; js ".jpeg"; js ".png"; js ".gif"; js ".webp"] →
                x = e → False) by (intros e He x Hx ->; done).
  destruct (lookup_ext_cases ext)
    as [H|[[He H]|[[He H]|[[He H]|[[He H]|[He H]]]]]]; rewrite H;
    eexists; (split; [reflexivity|]);
    (repeat split; [..|exact Hfound]); intros Hx; try reflexivity;
    try (rewrite Hx in H; vm_compute in H; discriminate);
    try (rewrite He in Hx; vm_compute in Hx; discriminate);
    exfalso; apply (Hin ext) with ext; try done; rewrite He;
    repeat (apply elem_of_cons; first [by left|right]).
Qed.

(** [b.JPG] of the listing is sent as [image/jpeg]. *)
Lemma data_url_has_an_image_type_witness :
  let rt := Demo.runtime (Normal Demo.seven) (λ _, 0%nat) in
  data_url rt (js "images/b.JPG") (js "QUJD") = js "data:image/jpeg;base64,QUJD"
  ∧ toLowerCase rt (extname rt (js "images/b.JPG"))
    ∈ [js ".jpg"; js ".jpeg"; js ".png"; js ".gif"; js ".webp"].
Proof.
  intros rt.
  destruct (data_url_has_an_image_type rt (js "images/b.JPG") (js "QUJD"))
    as (type & Hurl & Hjpg & _ & _ & _ & _ & _ & Hfound).
  split.
  - rewrite Hurl, Hjpg; reflexivity.
  - apply (Hfound (Demo.env "3") Demo.seven).
    + repeat constructor.
    + vm_compute. apply elem_of_cons. right. apply elem_of_cons. by left.
Defined.

(** ** The loop of [process]: what is read, sent, settled and printed *)

Section RunFacts.

Variable rt : Runtime.
Variable config : Config.
Variable imageFiles : list jsstring.

Local Abbreviation c := (concurrency config).
Local Abbreviation sstep := (sched_step rt config imageFiles).

Lemma attempts_app evs evs' : attempts (evs ++ evs') = attempts evs ++ attempts evs'.
Proof. apply omap_app. Qed.

Lemma retry_waits_app evs evs' :
  retry_waits (evs ++ evs') = retry_waits evs ++ retry_waits evs'.
Proof. apply omap_app. Qed.

Lemma touched_app evs evs' : touched (evs ++ evs') = touched evs ++ touched evs'.
Proof. apply omap_app. Qed.

Lemma progress_lines_app evs evs' :
  progress_lines (evs ++ evs') = progress_lines evs ++ progress_lines evs'.
Proof. apply omap_app. Qed.

Lemma error_lines_app evs evs' :
  error_lines (evs ++ evs') = error_lines evs ++ error_lines evs'.
Proof. apply omap_app. Qed.

(** What the events of a dispatch are. *)
Lemma encodes_record (batch : list jsstring) :
  let evs := map (λ imagePath, EvEncode imagePath 0) batch in
  length (attempts evs) = length batch
  ∧ retry_waits evs = [] ∧ touched evs = batch
  ∧ progress_lines evs = [] ∧ error_lines evs = [].
Proof.
  induction batch as [|p batch (IH1 & IH2 & IH3 & IH4 & IH5)]; [done|].
  simpl in *. unfold touched in *. simpl. rewrite IH1.
  repeat split; try done. f_equal. exact IH3.
Qed.

(** What a step of a call of [analyzeImage] is: the file is read and the
    request goes out; the attempt has failed and the retry delay starts;
    the delay is over and the next attempt starts; or the call returns. *)
Lemma task_step_record t :
  match task_step rt config t with
  | Continues t' evs =>
      task_path t' = task_path t
      ∧ progress_lines evs = [] ∧ error_lines evs = []
      ∧ Forall (λ imagePath, imagePath = task_path t) (touched evs)
      ∧ ((task_stage t = Reading ∧ (∃ url, task_stage t' = Calling url)
          ∧ task_retry t' = task_retry t
          ∧ attempts evs = [] ∧ length (remote_calls evs) = 1%nat
          ∧ retry_waits evs = [])
         ∨ (task_stage t ≠ Waiting ∧ task_stage t' = Waiting
            ∧ task_retry t' = task_retry t
            ∧ (task_retry t < maxRetries config)%nat
            ∧ attempts evs = [] ∧ remote_calls evs = []
            ∧ retry_waits evs = [retryDelay config])
         ∨ (task_stage t = Waiting ∧ task_stage t' = Reading
            ∧ task_retry t' = S (task_retry t)
            ∧ attempts evs = [S (task_retry t)] ∧ remote_calls evs = []
            ∧ retry_waits evs = []))
  | Resolves result evs => evs = [] ∧ outcome_path result = task_path t
  end.
Proof.
  unfold task_step, on_error. destruct t as [p k [|url|]]; simpl.
  - destruct (readFile_base64 rt p k).
    + split; [done|]. split; [done|]. split; [done|].
      split; [by repeat constructor|]. left. eauto 10.
    + destruct (decide _); [|done].
      split; [done|]. split; [done|]. split; [done|].
      split; [by constructor|]. right. left. by repeat split.
  - destruct (chat_completions_create rt p k _); [done|].
    destruct (decide _); [|done].
    split; [done|]. split; [done|]. split; [done|].
    split; [by constructor|]. right. left. by repeat split.
  - split; [done|]. split; [done|]. split; [done|].
    split; [by repeat constructor|]. right. right. by repeat split.
Qed.

Lemma slice_subseteq {A} (l : list A) (a b : Z) x : x ∈ slice l a b → x ∈ l.
Proof.
  unfold slice. intros H.
  eapply (sublist_subseteq _ _ (sublist_drop l _)).
  eapply (sublist_subseteq _ _ (sublist_take _ _)). exact H.
Qed.

(** The images of the calls in flight are image files. *)
Lemma within_batch_image s t k :
  within_batch config imageFiles s → inflight s !! k = Some t →
  task_path t ∈ imageFiles.
Proof.
  intros Hin Hl. unfold within_batch in Hin.
  destruct (phase s); try (rewrite Hin in Hl; done).
  eapply slice_subseteq, (sublist_subseteq _ _ Hin).
  apply list_elem_of_In, in_map, list_elem_of_In.
  by eapply list_elem_of_lookup_2.
Qed.

Lemma settle_record imagePath result st st' evs' :
  settle rt imagePath result st = (st', evs') →
  attempts evs' = [] ∧ remote_calls evs' = [] ∧ retry_waits evs' = []
  ∧ touched evs' = [].
Proof. unfold settle. destruct result; intros [= <- <-]; done. Qed.

Lemma touches_images_step s s' :
  within_batch config imageFiles s → touches_images imageFiles s → sstep s s' →
  touches_images imageFiles s'.
Proof.
  intros Hin Hinv H. unfold touches_images in *.
  destruct H as [s Hph Hi|s Hph Hi|s k t t' evs Hph Hl Ht
                |s k t evs r this' evs' Hph Hl Ht Hs|s Hph Hin'|s Hph];
    simpl; try done.
  - rewrite touched_app. apply Forall_app. split; [done|].
    change (touched (EvDispatch ?b :: ?evs)) with (touched evs).
    destruct (encodes_record (slice imageFiles (i s) (i s + c)))
      as (_ & _ & -> & _).
    apply Forall_forall. intros p Hp. by eapply slice_subseteq.
  - rewrite touched_app. apply Forall_app. split; [done|].
    pose proof (task_step_record t) as Hrec. rewrite Ht in Hrec.
    destruct Hrec as (_ & _ & _ & Hall & _).
    eapply Forall_impl; [exact Hall|]. intros p ->.
    by eapply within_batch_image.
  - pose proof (task_step_record t) as Hrec. rewrite Ht in Hrec.
    destruct Hrec as [-> _]. rewrite app_nil_l, touched_app.
    apply Forall_app. split; [done|].
    destruct (settle_record _ _ _ _ _ Hs) as (_ & _ & _ & Hnone).
    change (touched (EvResolved ?p :: ?evs)) with (touched evs).
    rewrite Hnone. constructor.
  - rewrite touched_app. apply Forall_app. split; [done|].
    destruct (_ <? _); constructor.
Qed.

Lemma settled_paths_settle imagePath result st st' evs' :
  settle rt imagePath result st = (st', evs') →
  settled_paths st' ≡ₚ settled_paths st ++ [outcome_path result].
Proof.
  unfold settle, settled_paths.
  destruct result; intros [= <- <-]; simpl; rewrite !map_app; simpl.
  - rewrite <- !app_assoc. apply Permutation_app_head, Permutation_app_comm.
  - by rewrite <- !app_assoc.
Qed.

Lemma accounted_step s s' :
  0 < c → progress_pos config imageFiles s → accounted config imageFiles s →
  sstep s s' → accounted config imageFiles s'.
Proof.
  intros Hc [Hi Hpr] Hinv H. unfold accounted in *.
  destruct H as [s Hph Hi'|s Hph Hi'|s k t t' evs Hph Hl Ht
                |s k t evs r this' evs' Hph Hl Ht Hs|s Hph Hin|s Hph];
    simpl; try rewrite Hph in Hinv, Hpr.
  - rewrite map_started_path, slice_window by lia. rewrite Hinv.
    rewrite take_take_drop.
    by replace (Z.to_nat (i s) + Z.to_nat c)%nat with (Z.to_nat (i s + c)) by lia.
  - rewrite Hinv. rewrite take_ge by lia. done.
  - pose proof (task_step_record t) as Hrec. rewrite Ht in Hrec.
    destruct Hrec as (Hp & _).
    by rewrite (map_path_insert _ _ _ _ Hl Hp).
  - pose proof (task_step_record t) as Hrec. rewrite Ht in Hrec.
    destruct Hrec as [_ Hp].
    rewrite (settled_paths_settle _ _ _ _ _ Hs), Hp, <- Hinv, <- app_assoc.
    apply Permutation_app_head. rewrite map_path_delete. simpl.
    symmetry. apply delete_Permutation. by apply map_path_lookup.
  - rewrite Hin in Hinv. simpl in Hinv. by rewrite app_nil_r in Hinv.
  - by rewrite Hph.
Qed.

Lemma sum_started_const (f : Task → nat) (k : nat) (batch : list jsstring) :
  (∀ imagePath, f (started imagePath) = k) →
  sum_list (map f (map started batch)) = (length batch * k)%nat.
Proof.
  intros Hf. induction batch as [|p batch IH]; [done|].
  simpl. rewrite IH, Hf. lia.
Qed.

Lemma in_budget_step s s' :
  within_batch config imageFiles s → in_budget config s → sstep s s' →
  in_budget config s'.
Proof.
  intros Hin (Hall & Hreads & Hcalls & Hwaits) H. unfold in_budget in *.
  destruct H as [s Hph Hi|s Hph Hi|s k t t' evs Hph Hl Ht
                |s k t evs r this' evs' Hph Hl Ht Hs|s Hph Hin'|s Hph];
    simpl; try done.
  - unfold within_batch in Hin. rewrite Hph in Hin. rewrite Hin in *.
    simpl in Hreads, Hcalls, Hwaits.
    set (batch := slice imageFiles (i s) (i s + c)).
    destruct (encodes_record batch) as (Ha & Hw & _).
    rewrite attempts_app, remote_calls_app, retry_waits_app, !length_app.
    change (attempts (EvDispatch ?b :: ?evs)) with (attempts evs).
    change (remote_calls (EvDispatch ?b :: ?evs)) with (remote_calls evs).
    change (retry_waits (EvDispatch ?b :: ?evs)) with (retry_waits evs).
    rewrite Ha, Hw, remote_calls_encodes, length_map.
    rewrite (sum_started_const (reads_left config) (maxRetries config))
      by (intros; unfold reads_left; simpl; lia).
    rewrite (sum_started_const (calls_left config) (S (maxRetries config)))
      by (intros; unfold calls_left; simpl; lia).
    rewrite (sum_started_const (waits_left config) (maxRetries config))
      by (intros; unfold waits_left; simpl; lia).
    split.
    { apply Forall_forall. intros t Ht.
      apply list_elem_of_In, in_map_iff in Ht as (p & <- & _).
      simpl. split; [lia|done]. }
    simpl length. nia.
  - pose proof (task_step_record t) as Hrec. rewrite Ht in Hrec.
    destruct Hrec as (_ & _ & _ & _ & Hcases).
    destruct (Forall_lookup_1 _ _ _ _ Hall Hl) as [Hk Hkw].
    pose proof (sum_insert (reads_left config) _ _ _ t' Hl) as Hsr.
    pose proof (sum_insert (calls_left config) _ _ _ t' Hl) as Hsc.
    pose proof (sum_insert (waits_left config) _ _ _ t' Hl) as Hsw.
    rewrite attempts_app, remote_calls_app, retry_waits_app, !length_app.
    rewrite length_insert.
    set (Sr := sum_list (map (reads_left config) (inflight s))) in *.
    set (Sc := sum_list (map (calls_left config) (inflight s))) in *.
    set (Sw := sum_list (map (waits_left config) (inflight s))) in *.
    set (Sr' := sum_list (map (reads_left config) (<[k:=t']> (inflight s)))) in *.
    set (Sc' := sum_list (map (calls_left config) (<[k:=t']> (inflight s)))) in *.
    set (Sw' := sum_list (map (waits_left config) (<[k:=t']> (inflight s)))) in *.
    unfold reads_left, calls_left, waits_left in Hsr, Hsc, Hsw.
    destruct Hcases as [(Hst & (url & Hst') & Hk' & -> & Hrc & ->)
                       |[(Hst & Hst' & Hk' & Hlt & -> & -> & ->)
                        |(Hst & Hst' & Hk' & -> & -> & ->)]];
      rewrite ?Hrc; simpl length.
    + split.
      { apply Forall_insert; [done|]. rewrite Hk', Hst'. by split. }
      rewrite Hst, Hst', Hk' in *. lia.
    + split.
      { apply Forall_insert; [done|]. rewrite Hk'. by split. }
      rewrite Hst', Hk' in *.
      destruct (task_stage t); [|lia|done]. lia.
    + specialize (Hkw Hst).
      split.
      { apply Forall_insert; [done|]. rewrite Hk', Hst'. split; [lia|done]. }
      rewrite Hst, Hst', Hk' in *. lia.
  - pose proof (task_step_record t) as Hrec. rewrite Ht in Hrec.
    destruct Hrec as [-> _].
    assert (Hk : (k < length (inflight s))%nat) by (eapply lookup_lt_Some; eauto).
    pose proof (sum_delete (reads_left config) _ _ _ Hl) as Hsr.
    pose proof (sum_delete (calls_left config) _ _ _ Hl) as Hsc.
    pose proof (sum_delete (waits_left config) _ _ _ Hl) as Hsw.
    destruct (settle_record _ _ _ _ _ Hs) as (Hra & Hrc & Hrw & _).
    apply settle_effect in Hs as (Hp & _ & _ & _).
    rewrite length_delete by eauto. rewrite Hp.
    replace (S (processedCount (this s)) + (length (inflight s) - 1))%nat
      with (processedCount (this s) + length (inflight s))%nat by lia.
    rewrite app_nil_l, attempts_app, remote_calls_app, retry_waits_app.
    change (attempts (EvResolved ?p :: ?e)) with (attempts e).
    change (remote_calls (EvResolved ?p :: ?e)) with (remote_calls e).
    change (retry_waits (EvResolved ?p :: ?e)) with (retry_waits e).
    rewrite Hra, Hrc, Hrw, !app_nil_r.
    split; [by apply Forall_delete|]. lia.
  - rewrite Hin' in *. simpl in *.
    rewrite attempts_app, remote_calls_app, retry_waits_app.
    destruct (_ <? _); simpl; rewrite ?app_nil_r; by repeat split.
Qed.

End RunFacts.

Section RunRecordFacts.

Variable rt : Runtime.
Variable config : Config.

Lemma lines_printed_step imageFiles s s' :
  lines_printed s → sched_step rt config imageFiles s s' → lines_printed s'.
Proof.
  intros [Hp He] H. unfold lines_printed in *.
  destruct H as [s Hph Hi|s Hph Hi|s k t t' evs Hph Hl Ht
                |s k t evs r this' evs' Hph Hl Ht Hs|s Hph Hin|s Hph];
    simpl; try done.
  - rewrite progress_lines_app, error_lines_app.
    change (progress_lines (EvDispatch ?b :: ?evs)) with (progress_lines evs).
    change (error_lines (EvDispatch ?b :: ?evs)) with (error_lines evs).
    destruct (encodes_record (slice imageFiles (i s) (i s + concurrency config)))
      as (_ & _ & _ & -> & ->).
    by rewrite !app_nil_r.
  - pose proof (task_step_record rt config t) as Hrec. rewrite Ht in Hrec.
    destruct Hrec as (_ & Hpl & Hel & _).
    by rewrite progress_lines_app, error_lines_app, Hpl, Hel, !app_nil_r.
  - pose proof (task_step_record rt config t) as Hrec. rewrite Ht in Hrec.
    destruct Hrec as [-> _].
    rewrite app_nil_l, progress_lines_app, error_lines_app.
    change (progress_lines (EvResolved ?p :: ?e)) with (progress_lines e).
    change (error_lines (EvResolved ?p :: ?e)) with (error_lines e).
    rewrite Hp, He.
    unfold settle in Hs.
    destruct r; injection Hs as <- <-;
      cbn [processedCount totalCount errors results];
      rewrite seq_S, map_app, ?omap_app; simpl; by rewrite ?app_nil_r.
  - rewrite progress_lines_app, error_lines_app.
    destruct (_ <? _); simpl; by rewrite !app_nil_r.
Qed.

(** What [process] adds to the record once the loop is done. *)
Lemma after_loop_out s :
  ∃ tail,
    out (after_loop rt config s) = console s ++ tail
    ∧ attempts tail = [] ∧ remote_calls tail = [] ∧ retry_waits tail = []
    ∧ touched tail = [] ∧ progress_lines tail = [] ∧ error_lines tail = [].
Proof.
  unfold after_loop.
  destruct (phase s); try (exists []; by rewrite app_nil_r).
  unfold saveResults, printSummary, mbind, M_bind, bind, lift, emit, mret,
    M_ret, ret.
  destruct (writeFile rt _ _) as [[]|m]; simpl.
  - destruct (results (this s)); simpl; eexists; (split; [reflexivity|done]).
  - exists []. done.
Qed.

(** [process] stops before the loop, having printed at most that there
    are no images, or runs the loop over the image files found. *)
Lemma process_before_loop :
  (∀ choices,
     loop (process rt config choices) = None
     ∧ processedCount (final (process rt config choices)) = 0%nat
     ∧ totalCount (final (process rt config choices)) = 0%nat
     ∧ results (final (process rt config choices)) = []
     ∧ errors (final (process rt config choices)) = []
     ∧ (out (process rt config choices) = []
        ∨ out (process rt config choices) = [LogNoImages]))
  ∨ (∃ imageFiles,
       imageFiles ≠ []
       ∧ ∀ choices,
           process rt config choices
           = after_loop rt config (loop_state rt config imageFiles choices)).
Proof.
  destruct (truthy_str (apiKey config)) eqn:Hk.
  - destruct (readdir rt (imagesDir config)) as [files|m] eqn:Hr.
    + destruct (matching rt config files) as [|f fs] eqn:Hm.
      * left. intros choices. rewrite (process_no_images _ _ _ _ Hk Hr Hm).
        simpl. auto 10.
      * right. exists (f :: fs). split; [done|]. intros choices.
        rewrite <- Hm. apply process_loop; [done|done|]. by rewrite Hm.
    + left. intros choices. rewrite (process_unreadable _ _ _ _ Hk Hr).
      simpl. auto 10.
  - left. intros choices. rewrite (process_no_key _ _ _ Hk). simpl. auto 10.
Qed.

Lemma entry_in_budget (imageFiles : list jsstring) :
  in_budget config
    (loop_entry (with_total new_processor (length imageFiles))
       [LogFound (length imageFiles)]).
Proof. unfold in_budget. simpl. repeat split; try constructor; lia. Qed.

Lemma reachable_in_budget imageFiles s :
  rtc (sched_step rt config imageFiles)
    (loop_entry (with_total new_processor (length imageFiles))
       [LogFound (length imageFiles)]) s →
  in_budget config s.
Proof.
  intros Hr.
  cut (within_batch config imageFiles s ∧ in_budget config s); [tauto|].
  revert Hr.
  apply (invariant_reachable rt config imageFiles
           (λ s, within_batch config imageFiles s ∧ in_budget config s)).
  - intros s1 s2 [H1 H2] Hstep. split.
    + by eapply within_batch_step.
    + by eapply in_budget_step.
  - split; [apply entry_within_batch|apply entry_in_budget].
Qed.

Lemma reachable_touches_images imageFiles s :
  rtc (sched_step rt config imageFiles)
    (loop_entry (with_total new_processor (length imageFiles))
       [LogFound (length imageFiles)]) s →
  touches_images imageFiles s.
Proof.
  intros Hr.
  cut (within_batch config imageFiles s ∧ touches_images imageFiles s); [tauto|].
  revert Hr.
  apply (invariant_reachable rt config imageFiles
           (λ s, within_batch config imageFiles s ∧ touches_images imageFiles s)).
  - intros s1 s2 [H1 H2] Hstep. split.
    + by eapply within_batch_step.
    + by eapply touches_images_step.
  - split; [apply entry_within_batch|constructor].
Qed.

Lemma reachable_lines_printed imageFiles s :
  rtc (sched_step rt config imageFiles)
    (loop_entry (with_total new_processor (length imageFiles))
       [LogFound (length imageFiles)]) s →
  lines_printed s.
Proof.
  apply invariant_reachable; [|done].
  intros. by eapply lines_printed_step.
Qed.

Lemma reachable_accounted imageFiles s :
  0 < concurrency config →
  rtc (sched_step rt config imageFiles)
    (loop_entry (with_total new_processor (length imageFiles))
       [LogFound (length imageFiles)]) s →
  accounted config imageFiles s.
Proof.
  intros Hc Hr.
  cut (progress_pos config imageFiles s ∧ accounted config imageFiles s);
    [tauto|].
  revert Hr.
  apply (invariant_reachable rt config imageFiles
           (λ s, progress_pos config imageFiles s
                 ∧ accounted config imageFiles s)).
  - intros s1 s2 [H1 H2] Hstep. split.
    + by eapply progress_pos_step.
    + by eapply accounted_step.
  - split; [apply entry_progress_pos|]. unfold accounted. simpl.
    by rewrite take_0.
Qed.

(** The images dispatched so far are no more than there are. *)
Lemma reachable_dispatched_le imageFiles printed s :
  rtc (sched_step rt config imageFiles)
    (loop_entry (with_total new_processor (length imageFiles)) printed) s →
  (processedCount (this s) + length (inflight s) ≤ length imageFiles)%nat.
Proof.
  intros Hr. destruct (Z.lt_ge_cases 0 (concurrency config)) as [Hc|Hc].
  - destruct (reachable_progress_pos _ _ _ _ _ Hc Hr) as [Hi Hp].
    destruct (phase s).
    + destruct Hp as [-> Hp]. simpl. lia.
    + lia.
    + destruct Hp as [-> Hp]. simpl. lia.
  - destruct (reachable_progress_nonpos _ _ _ _ _ Hc Hr) as (_ & _ & Hsum & _).
    lia.
Qed.

End RunRecordFacts.

(** X4.  A run reads at most [maxRetries + 1] files and sends at most
    [maxRetries + 1] requests for each image found, and waits for at most
    [maxRetries] retry delays for each, whatever the concurrency and the
    order in which the calls move on. *)
Theorem attempts_stay_within_the_retry_budget
  (rt : Runtime) (config : Config) (choices : list nat) :
  let r := process rt config choices in
  let n := totalCount (final r) in
  (length (attempts (out r)) ≤ (maxRetries config + 1) * n)%nat
  ∧ (length (remote_calls (out r)) ≤ (maxRetries config + 1) * n)%nat
  ∧ (length (retry_waits (out r)) ≤ maxRetries config * n)%nat.
Proof.
  intros r n. subst r n.
  destruct (process_before_loop rt config) as [Hstop|(imageFiles & Hne & Hloop)].
  - destruct (Hstop choices) as (_ & _ & _ & _ & _ & [-> | ->]); simpl; lia.
  - rewrite Hloop.
    set (s := loop_state rt config imageFiles choices).
    destruct (after_loop_run rt config s) as (-> & _).
    destruct (after_loop_out rt config s) as (tail & -> & Ha & Hc & Hw & _).
    pose proof (loop_state_reachable rt config imageFiles choices) as Hr.
    fold s in Hr.
    destruct (reachable_counted rt config _ _ _ Hr) as [_ ->].
    pose proof (reachable_dispatched_le rt config _ _ _ Hr) as Hle.
    destruct (reachable_in_budget rt config _ _ Hr) as (_ & H1 & H2 & H3).
    rewrite attempts_app, remote_calls_app, retry_waits_app, Ha, Hc, Hw,
      !app_nil_r.
    assert (Hsum : ∀ f : Task → nat, (0 ≤ sum_list (map f (inflight s)))%nat)
      by (intros; lia).
    nia.
Qed.

(** X5.  The progress lines [[k/n]] printed by [processBatch] count up by
    one from 1 to the number of images processed so far, each with the
    total, and the error lines are the messages of the failures recorded
    in [errors], in the same order. *)
Theorem progress_lines_count_up
  (rt : Runtime) (config : Config) (choices : list nat) :
  let r := process rt config choices in
  progress_lines (out r)
  = map (λ k, (k, totalCount (final r))) (seq 1 (processedCount (final r)))
  ∧ error_lines (out r) = omap outcome_error (errors (final r))
  ∧ length (error_lines (out r)) = length (errors (final r)).
Proof.
  intros r. subst r.
  assert (Hlen : error_lines (out (process rt config choices))
                 = omap outcome_error (errors (final (process rt config choices)))
                 → length (error_lines (out (process rt config choices)))
                   = length (errors (final (process rt config choices)))).
  { intros ->.
    destruct (process_sorted_outcomes rt config choices) as [_ Hf].
    induction Hf as [|o l Ho _ IH]; [done|].
    destruct o; [discriminate|]. simpl. f_equal. exact IH. }
  cut (progress_lines (out (process rt config choices))
       = map (λ k, (k, totalCount (final (process rt config choices))))
           (seq 1 (processedCount (final (process rt config choices))))
       ∧ error_lines (out (process rt config choices))
         = omap outcome_error (errors (final (process rt config choices)))).
  { intros [H1 H2]. auto. }
  clear Hlen.
  destruct (process_before_loop rt config) as [Hstop|(imageFiles & Hne & Hloop)].
  - destruct (Hstop choices) as (_ & -> & _ & _ & -> & [-> | ->]); done.
  - rewrite Hloop.
    set (s := loop_state rt config imageFiles choices).
    destruct (after_loop_run rt config s) as (-> & _).
    destruct (after_loop_out rt config s) as (tail & -> & _ & _ & _ & _ & Hp & He).
    pose proof (loop_state_reachable rt config imageFiles choices) as Hr.
    destruct (reachable_lines_printed rt config _ _ Hr) as [H1 H2].
    fold s in H1, H2.
    by rewrite progress_lines_app, error_lines_app, Hp, He, !app_nil_r.
Qed.

(** X6.  Every file read and every request sent is for an image file: a
    name of the directory listing whose extension, in lower case, is one
    of [imageExtensions], joined to [imagesDir]; and none is read or sent
    without an API key. *)
Theorem only_image_files_are_read_and_sent
  (rt : Runtime) (config : Config) (choices : list nat) (imagePath : jsstring) :
  imagePath ∈ touched (out (process rt config choices)) →
  truthy_str (apiKey config) = true
  ∧ ∃ files file,
      readdir rt (imagesDir config) = Normal files
      ∧ file ∈ files
      ∧ toLowerCase rt (extname rt file) ∈ imageExtensions config
      ∧ imagePath = join rt (imagesDir config) file.
Proof.
  intros Hin.
  destruct (truthy_str (apiKey config)) eqn:Hk.
  2: { rewrite (process_no_key _ _ _ Hk) in Hin. by apply elem_of_nil in Hin. }
  split; [done|].
  destruct (readdir rt (imagesDir config)) as [files|m] eqn:Hr.
  2: { rewrite (process_unreadable _ _ _ _ Hk Hr) in Hin.
       by apply elem_of_nil in Hin. }
  exists files.
  destruct (matching rt config files) as [|f fs] eqn:Hm.
  { rewrite (process_no_images _ _ _ _ Hk Hr Hm) in Hin.
    by apply elem_of_nil in Hin. }
  assert (Hne : matching rt config files ≠ []) by (by rewrite Hm).
  rewrite (process_loop rt config choices files Hk Hr Hne) in Hin.
  set (s := loop_state rt config (matching rt config files) choices) in *.
  destruct (after_loop_out rt config s) as (tail & Hout & _ & _ & _ & Ht & _).
  rewrite Hout, touched_app, Ht, app_nil_r in Hin.
  pose proof (reachable_touches_images rt config _ _
                (loop_state_reachable rt config (matching rt config files) choices))
    as Hall.
  fold s in Hall. unfold touches_images in Hall.
  rewrite Forall_forall in Hall. apply Hall in Hin.
  unfold matching in Hin.
  apply list_elem_of_In, in_map_iff in Hin as (file & <- & Hfile).
  apply list_elem_of_In, list_elem_of_filter in Hfile as [Hext Hfile].
  exists file. auto.
Qed.

(** Seven image files among eight names: [b.JPG] is read. *)
Lemma only_image_files_are_read_and_sent_witness :
  let rt := Demo.runtime (Normal Demo.seven) (λ _, 0%nat) in
  let config := CONFIG (Demo.env "3") in
  ∃ file,
    file ∈ Demo.seven
    ∧ toLowerCase rt (extname rt file) ∈ imageExtensions config
    ∧ js "images/b.JPG" = join rt (imagesDir config) file.
Proof.
  intros rt config.
  destruct (only_image_files_are_read_and_sent rt config [0%nat]
              (js "images/b.JPG"))
    as (_ & files & file & Hr & H1 & H2 & H3).
  { vm_compute. apply elem_of_cons. right. apply elem_of_cons. by left. }
  injection Hr as <-. exists file. auto.
Defined.

(** X7.  With the API key set, the directory listed and a positive
    concurrency, a run that has ended has recorded exactly one outcome for
    every image file found, in [results] or in [errors]: none is left out
    and none is there twice. *)
Theorem every_image_gets_one_outcome
  (rt : Runtime) (config : Config) (files : list jsstring) (choices : list nat) :
  truthy_str (apiKey config) = true →
  readdir rt (imagesDir config) = Normal files →
  0 < concurrency config →
  let r := process rt config choices in
  status r ≠ Running →
  settled_paths (final r) ≡ₚ matching rt config files
  ∧ (length (results (final r)) + length (errors (final r)))%nat
    = length (matching rt config files).
Proof.
  intros Hk Hr Hc r Hst. subst r.
  cut (settled_paths (final (process rt config choices))
       ≡ₚ matching rt config files).
  { intros Hp. split; [done|]. apply Permutation_length in Hp.
    unfold settled_paths in Hp. by rewrite length_map, length_app in Hp. }
  destruct (matching rt config files) as [|f fs] eqn:Hm.
  { by rewrite (process_no_images _ _ _ _ Hk Hr Hm). }
  assert (Hne : matching rt config files ≠ []) by (by rewrite Hm).
  rewrite (process_loop rt config choices files Hk Hr Hne) in *.
  rewrite Hm in *.
  set (s := loop_state rt config (f :: fs) choices) in *.
  destruct (after_loop_run rt config s) as (-> & _ & _ & Hrun & _).
  pose proof (reachable_accounted rt config _ _ Hc
                (loop_state_reachable rt config (f :: fs) choices)) as Hacc.
  fold s in Hacc. unfold accounted in Hacc.
  destruct (phase s); [exfalso; apply Hst, Hrun; auto
                      |exfalso; apply Hst, Hrun; auto|done].
Qed.

(** Two images, one answered and one that fails every attempt. *)
Lemma every_image_gets_one_outcome_witness :
  let rt := Demo.runtime (Normal Demo.two) Demo.b_fails in
  let config := CONFIG (Demo.env "3") in
  let r := process rt config (repeat 0%nat 20) in
  settled_paths (final r) ≡ₚ [js "images/a.jpg"; js "images/b.png"]
  ∧ (length (results (final r)) + length (errors (final r)))%nat = 2%nat.
Proof.
  intros rt config r.
  refine (every_image_gets_one_outcome rt config Demo.two (repeat 0%nat 20)
            _ _ _ _).
  - vm_compute. reflexivity.
  - reflexivity.
  - vm_compute. reflexivity.
  - vm_compute. discriminate.
Defined.

Section NeverEnds.

Variable rt : Runtime.
Variable config : Config.

Lemma after_loop_running s :
  phase s ≠ LoopDone →
  status (after_loop rt config s) = Running
  ∧ out (after_loop rt config s) = console s.
Proof.
  intros Hph. unfold after_loop. by destruct (phase s).
Qed.

Lemma task_step_closing t t' evs :
  task_step rt config t = Continues t' evs → closing_lines evs = [].
Proof.
  unfold task_step, on_error. destruct t as [p k [|url|]]; simpl.
  - destruct (readFile_base64 rt p k).
    + by intros [= <- <-].
    + destruct (decide _); [|discriminate]. by intros [= <- <-].
  - destruct (chat_completions_create rt p k _); [discriminate|].
    destruct (decide _); [|discriminate]. by intros [= <- <-].
  - by intros [= <- <-].
Qed.

(** The loop prints neither the line that names the file nor the
    summary. *)
Lemma loop_prints_no_closing_line imageFiles choices :
  closing_lines (console (loop_state rt config imageFiles choices)) = [].
Proof.
  pose proof (loop_state_reachable rt config imageFiles choices) as Hreach.
  revert Hreach.
  apply (invariant_reachable rt config imageFiles
           (λ s, closing_lines (console s) = [])); [|done].
  intros s s' Hs H.
  destruct H as [s Hph Hi|s Hph Hi|s k t t' evs Hph Hl Ht
                |s k t evs r this' evs' Hph Hl Ht Hs'|s Hph Hin|s Hph];
    simpl; try done; unfold closing_lines in *; rewrite omap_app, Hs;
    simpl.
  - induction (slice _ _ _) as [|p l IH]; [done|exact IH].
  - exact (task_step_closing _ _ _ Ht).
  - pose proof (task_step_resolves rt config _ _ _ Ht) as (-> & _).
    unfold settle in Hs'. by destruct r; injection Hs' as <- <-.
  - by destruct (_ <? _).
Qed.

End NeverEnds.

(** X8.  With the API key set and at least one image file, a concurrency
    of zero or less keeps [process] in its loop for ever: whatever the
    order of events it never returns, never throws, writes no file and
    prints no summary, and [main] does not exit. *)
Theorem nonpositive_concurrency_never_ends
  (rt : Runtime) (config : Config) (files : list jsstring) (choices : list nat) :
  truthy_str (apiKey config) = true →
  readdir rt (imagesDir config) = Normal files →
  matching rt config files ≠ [] →
  concurrency config ≤ 0 →
  let r := process rt config choices in
  status r = Running
  ∧ written (out r) = []
  ∧ closing_lines (out r) = []
  ∧ (new_OpenAI rt (apiKey config) = Normal () →
     exitCode (main rt config choices) = None).
Proof.
  intros Hk Hr Hne Hc r. subst r.
  assert (Hrun : status (process rt config choices) = Running
                 ∧ out (process rt config choices)
                   = console (loop_state rt config (matching rt config files)
                                choices)).
  { rewrite (process_loop rt config choices files Hk Hr Hne).
    apply after_loop_running.
    by apply nonpositive_concurrency_never_done. }
  destruct Hrun as [Hst Hout].
  split; [done|]. split; [rewrite Hout; apply loop_writes_nothing|].
  split; [rewrite Hout; apply loop_prints_no_closing_line|].
  intros Hnew. unfold main. by rewrite Hnew, Hst.
Qed.

(** Seven images with [CONCURRENCY=-3], after 60 steps. *)
Lemma nonpositive_concurrency_never_ends_witness :
  let rt := Demo.runtime (Normal Demo.seven) (λ _, 0%nat) in
  let config := CONFIG (Demo.env "-3") in
  let r := process rt config (repeat 0%nat 60) in
  concurrency config = -3
  ∧ status r = Running
  ∧ written (out r) = []
  ∧ exitCode (main rt config (repeat 0%nat 60)) = None.
Proof.
  intros rt config r.
  destruct (nonpositive_concurrency_never_ends rt config Demo.seven
              (repeat 0%nat 60)) as (H1 & H2 & _ & H3).
  - vm_compute. reflexivity.
  - reflexivity.
  - vm_compute. discriminate.
  - vm_compute. discriminate.
  - split; [vm_compute; reflexivity|]. split; [exact H1|]. split; [exact H2|].
    apply H3. vm_compute. reflexivity.
Defined.

Section SummaryFacts.

(** Numbers add up as numbers. *)
Lemma add_or_0_number (a : Z) (r : Outcome) (z : Z) :
  tokens r = Some z →
  add_or_0 (TotalNumber a) (usage_total r) = TotalNumber (a + z).
Proof.
  unfold tokens, add_or_0.
  destruct (usage_total r) as [[|[|]|n|[|c t]|items|members]|];
    simpl; intros [= <-]; try (f_equal; lia).
  destruct (Z.eqb_spec n 0) as [->|Hn]; simpl; f_equal; lia.
Qed.

Lemma fold_left_tokens (rs : list Outcome) :
  Forall (λ r, tokens r ≠ None) rs →
  ∀ a, fold_left (λ sum r, add_or_0 sum (usage_total r)) rs (TotalNumber a)
       = TotalNumber (a + tokens_of rs).
Proof.
  induction 1 as [|r rs Hr Hrs IH]; intros a; [simpl; f_equal; lia|].
  change (tokens_of (r :: rs)) with (default 0 (tokens r) + tokens_of rs).
  destruct (tokens r) as [z|] eqn:Hz; [|done].
  cbn [fold_left]. rewrite (add_or_0_number a r z Hz), IH.
  simpl. f_equal. lia.
Qed.

End SummaryFacts.

(** X9.  A run over at least one image that returns ends its record with
    the file written, the line that names it and the summary: the total of
    the summary is the number of successes plus the number of failures,
    which are the lengths of [results] and [errors]; the line with the
    tokens is printed when there is a success, and gives the total of
    [usage.total_tokens] over the successes: their sum where they are
    numbers, 0 for a success without usage or with a count that is
    falsy. *)
Theorem the_summary_adds_up
  (rt : Runtime) (config : Config) (choices : list nat) :
  let r := process rt config choices in
  status r = Returned → loop r ≠ None →
  ∃ before total successful failed,
    out r
    = before
      ++ [EvWriteFile (outputFile config)
            (stringify (output rt config (final r)));
          LogSaved (outputFile config);
          LogSummary total successful failed]
      ++ (if decide (successful = 0%nat) then []
          else [LogTokens (totalTokens (results (final r)))])
    ∧ total = (successful + failed)%nat
    ∧ total = totalCount (final r)
    ∧ successful = length (results (final r))
    ∧ failed = length (errors (final r))
    ∧ (Forall (λ r, tokens r ≠ None) (results (final r)) →
       totalTokens (results (final r))
       = TotalNumber (tokens_of (results (final r)))).
Proof.
  intros r Hst Hloop. subst r.
  destruct (process_before_loop rt config) as [Hstop|(imageFiles & Hne & Hl)].
  { by destruct (Hstop choices) as (Hnone & _). }
  rewrite Hl in *.
  set (s := loop_state rt config imageFiles choices) in *.
  destruct (after_loop_run rt config s) as (Hfin & _ & _ & _ & Hret & _).
  destruct (proj1 Hret Hst) as [Hd Hw].
  pose proof (loop_state_reachable rt config imageFiles choices) as Hr.
  fold s in Hr.
  destruct (reachable_counted rt config _ _ _ Hr) as [Hcount Htotal].
  destruct (reachable_processed_le rt config _ _ _ Hr) as [_ Hall].
  specialize (Hall Hd).
  rewrite Hfin.
  exists (console s), (totalCount (this s)), (length (results (this s))),
    (length (errors (this s))).
  split; [|repeat split; try lia; intros Hn; by apply fold_left_tokens].
  unfold after_loop. rewrite Hd.
  unfold saveResults, printSummary, mbind, M_bind, bind, lift, emit, mret,
    M_ret, ret.
  rewrite Hw. simpl.
  destruct (results (this s)) as [|o rs] eqn:Hres.
  - reflexivity.
  - cbn [length]. destruct (decide (S (length rs) = 0%nat)); [done|].
    reflexivity.
Qed.

(** Two images, one answered with 1255 tokens and one that fails. *)
Lemma the_summary_adds_up_witness :
  let rt := Demo.runtime (Normal Demo.two) Demo.b_fails in
  let config := CONFIG (Demo.env "3") in
  let r := process rt config (repeat 0%nat 20) in
  ∃ before,
    out r
    = before
      ++ [EvWriteFile (js "./results.json") (stringify (output rt config (final r)));
          LogSaved (js "./results.json");
          LogSummary 2 1 1; LogTokens (TotalNumber 1255)].
Proof.
  intros rt config r.
  destruct (the_summary_adds_up rt config (repeat 0%nat 20))
    as (before & total & ok & failed & Hout & H1 & H2 & H3 & H4 & H5).
  - vm_compute. reflexivity.
  - vm_compute. discriminate.
  - exists before. fold r in Hout, H5. rewrite Hout.
    assert (ok = 1%nat) as -> by (rewrite H3; vm_compute; reflexivity).
    assert (failed = 1%nat) as -> by (rewrite H4; vm_compute; reflexivity).
    rewrite H1, H5; [reflexivity|].
    vm_compute. repeat constructor; discriminate.
Defined.

(** X10.  When the output file cannot be written, the run over the images
    is lost: [main] prints the fatal error and exits with code 1 although
    every image was processed, no file is written, and neither the line
    that names the file nor the summary is printed. *)
Theorem results_are_lost_when_the_file_is_not_written
  (rt : Runtime) (config : Config) (choices : list nat) (message : jsstring) :
  new_OpenAI rt (apiKey config) = Normal () →
  let r := process rt config choices in
  status r = Thrown message → loop r ≠ None →
  let e := main rt config choices in
  exitCode e = Some 1
  ∧ last (stdout e) = Some (LogFatal message)
  ∧ written (stdout e) = []
  ∧ closing_lines (stdout e) = []
  ∧ writeFile rt (outputFile config) (stringify (output rt config (final r)))
    = Throw message
  ∧ processedCount (final r) = totalCount (final r)
  ∧ (length (results (final r)) + length (errors (final r)))%nat
    = totalCount (final r).
Proof.
  intros Hnew r Hst Hloop e. subst r e.
  unfold main. rewrite Hnew, Hst. simpl.
  split; [done|]. split; [by rewrite last_snoc|].
  destruct (process_before_loop rt config) as [Hstop|(imageFiles & Hne & Hl)].
  { by destruct (Hstop choices) as (Hnone & _). }
  rewrite Hl in *.
  set (s := loop_state rt config imageFiles choices) in *.
  destruct (after_loop_run rt config s) as (Hfin & _ & _ & _ & _ & Hthr).
  destruct (proj1 (Hthr message) Hst) as [Hd Hw].
  pose proof (loop_state_reachable rt config imageFiles choices) as Hr.
  fold s in Hr.
  destruct (reachable_counted rt config _ _ _ Hr) as [Hcount Htotal].
  destruct (reachable_processed_le rt config _ _ _ Hr) as [_ Hall].
  specialize (Hall Hd). rewrite Hfin.
  assert (Hout : out (after_loop rt config s) = console s).
  { unfold after_loop. rewrite Hd.
    unfold saveResults, mbind, M_bind, bind, lift. rewrite Hw. simpl.
    by rewrite app_nil_r. }
  rewrite Hout.
  split.
  { rewrite written_app. simpl. rewrite app_nil_r.
    apply loop_writes_nothing. }
  split.
  { unfold closing_lines. rewrite omap_app. simpl. rewrite app_nil_r.
    apply loop_prints_no_closing_line. }
  split; [done|]. split; lia.
Qed.

(** Two images and an output file that cannot be written. *)
Lemma results_are_lost_when_the_file_is_not_written_witness :
  let rt := Samples.read_only Demo.two Demo.b_fails in
  let config := CONFIG (Demo.env "3") in
  let e := main rt config (repeat 0%nat 20) in
  exitCode e = Some 1
  ∧ written (stdout e) = []
  ∧ processedCount (final (process rt config (repeat 0%nat 20))) = 2%nat.
Proof.
  intros rt config e.
  destruct (results_are_lost_when_the_file_is_not_written rt config
              (repeat 0%nat 20)
              (js "EACCES: permission denied, open './results.json'"))
    as (H1 & _ & H2 & _ & _ & H3 & _).
  - reflexivity.
  - vm_compute. reflexivity.
  - vm_compute. discriminate.
  - split; [exact H1|]. split; [exact H2|]. rewrite H3. vm_compute. reflexivity.
Defined.

Section BatchCountFacts.

Lemma length_concat_uniform {A} (size : nat) (ws : list (list A)) :
  Forall (λ b, length b = size) ws →
  length (concat ws) = (length ws * size)%nat.
Proof.
  induction 1 as [|w ws Hw _ IH]; [done|].
  simpl. rewrite length_app, IH, Hw. lia.
Qed.

End BatchCountFacts.

(** X11.  With the API key set, [n ≥ 1] image files and a concurrency
    [c ≥ 1], a run that has ended has handed [⌈n / c⌉] batches to
    [processBatch] and has waited [batchDelay] after each but the last:
    [(n - 1) div c] waits. *)
Theorem number_of_batches_and_waits
  (rt : Runtime) (config : Config) (files : list jsstring) (choices : list nat) :
  truthy_str (apiKey config) = true →
  readdir rt (imagesDir config) = Normal files →
  matching rt config files ≠ [] →
  0 < concurrency config →
  let n := Z.of_nat (length (matching rt config files)) in
  let r := process rt config choices in
  status r ≠ Running →
  Z.of_nat (length (dispatches (out r))) = (n - 1) / concurrency config + 1
  ∧ batch_waits (out r)
    = repeat (batchDelay config) (Z.to_nat ((n - 1) / concurrency config)).
Proof.
  intros Hk Hr Hne Hc n r Hst. subst r.
  rewrite (process_loop rt config choices files Hk Hr Hne) in *.
  set (imageFiles := matching rt config files) in *.
  set (s := loop_state rt config imageFiles choices) in *.
  assert (Hreach : rtc (sched_step rt config imageFiles)
                     (loop_entry (with_total new_processor (length imageFiles))
                        [LogFound (length imageFiles)]) s)
    by apply loop_state_reachable.
  destruct (after_loop_run rt config s) as (_ & _ & Hsk & Hrun & _ & _).
  assert (Hrun' : windowed_run (batchDelay config) (Z.to_nat (concurrency config))
                    imageFiles (skeleton (console s))).
  { pose proof (reachable_windows_inv rt config imageFiles
                  [LogFound (length imageFiles)] s Hc Hne eq_refl Hreach) as Hw.
    unfold windows_inv in Hw.
    destruct (phase s) eqn:Hph.
    - exfalso. apply Hst, Hrun. auto.
    - exfalso. apply Hst, Hrun. auto.
    - exact Hw. }
  destruct (windowed_run_dispatches _ _ _ _ Hrun')
    as (ws & w & H1 & H2 & H3 & H4 & H5).
  unfold dispatches, batch_waits. rewrite Hsk, H1, H2.
  assert (Hcount : (n - 1) / concurrency config = Z.of_nat (length ws)).
  { symmetry.
    apply (Z.div_unique_pos _ _ _ (Z.of_nat (length w) - 1)); [lia|].
    assert (Hn : length imageFiles
                 = (length ws * Z.to_nat (concurrency config) + length w)%nat).
    { rewrite <- H3 at 1.
      rewrite concat_app, length_app, (length_concat_uniform _ _ H4).
      simpl. rewrite app_nil_r. done. }
    subst n. nia. }
  rewrite Hcount, length_app, Nat2Z.id. simpl. split; [lia|done].
Qed.

(** Seven images with [CONCURRENCY=3]: three batches and two waits. *)
Lemma number_of_batches_and_waits_witness :
  let rt := Demo.runtime (Normal Demo.seven) (λ _, 0%nat) in
  let config := CONFIG (Demo.env "3") in
  let r := process rt config (repeat 0%nat 30) in
  Z.of_nat (length (dispatches (out r))) = 3
  ∧ batch_waits (out r) = [100; 100].
Proof.
  intros rt config r.
  refine (number_of_batches_and_waits rt config Demo.seven (repeat 0%nat 30)
            _ _ _ _ _).
  - vm_compute. reflexivity.
  - reflexivity.
  - vm_compute. discriminate.
  - vm_compute. reflexivity.
  - vm_compute. discriminate.
Defined.

(** X12.  The exit code does not tell whether images failed.  With the
    client constructed, the API key set, at least one image file, a
    positive concurrency and an output file that can be written, [main]
    exits with code 0 once the loop is done, whatever the attempts on the
    images did, even if every one failed; it has written one file, the
    artifact, in which every image is counted as a success or as an
    error. *)
Theorem exit_code_ignores_failed_images
  (rt : Runtime) (config : Config) (files : list jsstring) (choices : list nat) :
  new_OpenAI rt (apiKey config) = Normal () →
  truthy_str (apiKey config) = true →
  readdir rt (imagesDir config) = Normal files →
  matching rt config files ≠ [] →
  0 < concurrency config →
  (∀ text, writeFile rt (outputFile config) text = Normal ()) →
  ((3 * maxRetries config + 5) * length (matching rt config files) + 1
   ≤ length choices)%nat →
  let e := main rt config choices in
  ∃ st,
    processor e = Some st
    ∧ exitCode e = Some 0
    ∧ written (stdout e) = [(outputFile config, stringify (output rt config st))]
    ∧ (length (results st) + length (errors st))%nat
      = length (matching rt config files)
    ∧ totalCount st = length (matching rt config files).
Proof.
  intros Hnew Hk Hr Hne Hc Hwrite Hlen e. subst e.
  unfold main. rewrite Hnew.
  rewrite (process_loop rt config choices files Hk Hr Hne) in *.
  set (imageFiles := matching rt config files) in *.
  set (s := loop_state rt config imageFiles choices) in *.
  assert (Hreach : rtc (sched_step rt config imageFiles)
                     (loop_entry (with_total new_processor (length imageFiles))
                        [LogFound (length imageFiles)]) s)
    by apply loop_state_reachable.
  assert (Hd : phase s = LoopDone).
  { apply exec_terminates; [done|apply entry_progress_pos|].
    rewrite entry_steps_left. lia. }
  destruct (after_loop_run rt config s) as (Hfin & _ & _ & _ & Hret & _).
  assert (Hst : status (after_loop rt config s) = Returned)
    by (apply Hret; auto).
  rewrite Hst. cbn [processor exitCode stdout].
  destruct (reachable_counted rt config _ _ _ Hreach) as [Hcount Htotal].
  destruct (reachable_processed_le rt config _ _ _ Hreach) as [_ Hall].
  specialize (Hall Hd).
  exists (this s). rewrite Hfin in *.
  split; [done|]. split; [done|].
  split.
  { destruct (save_and_summary rt config (this s))
      as [(m & Hthrow & _)|(_ & lines & Heq & _ & Hlines)].
    { by rewrite Hwrite in Hthrow. }
    unfold after_loop. rewrite Hd, Heq. cbn [out].
    rewrite written_app.
    change (written (EvWriteFile ?f ?t :: ?l)) with ((f, t) :: written l).
    rewrite Hlines. unfold s. by rewrite loop_writes_nothing. }
  split; lia.
Qed.

(** Two images, the second failing every attempt: exit code 0. *)
Lemma exit_code_ignores_failed_images_witness :
  let rt := Demo.runtime (Normal Demo.two) Demo.b_fails in
  let config := CONFIG (Demo.env "3") in
  let e := main rt config (repeat 0%nat 29) in
  (∃ st, processor e = Some st ∧ exitCode e = Some 0)
  ∧ length (errors (final (process rt config (repeat 0%nat 29)))) = 1%nat.
Proof.
  intros rt config e. split; [|vm_compute; reflexivity].
  destruct (exit_code_ignores_failed_images rt config Demo.two (repeat 0%nat 29))
    as (st & H1 & H2 & _).
  - reflexivity.
  - vm_compute. reflexivity.
  - reflexivity.
  - vm_compute. discriminate.
  - vm_compute. reflexivity.
  - reflexivity.
  - vm_compute. lia.
  - exists st. split; [exact H1|exact H2].
Defined.

(** * [extract-descriptions.js] *)

(** ** The string methods *)

Section ExtractorStringFacts.

Import Extractor.

Lemma startsWith_spec (prefix s : jsstring) :
  startsWith prefix s = true ↔ ∃ post, s = prefix ++ post.
Proof.
  revert s. induction prefix as [|p prefix IH]; intros s; simpl.
  - split; [intros _; by exists s|done].
  - destruct s as [|c s].
    + split; [done|]. intros [post H]. discriminate.
    + rewrite andb_true_iff, N.eqb_eq, IH. split.
      * intros [-> [post ->]]. by exists post.
      * intros [post [= -> ->]]. split; [done|]. by exists post.
Qed.

Lemma endsWith_spec (suffix s : jsstring) :
  endsWith suffix s = true ↔ ∃ pre, s = pre ++ suffix.
Proof.
  unfold endsWith. rewrite startsWith_spec. split.
  - intros [post H]. exists (rev post).
    apply (f_equal (@rev N)) in H. by rewrite rev_involutive, rev_app_distr,
      rev_involutive in H.
  - intros [pre ->]. exists (rev pre). by rewrite rev_app_distr.
Qed.

Lemma includes_spec (sub s : jsstring) :
  includes sub s = true ↔ ∃ pre post, s = pre ++ sub ++ post.
Proof.
  induction s as [|c s IH]; simpl.
  - rewrite orb_false_r, startsWith_spec. split.
    + intros [post H]. by exists [], post.
    + intros (pre & post & H). destruct pre; [by exists post|discriminate].
  - rewrite orb_true_iff, startsWith_spec, IH. split.
    + intros [[post H]|(pre & post & H)].
      * by exists [], post.
      * exists (c :: pre), post. by rewrite H.
    + intros (pre & post & H). destruct pre as [|d pre].
      * left. by exists post.
      * right. injection H as -> H. by exists pre, post.
Qed.

(** The files the script reads: the names that end in [.json] and do not
    contain [summary], in the order of the listing. *)
Lemma jsonFiles_spec (files : list jsstring) (file : jsstring) :
  file ∈ jsonFiles files ↔
  file ∈ files
  ∧ (∃ name, file = name ++ js ".json")
  ∧ ¬ (∃ pre post, file = pre ++ js "summary" ++ post).
Proof.
  unfold jsonFiles.
  rewrite list_elem_of_In, filter_In, andb_true_iff, negb_true_iff,
    <- list_elem_of_In, endsWith_spec, <- includes_spec.
  split.
  - intros (H1 & H2 & H3). rewrite H3. auto.
  - intros (H1 & H2 & H3). split; [done|]. split; [done|].
    by destruct (includes (js "summary") file).
Qed.

End ExtractorStringFacts.

(** ** The tally *)

Section ExtractorFacts.

Import Extractor.

Variable h : Host.

Lemma truthy_defined (v : option json) : truthy v = true → ∃ d, v = Some d.
Proof. destruct v as [d|]; [eauto|discriminate]. Qed.

(** One element of [data.results]: it is counted, and kept if it has a
    truthy [success] and a truthy [description]. *)
Lemma extract_result_ok (result : json) (t : Tally) :
  tally_ok t →
  tally_ok (extract_result h result t).1
  ∧ totalImages (extract_result h result t).1 = S (totalImages t)
  ∧ failedImages (extract_result h result t).1 = failedImages t.
Proof.
  intros (H1 & H2 & H3). unfold extract_result, tally_ok.
  assert (Hskip : ∀ c : Completion unit,
    let t' := ({| allDescriptions := allDescriptions t;
                  totalImages := S (totalImages t);
                  successfulDescriptions := successfulDescriptions t;
                  failedImages := failedImages t |}, c).1 in
    (successfulDescriptions t' = length (allDescriptions t')
     ∧ (successfulDescriptions t' + failedImages t' ≤ totalImages t')%nat
     ∧ Forall (λ item, ∃ d, item_description item = Some d) (allDescriptions t'))
    ∧ totalImages t' = S (totalImages t) ∧ failedImages t' = failedImages t).
  { intros c. simpl. repeat split; [done|lia|done]. }
  destruct (truthy (get "success" result) && truthy (get "description" result))
    eqn:Hkeep.
  - apply andb_prop in Hkeep as [_ Hd]. apply truthy_defined in Hd as [d Hd].
    destruct result; try apply Hskip; simpl;
      (split; [|done]);
      (split; [rewrite length_app; simpl; lia|]);
      (split; [lia|]);
      (apply Forall_app; split; [done|]);
      apply Forall_singleton; simpl; eauto.
  - destruct result; apply Hskip.
Qed.

Lemma extract_results_ok (results : list json) :
  ∀ t, tally_ok t →
  tally_ok (extract_results h results t).1
  ∧ (totalImages t ≤ totalImages (extract_results h results t).1
     ≤ totalImages t + length results)%nat
  ∧ failedImages (extract_results h results t).1 = failedImages t.
Proof.
  induction results as [|r rs IH]; intros t Ht; simpl.
  - split; [done|]. split; lia.
  - destruct (extract_result_ok r t Ht) as (Hok & Htot & Hfail).
    destruct (extract_result h r t) as [t' [[]|m]]; simpl in *.
    + destruct (IH t' Hok) as (Hok' & Htot' & Hfail').
      split; [done|]. split; lia.
    + split; [done|]. split; lia.
Qed.

Lemma extract_data_body (data : json) (t : Tally) :
  data ≠ JNull →
  extract_data h data t
  = let '(t1, c) :=
      if truthy (get "results" data) && isArray (get "results" data)
      then extract_results h (elements (get "results" data)) t
      else (t, Normal tt) in
    match c with
    | Throw message => (t1, Throw message)
    | Normal _ =>
        if truthy (get "errors" data) && isArray (get "errors" data) then
          ({| allDescriptions := allDescriptions t1;
              totalImages := totalImages t1 + length (elements (get "errors" data));
              successfulDescriptions := successfulDescriptions t1;
              failedImages :=
                failedImages t1 + length (elements (get "errors" data)) |},
           Normal tt)
        else (t1, Normal tt)
    end.
Proof. intros Hnull. by destruct data. Qed.

Lemma extract_data_ok (data : json) (t : Tally) :
  tally_ok t → tally_ok (extract_data h data t).1.
Proof.
  intros Ht.
  assert (data = JNull ∨ data ≠ JNull) as [->|Hnull]
    by (destruct data; auto; right; discriminate); [done|].
  rewrite (extract_data_body _ _ Hnull).
  assert (Hres : tally_ok
            (if truthy (get "results" data) && isArray (get "results" data)
             then extract_results h (elements (get "results" data)) t
             else (t, Normal tt)).1).
  { destruct (_ && _); [|done]. by apply extract_results_ok. }
  destruct (if truthy (get "results" data) && isArray (get "results" data)
            then _ else _) as [t1 [[]|m]]; simpl in *; [|done].
  destruct (_ && _); simpl; [|done].
  destruct Hres as (H1 & H2 & H3). unfold tally_ok. simpl.
  split; [done|]. split; [lia|done].
Qed.

(** What the loop over [jsonFiles] prints: each file is read once, in
    order, and a file that fails gets one error line. *)
Lemma extract_file_lines (file : jsstring) (t : Tally) :
  tally_ok t →
  tally_ok (extract_file h file t).1
  ∧ ((extract_file h file t).2 = [ReadFile (join h RESULTS_DIR file)]
     ∨ ∃ message,
         (extract_file h file t).2
         = [ReadFile (join h RESULTS_DIR file); LogFileError file message]).
Proof.
  intros Ht. unfold extract_file.
  destruct (readFile h _) as [content|m]; [|eauto].
  destruct (JSON_parse h content) as [data|m]; [|eauto].
  pose proof (extract_data_ok data t Ht) as Hok.
  destruct (extract_data h data t) as [t' [[]|m]]; eauto.
Qed.

Lemma extract_files_lines (files : list jsstring) :
  ∀ t, tally_ok t →
  tally_ok (extract_files h files t).1
  ∧ reads (extract_files h files t).2 = map (join h RESULTS_DIR) files
  ∧ writes (extract_files h files t).2 = []
  ∧ file_errors (extract_files h files t).2 `sublist_of` files
  ∧ Forall (λ l, ∀ m, l ≠ LogFatal m) (extract_files h files t).2.
Proof.
  induction files as [|file files IH]; intros t Ht; simpl.
  - split; [done|]. split; [done|]. split; [done|].
    split; constructor.
  - destruct (extract_file_lines file t Ht) as [Hok Hlines].
    destruct (extract_file h file t) as [t' lines]. simpl in *.
    destruct (IH t' Hok) as (Hok' & Hr & Hw & He & Hf).
    destruct (extract_files h files t') as [t'' lines']. simpl in *.
    unfold reads, writes, file_errors in *. rewrite !omap_app.
    destruct Hlines as [-> | [m ->]]; simpl.
    + split; [done|]. split; [by f_equal|]. split; [done|].
      split; [by apply sublist_cons|]. by constructor.
    + split; [done|]. split; [by f_equal|]. split; [done|].
      split; [by apply sublist_skip|]. by repeat constructor.
Qed.

Lemma empty_tally_ok : tally_ok empty_tally.
Proof. unfold tally_ok. simpl. repeat split; [lia|constructor]. Qed.

(** The courses of [extractDescriptions]. *)
Lemma extractDescriptions_cases :
  (∃ m, readdir h RESULTS_DIR = Throw m
        ∧ extractDescriptions h = fatal [LogStart] m)
  ∨ (∃ files, readdir h RESULTS_DIR = Normal files ∧ jsonFiles files = []
              ∧ extractDescriptions h
                = {| stdout := [LogStart; LogNoFiles]; exitCode := 0 |})
  ∨ (∃ files t lines,
       readdir h RESULTS_DIR = Normal files ∧ jsonFiles files ≠ []
       ∧ extract_files h (jsonFiles files) empty_tally = (t, lines)
       ∧ let found := length (jsonFiles files) in
         let printed := [LogStart; LogFound found; LogReadingFrom RESULTS_DIR]
                        ++ lines in
         let text := stringify (output h found t) in
         let text' := stringify (detailedOutput h found t) in
         (∃ m, writeFile h OUTPUT_FILE text = Throw m
               ∧ extractDescriptions h = fatal printed m)
         ∨ (∃ m, writeFile h OUTPUT_FILE text = Normal ()
                 ∧ writeFile h detailedOutputFile text' = Throw m
                 ∧ extractDescriptions h
                   = fatal (printed ++ [WriteFile OUTPUT_FILE text]) m)
         ∨ (writeFile h OUTPUT_FILE text = Normal ()
            ∧ writeFile h detailedOutputFile text' = Normal ()
            ∧ extractDescriptions h
              = {| stdout :=
                     printed
                     ++ [WriteFile OUTPUT_FILE text;
                         WriteFile detailedOutputFile text';
                         LogSummary found (totalImages t)
                           (successfulDescriptions t) (failedImages t);
                         LogSavedTo OUTPUT_FILE detailedOutputFile;
                         LogComplete];
                   exitCode := 0 |})).
Proof.
  unfold extractDescriptions.
  destruct (readdir h RESULTS_DIR) as [files|m]; [|left; eauto].
  right. destruct (jsonFiles files) as [|f fs] eqn:Hfound.
  - left. exists files. auto.
  - right. rewrite <- Hfound.
    assert (Hne : jsonFiles files ≠ []) by (by rewrite Hfound).
    assert ((length (jsonFiles files) =? 0)%nat = false) as ->.
    { rewrite Hfound. done. }
    destruct (extract_files h (jsonFiles files) empty_tally) as [t lines] eqn:He.
    exists files, t, lines. split; [done|]. split; [done|]. split; [done|].
    cbv zeta.
    destruct (writeFile h OUTPUT_FILE _) as [[]|m]; [|left; eauto].
    right.
    destruct (writeFile h detailedOutputFile _) as [[]|m]; [right|left; eauto].
    auto.
Qed.

End ExtractorFacts.

(** ** What the extraction reads and writes *)

Section ExtractorProperties.

Import Extractor.

Lemma writes_app lines lines' : writes (lines ++ lines') = writes lines ++ writes lines'.
Proof. apply omap_app. Qed.

Lemma reads_app lines lines' : reads (lines ++ lines') = reads lines ++ reads lines'.
Proof. apply omap_app. Qed.

Lemma file_errors_app lines lines' :
  file_errors (lines ++ lines') = file_errors lines ++ file_errors lines'.
Proof. apply omap_app. Qed.

(** What an extraction has read and written, by the way it ended. *)
Lemma extractDescriptions_record (h : Host) :
  let e := extractDescriptions h in
  (∃ m, readdir h RESULTS_DIR = Throw m
        ∧ exitCode e = 1 ∧ stdout e = [LogStart; LogFatal m]
        ∧ reads (stdout e) = [] ∧ writes (stdout e) = []
        ∧ file_errors (stdout e) = [])
  ∨ (∃ files, readdir h RESULTS_DIR = Normal files ∧ jsonFiles files = []
              ∧ exitCode e = 0 ∧ stdout e = [LogStart; LogNoFiles]
              ∧ reads (stdout e) = [] ∧ writes (stdout e) = []
              ∧ file_errors (stdout e) = [])
  ∨ (∃ files t,
       readdir h RESULTS_DIR = Normal files ∧ jsonFiles files ≠ []
       ∧ tally_ok t
       ∧ t = (extract_files h (jsonFiles files) empty_tally).1
       ∧ reads (stdout e) = map (join h RESULTS_DIR) (jsonFiles files)
       ∧ file_errors (stdout e) `sublist_of` jsonFiles files
       ∧ let found := length (jsonFiles files) in
         let text := stringify (output h found t) in
         let text' := stringify (detailedOutput h found t) in
         (∃ m, writeFile h OUTPUT_FILE text = Throw m
               ∧ exitCode e = 1 ∧ last (stdout e) = Some (LogFatal m)
               ∧ writes (stdout e) = [])
         ∨ (∃ m, writeFile h OUTPUT_FILE text = Normal ()
                 ∧ writeFile h detailedOutputFile text' = Throw m
                 ∧ exitCode e = 1 ∧ last (stdout e) = Some (LogFatal m)
                 ∧ writes (stdout e) = [(OUTPUT_FILE, text)])
         ∨ (writeFile h OUTPUT_FILE text = Normal ()
            ∧ writeFile h detailedOutputFile text' = Normal ()
            ∧ exitCode e = 0
            ∧ (∀ m, LogFatal m ∉ stdout e)
            ∧ LogSummary found (totalImages t) (successfulDescriptions t)
                (failedImages t) ∈ stdout e
            ∧ writes (stdout e)
              = [(OUTPUT_FILE, text); (detailedOutputFile, text')])).
Proof.
  intros e. subst e.
  destruct (extractDescriptions_cases h)
    as [(m & Hr & ->)|[(files & Hr & Hf & ->)|(files & t & lines & Hr & Hf & He & Hw)]].
  - left. exists m. by repeat split.
  - right. left. exists files. by repeat split.
  - right. right. exists files, t.
    destruct (extract_files_lines h (jsonFiles files) empty_tally (empty_tally_ok))
      as (Hok & Hreads & Hwrites & Herrors & Hfatal).
    rewrite He in Hok, Hreads, Hwrites, Herrors, Hfatal.
    simpl in Hok, Hreads, Hwrites, Herrors, Hfatal.
    split; [done|]. split; [done|]. split; [done|].
    split; [by rewrite He|].
    cbv zeta in Hw.
    set (printed := [LogStart; LogFound (length (jsonFiles files));
                     LogReadingFrom RESULTS_DIR] ++ lines) in *.
    assert (Hpr : reads printed = map (join h RESULTS_DIR) (jsonFiles files)
                  ∧ writes printed = []
                  ∧ file_errors printed = file_errors lines).
    { unfold printed. simpl app.
      change (reads (LogStart :: LogFound ?n :: LogReadingFrom ?d :: ?l))
        with (reads l).
      change (writes (LogStart :: LogFound ?n :: LogReadingFrom ?d :: ?l))
        with (writes l).
      change (file_errors (LogStart :: LogFound ?n :: LogReadingFrom ?d :: ?l))
        with (file_errors l).
      by rewrite Hreads, Hwrites. }
    destruct Hpr as (Hpr & Hpw & Hpe).
    assert (Hpf : ∀ m, LogFatal m ∉ printed).
    { intros m Hin. unfold printed in Hin. simpl app in Hin.
      repeat (apply elem_of_cons in Hin as [Hin|Hin]; [discriminate|]).
      rewrite Forall_forall in Hfatal. by eapply Hfatal. }
    clearbody printed.
    assert (Hra : ∀ l, reads l = [] →
              reads (printed ++ l) = map (join h RESULTS_DIR) (jsonFiles files)).
    { intros l Hl. by rewrite reads_app, Hpr, Hl, app_nil_r. }
    assert (Hea : ∀ l, file_errors l = [] →
              file_errors (printed ++ l) `sublist_of` jsonFiles files).
    { intros l Hl. by rewrite file_errors_app, Hpe, Hl, app_nil_r. }
    assert (Hwa : ∀ l, writes (printed ++ l) = writes l).
    { intros l. by rewrite writes_app, Hpw. }
    destruct Hw as [(m & Hw1 & ->)|[(m & Hw1 & Hw2 & ->)|(Hw1 & Hw2 & ->)]];
      unfold fatal; cbn [stdout exitCode].
    + split; [by apply Hra|]. split; [by apply Hea|].
      left. exists m. rewrite last_snoc, Hwa. by repeat split.
    + rewrite <- app_assoc.
      split; [by apply Hra|]. split; [by apply Hea|].
      right. left. exists m.
      rewrite app_assoc, last_snoc, <- app_assoc, Hwa. by repeat split.
    + split; [by apply Hra|]. split; [by apply Hea|].
      right. right. rewrite Hwa.
      split; [done|]. split; [done|]. split; [done|].
      split.
      { intros m Hin.
        apply elem_of_app in Hin as [Hin|Hin].
        - by eapply Hpf.
        - repeat (apply elem_of_cons in Hin as [Hin|Hin]; [discriminate|]).
          by apply elem_of_nil in Hin. }
      split; [|done].
      apply elem_of_app. right. do 2 (apply elem_of_cons; right).
      apply elem_of_cons. by left.
Qed.

Lemma get_item_description (item : Item) :
  get "description" (item_json item) = item_description item
  ∧ get "tokens" (item_json item) = Some (item_tokens item).
Proof.
  unfold item_json, object.
  destruct item as [[im|] [d|] [ts|] tok]; split; reflexivity.
Qed.

Lemma output_metadata (h : Host) (found : nat) (t : Tally) :
  get "metadata" (output h found t) = Some (metadata h found t)
  ∧ get "metadata" (detailedOutput h found t) = Some (metadata h found t)
  ∧ get "descriptions" (output h found t)
    = Some (JArray (map (λ item, default JNull (item_description item))
                      (allDescriptions t)))
  ∧ get "descriptions" (detailedOutput h found t)
    = Some (JArray (map item_json (allDescriptions t)))
  ∧ get "totalFiles" (metadata h found t) = Some (JNumber (Z.of_nat found))
  ∧ get "totalImages" (metadata h found t)
    = Some (JNumber (Z.of_nat (totalImages t)))
  ∧ get "successfulDescriptions" (metadata h found t)
    = Some (JNumber (Z.of_nat (successfulDescriptions t)))
  ∧ get "failedImages" (metadata h found t)
    = Some (JNumber (Z.of_nat (failedImages t))).
Proof. repeat split. Qed.

End ExtractorProperties.

Section ExtractorTheorems.

Import Extractor.

(** X13.  Every document the extraction writes is well formed and, read
    back, consistent in its counts: [totalFiles] is the number of result
    files found, the list of descriptions has [successfulDescriptions]
    elements, and the descriptions and the failed images together are not
    more than [totalImages], whatever the result files hold. *)
Theorem written_counts_are_consistent (h : Host) (file text : jsstring) :
  (file, text) ∈ writes (stdout (extractDescriptions h)) →
  well_formed text = true
  ∧ ∃ doc files images kept failed descriptions,
      parse text = Some doc
      ∧ readdir h RESULTS_DIR = Normal files
      ∧ get "metadata" doc ≫= get "totalFiles"
        = Some (JNumber (Z.of_nat (length (jsonFiles files))))
      ∧ get "metadata" doc ≫= get "totalImages"
        = Some (JNumber (Z.of_nat images))
      ∧ get "metadata" doc ≫= get "successfulDescriptions"
        = Some (JNumber (Z.of_nat kept))
      ∧ get "metadata" doc ≫= get "failedImages"
        = Some (JNumber (Z.of_nat failed))
      ∧ get "descriptions" doc = Some (JArray descriptions)
      ∧ length descriptions = kept
      ∧ (kept + failed ≤ images)%nat.
Proof.
  intros Hin.
  destruct (extractDescriptions_record h)
    as [(m & _ & _ & _ & _ & Hw & _)
       |[(files & _ & _ & _ & _ & _ & Hw & _)
        |(files & t & Hr & Hf & (Hk & Hle & _) & _ & _ & _ & Hw)]];
    try (rewrite Hw in Hin; by apply elem_of_nil in Hin).
  cbv zeta in Hw.
  assert (Hcases :
    text = stringify (output h (length (jsonFiles files)) t)
    ∨ text = stringify (detailedOutput h (length (jsonFiles files)) t)).
  { destruct Hw as [(m & _ & _ & _ & Hw)|[(m & _ & _ & _ & _ & Hw)
                                         |(_ & _ & _ & _ & _ & Hw)]];
      rewrite Hw in Hin.
    - by apply elem_of_nil in Hin.
    - apply list_elem_of_singleton in Hin. injection Hin as _ ->. by left.
    - apply elem_of_cons in Hin as [Hin|Hin].
      + injection Hin as _ ->. by left.
      + apply list_elem_of_singleton in Hin. injection Hin as _ ->. by right. }
  destruct Hcases as [-> | ->].
  - split; [apply stringify_well_formed|].
    exists (output h (length (jsonFiles files)) t), files, (totalImages t),
      (successfulDescriptions t), (failedImages t),
      (map (λ item, default JNull (item_description item)) (allDescriptions t)).
    split; [apply parse_stringify|]. split; [done|].
    rewrite length_map. repeat split; done.
  - split; [apply stringify_well_formed|].
    exists (detailedOutput h (length (jsonFiles files)) t), files,
      (totalImages t), (successfulDescriptions t), (failedImages t),
      (map item_json (allDescriptions t)).
    split; [apply parse_stringify|]. split; [done|].
    rewrite length_map. repeat split; done.
Qed.

(** X14.  Neither a result file that cannot be read nor one that is not
    JSON stops the extraction: with the directory listed and the output
    files writable the script exits with code 0 and prints no fatal
    error; if it found result files it has written the two documents and
    printed the summary, and its error lines are for files it found, one
    for a file at most. *)
Theorem unreadable_files_do_not_stop_the_extraction
  (h : Host) (files : list jsstring) :
  readdir h RESULTS_DIR = Normal files →
  (∀ file text, writeFile h file text = Normal ()) →
  let e := extractDescriptions h in
  exitCode e = 0
  ∧ (∀ m, LogFatal m ∉ stdout e)
  ∧ file_errors (stdout e) `sublist_of` jsonFiles files
  ∧ (jsonFiles files = [] → stdout e = [LogStart; LogNoFiles])
  ∧ (jsonFiles files ≠ [] →
     map fst (writes (stdout e)) = [OUTPUT_FILE; detailedOutputFile]
     ∧ ∃ images kept failed,
         LogSummary (length (jsonFiles files)) images kept failed ∈ stdout e).
Proof.
  intros Hr Hwrite e. subst e.
  destruct (extractDescriptions_record h)
    as [(m & Hr' & _)
       |[(files' & Hr' & Hf & Hexit & Hout & _ & _ & He)
        |(files' & t & Hr' & Hf & _ & _ & _ & He & Hw)]];
    rewrite Hr in Hr'; try discriminate; injection Hr' as <-.
  - split; [done|]. rewrite Hout.
    split.
    { intros m Hin.
      repeat (apply elem_of_cons in Hin as [Hin|Hin]; [discriminate|]).
      by apply elem_of_nil in Hin. }
    split; [rewrite Hf; constructor|]. split; [done|]. done.
  - cbv zeta in Hw.
    destruct Hw as [(m & Hw & _)|[(m & _ & Hw & _)
                                 |(_ & _ & Hexit & Hfatal & Hsum & Hw)]];
      try (rewrite Hwrite in Hw; discriminate).
    split; [done|]. split; [done|]. split; [done|]. split; [done|].
    intros _. rewrite Hw. split; [done|]. eauto.
Qed.

(** Two result files, one of them not JSON: an error line for it, and the
    extraction ends with code 0. *)
Lemma unreadable_files_do_not_stop_the_extraction_witness :
  let h := host [(js "a.json", js "{oops"); (js "b.json", js "{}")] [] in
  exitCode (extractDescriptions h) = 0
  ∧ file_errors (stdout (extractDescriptions h)) = [js "a.json"]
  ∧ map fst (writes (stdout (extractDescriptions h)))
    = [OUTPUT_FILE; detailedOutputFile].
Proof.
  intros h.
  destruct (unreadable_files_do_not_stop_the_extraction h
              [js "a.json"; js "b.json"]) as (H1 & _ & _ & _ & H2).
  - reflexivity.
  - reflexivity.
  - split; [exact H1|]. split; [vm_compute; reflexivity|].
    apply H2. vm_compute. discriminate.
Defined.

(** X15.  The files read are the names of the listing that end in [.json]
    and do not contain [summary], each once and in the order of the
    listing, whatever happens afterwards; no other file of the directory
    is read, and none when the directory cannot be listed. *)
Theorem only_result_files_are_read (h : Host) :
  reads (stdout (extractDescriptions h))
  = match readdir h RESULTS_DIR with
    | Normal files => map (join h RESULTS_DIR) (jsonFiles files)
    | Throw _ => []
    end
  ∧ ∀ files file,
      file ∈ jsonFiles files ↔
      file ∈ files
      ∧ (∃ name, file = name ++ js ".json")
      ∧ ¬ (∃ pre post, file = pre ++ js "summary" ++ post).
Proof.
  split; [|apply jsonFiles_spec].
  destruct (extractDescriptions_record h)
    as [(m & -> & _ & _ & -> & _)
       |[(files & -> & -> & _ & _ & -> & _)
        |(files & t & -> & _ & _ & _ & -> & _)]]; done.
Qed.

(** X16.  The extraction ends with exit code 1 in three cases only, each
    with the fatal error as its last line: the directory cannot be listed,
    and nothing is read or written; the simple list cannot be written,
    and nothing is written; the detailed list cannot be written, and the
    simple list is already written. *)
Theorem fatal_errors_of_the_extraction (h : Host) :
  let e := extractDescriptions h in
  exitCode e ≠ 0 →
  exitCode e = 1
  ∧ ∃ m, last (stdout e) = Some (LogFatal m)
         ∧ ((readdir h RESULTS_DIR = Throw m
             ∧ reads (stdout e) = [] ∧ writes (stdout e) = [])
            ∨ (∃ text, writeFile h OUTPUT_FILE text = Throw m
                       ∧ writes (stdout e) = [])
            ∨ (∃ text text',
                 writeFile h detailedOutputFile text' = Throw m
                 ∧ writes (stdout e) = [(OUTPUT_FILE, text)])).
Proof.
  intros e Hexit. subst e.
  destruct (extractDescriptions_record h)
    as [(m & Hr & He & Hout & Hreads & Hw & _)
       |[(files & _ & _ & He & _)
        |(files & t & _ & _ & _ & _ & _ & _ & Hw)]].
  - split; [done|]. exists m. rewrite Hout. split; [done|]. left. done.
  - by rewrite He in Hexit.
  - cbv zeta in Hw.
    destruct Hw as [(m & Hw & He & Hlast & Hwr)
                   |[(m & _ & Hw & He & Hlast & Hwr)
                    |(_ & _ & He & _)]].
    + split; [done|]. exists m. split; [done|]. right. left. eauto.
    + split; [done|]. exists m. split; [done|]. right. right. eauto.
    + by rewrite He in Hexit.
Qed.

(** The detailed list cannot be written: exit code 1, the simple list is
    there. *)
Lemma fatal_errors_of_the_extraction_witness :
  let h := host [(js "b.json", js "{}")]
             [js "./extracts/descriptions-detailed.json"] in
  exitCode (extractDescriptions h) = 1
  ∧ map fst (writes (stdout (extractDescriptions h))) = [OUTPUT_FILE].
Proof.
  intros h.
  destruct (fatal_errors_of_the_extraction h) as (H1 & _).
  - vm_compute. discriminate.
  - split; [exact H1|]. vm_compute. reflexivity.
Defined.

(** X17.  When both documents are written they agree: they are well
    formed, they carry the same [metadata], and the simple list holds, in
    order, the [description] of each entry of the detailed list; every
    entry of the detailed list has a [description] and [tokens]. *)
Theorem the_two_documents_agree
  (h : Host) (file file' text text' : jsstring) :
  writes (stdout (extractDescriptions h)) = [(file, text); (file', text')] →
  file = OUTPUT_FILE ∧ file' = detailedOutputFile
  ∧ exitCode (extractDescriptions h) = 0
  ∧ ∃ doc doc' simple detailed,
      parse text = Some doc ∧ parse text' = Some doc'
      ∧ get "metadata" doc = get "metadata" doc'
      ∧ get "descriptions" doc = Some (JArray simple)
      ∧ get "descriptions" doc' = Some (JArray detailed)
      ∧ Forall2 (λ description entry,
                   get "description" entry = Some description
                   ∧ get "tokens" entry ≠ None) simple detailed.
Proof.
  intros Hwrites.
  destruct (extractDescriptions_record h)
    as [(m & _ & _ & _ & _ & Hw & _)
       |[(files & _ & _ & _ & _ & _ & Hw & _)
        |(files & t & Hr & Hf & (_ & _ & Hdesc) & _ & _ & _ & Hw)]];
    try (rewrite Hw in Hwrites; discriminate).
  cbv zeta in Hw.
  destruct Hw as [(m & _ & _ & _ & Hw)|[(m & _ & _ & _ & _ & Hw)
                                       |(_ & _ & Hexit & _ & _ & Hw)]];
    rewrite Hw in Hwrites; try discriminate.
  injection Hwrites as <- <- <- <-.
  split; [done|]. split; [done|]. split; [done|].
  exists (output h (length (jsonFiles files)) t),
    (detailedOutput h (length (jsonFiles files)) t),
    (map (λ item, default JNull (item_description item)) (allDescriptions t)),
    (map item_json (allDescriptions t)).
  split; [apply parse_stringify|]. split; [apply parse_stringify|].
  split; [done|]. split; [done|]. split; [done|].
  induction Hdesc as [|item items [d Hd] _ IH]; simpl; constructor; [|exact IH].
  destruct (get_item_description item) as [-> ->]. rewrite Hd. done.
Qed.

(** One artifact with a result: both documents are written. *)
Lemma the_two_documents_agree_witness :
  let content :=
    stringify (JObject [(js "results",
                         JArray [JObject [(js "success", JBool true);
                                          (js "description", JString (js "A cat."))]])]) in
  let h := host [(js "run.json", content)] [] in
  ∃ text text' doc,
    writes (stdout (extractDescriptions h))
    = [(OUTPUT_FILE, text); (detailedOutputFile, text')]
    ∧ parse text = Some doc
    ∧ get "descriptions" doc = Some (JArray [JString (js "A cat.")]).
Proof.
  intros content h.
  assert (Hw : ∃ text text',
            writes (stdout (extractDescriptions h))
            = [(OUTPUT_FILE, text); (detailedOutputFile, text')])
    by (eexists _, _; vm_compute; reflexivity).
  destruct Hw as (text & text' & Hw).
  destruct (the_two_documents_agree h _ _ _ _ Hw)
    as (_ & _ & _ & doc & doc' & simple & detailed & Hp & _ & _ & Hs & _).
  exists text, text', doc. split; [exact Hw|]. split; [exact Hp|].
  assert (Ht : text = stringify
                        (output h 1 (extract_files h [js "run.json"] empty_tally).1)).
  { assert (Hw' : writes (stdout (extractDescriptions h))
                  = [(OUTPUT_FILE,
                      stringify (output h 1
                                   (extract_files h [js "run.json"] empty_tally).1));
                     (detailedOutputFile,
                      stringify (detailedOutput h 1
                                   (extract_files h [js "run.json"] empty_tally).1))])
      by (vm_compute; reflexivity).
    rewrite Hw' in Hw. by injection Hw as <- _. }
  rewrite Ht, parse_stringify in Hp. injection Hp as <-.
  vm_compute. reflexivity.
Defined.

End ExtractorTheorems.

(** ** Result files written by [index.js] *)

Section ArtifactExtraction.

Import Extractor.

Variable h : Host.

Lemma tally_eq (t t' : Tally) :
  allDescriptions t = allDescriptions t' → totalImages t = totalImages t' →
  successfulDescriptions t = successfulDescriptions t' →
  failedImages t = failedImages t' → t = t'.
Proof. destruct t, t'; simpl; by intros -> -> -> ->. Qed.

(** A result of an artifact: it is counted, and kept if it is a success
    with a description that is not falsy. *)
Lemma extract_result_outcome (o : Outcome) (t : Tally) :
  extract_result h (outcome_json o) t
  = ({| allDescriptions := allDescriptions t ++ map item_of (described [o]);
        totalImages := S (totalImages t);
        successfulDescriptions :=
          successfulDescriptions t + length (described [o]);
        failedImages := failedImages t |}, Normal tt).
Proof.
  destruct o as [im p d m u ts|im p e ts].
  - assert (Htokens : usage_total_tokens (outcome_json (Success im p d m u ts))
                      = u ≫= get "total_tokens").
    { destruct d, m, u as [u|]; try reflexivity; by destruct u. }
    assert (Hd : get "description" (outcome_json (Success im p d m u ts)) = d)
      by (by destruct d, m, u).
    assert (Hs : get "success" (outcome_json (Success im p d m u ts))
                 = Some (JBool true)) by (by destruct d, m, u).
    assert (Hi : get "image" (outcome_json (Success im p d m u ts))
                 = Some (JString im)) by (by destruct d, m, u).
    assert (Hts : get "timestamp" (outcome_json (Success im p d m u ts))
                  = Some (JString ts)) by (by destruct d, m, u).
    assert (Ho : ∃ members, outcome_json (Success im p d m u ts) = JObject members)
      by (destruct d, m, u; by eexists).
    destruct Ho as [members Ho].
    unfold extract_result. rewrite Htokens, Hd, Hs, Hi, Hts, Ho.
    unfold described, item_of. cbn [List.filter andb truthy].
    destruct (truthy d); cbn [map length]; f_equal;
      apply tally_eq; cbn [allDescriptions totalImages successfulDescriptions
                            failedImages];
      rewrite ?app_nil_r; lia || done.
  - unfold extract_result. simpl. f_equal.
    apply tally_eq; simpl; rewrite ?app_nil_r; lia || done.
Qed.

Lemma described_cons (o : Outcome) (rs : list Outcome) :
  described (o :: rs) = described [o] ++ described rs.
Proof.
  unfold described. cbn [List.filter].
  by destruct o as [? ? d ? ? ?|]; [destruct (truthy d)|].
Qed.

Lemma extract_results_outcomes (rs : list Outcome) :
  ∀ t,
  extract_results h (map outcome_json rs) t
  = ({| allDescriptions := allDescriptions t ++ map item_of (described rs);
        totalImages := totalImages t + length rs;
        successfulDescriptions := successfulDescriptions t + length (described rs);
        failedImages := failedImages t |}, Normal tt).
Proof.
  induction rs as [|o rs IH]; intros t.
  - simpl. f_equal. apply tally_eq; simpl; rewrite ?app_nil_r; lia || done.
  - change (map outcome_json (o :: rs))
      with (outcome_json o :: map outcome_json rs).
    cbn [extract_results]. rewrite extract_result_outcome, IH.
    f_equal. rewrite (described_cons o rs).
    apply tally_eq; cbn [allDescriptions totalImages successfulDescriptions
                          failedImages];
      rewrite ?map_app, ?length_app, <- ?app_assoc; simpl; lia || done.
Qed.

(** An artifact: its results and its errors are added to the tally. *)
Lemma extract_data_artifact rt config (st : RunState) (t : Tally) :
  extract_data h (artifact rt config st) t = (add_artifact st t, Normal tt).
Proof.
  rewrite extract_data_body by done.
  replace (get "results" (artifact rt config st))
    with (Some (JArray (map outcome_json (results st)))) by reflexivity.
  replace (get "errors" (artifact rt config st))
    with (Some (JArray (map outcome_json (errors st)))) by reflexivity.
  cbn [truthy isArray elements andb].
  rewrite extract_results_outcomes. cbv iota beta.
  f_equal. unfold add_artifact.
  apply tally_eq; simpl; rewrite ?length_map; lia || done.
Qed.

Lemma extract_files_artifacts (files : list jsstring)
  (runs : list (Runtime * Config * RunState)) :
  Forall2 (λ file run,
             ∃ content,
               readFile h (join h RESULTS_DIR file) = Normal content
               ∧ JSON_parse h content = Normal (artifact run.1.1 run.1.2 run.2))
    files runs →
  ∀ t,
  extract_files h files t
  = (foldl (λ t st, add_artifact st t) t (map snd runs),
     map (λ file, ReadFile (join h RESULTS_DIR file)) files).
Proof.
  induction 1 as [|file run files runs (content & Hread & Hparse) _ IH];
    intros t; [done|].
  simpl. unfold extract_file. rewrite Hread, Hparse, extract_data_artifact.
  rewrite IH. done.
Qed.

Lemma foldl_add_artifact (sts : list RunState) :
  ∀ t,
  let t' := foldl (λ t st, add_artifact st t) t sts in
  allDescriptions t'
  = allDescriptions t
    ++ concat (map (λ st, map item_of (described (results st))) sts)
  ∧ totalImages t'
    = (totalImages t
       + sum_list (map (λ st, length (results st) + length (errors st)) sts))%nat
  ∧ successfulDescriptions t'
    = (successfulDescriptions t
       + sum_list (map (λ st, length (described (results st))) sts))%nat
  ∧ failedImages t'
    = (failedImages t + sum_list (map (λ st, length (errors st)) sts))%nat.
Proof.
  induction sts as [|st sts IH]; intros t; simpl.
  - rewrite app_nil_r. repeat split; lia.
  - destruct (IH (add_artifact st t)) as (-> & -> & -> & ->).
    unfold add_artifact. simpl. rewrite <- app_assoc. repeat split; lia.
Qed.

Lemma description_of_item (r : Outcome) :
  default JNull (item_description (item_of r)) = description_json r.
Proof. by destruct r. Qed.

(** The results before a [null] are counted and may be kept. *)
Lemma extract_results_no_null (pre : list json) :
  Forall (λ r, r ≠ JNull) pre →
  ∀ t, ∃ t',
    extract_results h pre t = (t', Normal tt)
    ∧ totalImages t' = (totalImages t + length pre)%nat
    ∧ failedImages t' = failedImages t
    ∧ (successfulDescriptions t ≤ successfulDescriptions t'
       ≤ successfulDescriptions t + length pre)%nat.
Proof.
  induction 1 as [|r pre Hr _ IH]; intros t; simpl.
  - exists t. repeat split; lia.
  - assert (Hstep : ∃ t1, extract_result h r t = (t1, Normal tt)
                          ∧ totalImages t1 = S (totalImages t)
                          ∧ failedImages t1 = failedImages t
                          ∧ (successfulDescriptions t ≤ successfulDescriptions t1
                             ≤ S (successfulDescriptions t))%nat).
    { unfold extract_result. destruct r; try done;
        destruct (truthy _ && truthy _); eexists; (split; [reflexivity|]);
        simpl; repeat split; lia. }
    destruct Hstep as (t1 & -> & H1 & H2 & H3).
    destruct (IH t1) as (t' & -> & H1' & H2' & H3').
    exists t'. split; [done|]. repeat split; lia.
Qed.

Lemma extract_results_app (pre rest : list json) :
  ∀ t, extract_results h (pre ++ rest) t
       = match extract_results h pre t with
         | (t', Normal _) => extract_results h rest t'
         | (t', Throw m) => (t', Throw m)
         end.
Proof.
  induction pre as [|r pre IH]; intros t; simpl; [done|].
  destruct (extract_result h r t) as [t1 [[]|m]]; [apply IH|done].
Qed.

End ArtifactExtraction.

Section ArtifactTheorems.

Import Extractor.

(** One artifact of [index.js], two images. *)
Lemma written_counts_are_consistent_witness :
  let rt := Demo.runtime (Normal Demo.two) Demo.b_fails in
  let config := CONFIG (Demo.env "3") in
  let st := final (process rt config (repeat 0%nat 20)) in
  let h := host [(js "run.json", stringify (artifact rt config st))] [] in
  ∃ text doc,
    (OUTPUT_FILE, text) ∈ writes (stdout (extractDescriptions h))
    ∧ parse text = Some doc
    ∧ get "metadata" doc ≫= get "totalFiles" = Some (JNumber 1).
Proof.
  intros rt config st h.
  assert (Hin : (OUTPUT_FILE,
                 stringify (output h 1
                              (extract_files h [js "run.json"] empty_tally).1))
                ∈ writes (stdout (extractDescriptions h))).
  { vm_compute. apply elem_of_cons. by left. }
  destruct (written_counts_are_consistent h _ _ Hin)
    as (_ & doc & files & images & kept & failed & ds & Hp & Hr & Hf & _).
  eexists _, doc. split; [exact Hin|]. split; [exact Hp|].
  rewrite Hf. injection Hr as <-. vm_compute. reflexivity.
Defined.

Lemma read_lines_record (f : jsstring → jsstring) (l : list jsstring) :
  file_errors (map (λ file, ReadFile (f file)) l) = []
  ∧ writes (map (λ file, ReadFile (f file)) l) = [].
Proof. induction l as [|x l IH]; [done|exact IH]. Qed.

(** X18.  Result files that are artifacts of [index.js]: the extraction
    reads each, prints no error line and exits with code 0; its summary
    counts, over the artifacts, every result and every error as an image,
    every error as a failed image, and as a description every result that
    is a success with a description that is not falsy; and the simple
    list, read back, holds these descriptions in the order of the files
    and of the results.  A success whose description is missing, [null]
    or the empty string is an image that is neither described nor
    failed. *)
Theorem extraction_of_artifacts
  (h : Host) (files : list jsstring) (runs : list (Runtime * Config * RunState)) :
  readdir h RESULTS_DIR = Normal files →
  jsonFiles files ≠ [] →
  Forall2 (λ file run,
             ∃ content,
               readFile h (join h RESULTS_DIR file) = Normal content
               ∧ JSON_parse h content = Normal (artifact run.1.1 run.1.2 run.2))
    (jsonFiles files) runs →
  (∀ file text, writeFile h file text = Normal ()) →
  let sts := map snd runs in
  let e := extractDescriptions h in
  exitCode e = 0
  ∧ file_errors (stdout e) = []
  ∧ LogSummary (length runs)
      (sum_list (map (λ st, (length (results st) + length (errors st))%nat) sts))
      (sum_list (map (λ st, length (described (results st))) sts))
      (sum_list (map (λ st, length (errors st)) sts)) ∈ stdout e
  ∧ ∃ text text' doc,
      writes (stdout e) = [(OUTPUT_FILE, text); (detailedOutputFile, text')]
      ∧ parse text = Some doc
      ∧ get "descriptions" doc
        = Some (JArray (concat (map (λ st, map description_json
                                             (described (results st))) sts))).
Proof.
  intros Hr Hne Hfiles Hwrite sts e. subst e.
  pose proof (extract_files_artifacts h _ _ Hfiles empty_tally) as He.
  fold sts in He.
  destruct (foldl_add_artifact sts empty_tally) as (Hd & Hi & Hk & Hf).
  set (t := foldl (λ t st, add_artifact st t) empty_tally sts) in *.
  simpl in Hd, Hi, Hk, Hf.
  assert (Hlen : length (jsonFiles files) = length runs)
    by (eapply Forall2_length; eauto).
  destruct (extractDescriptions_cases h)
    as [(m & Hr' & _)
       |[(files' & Hr' & Hf' & _)
        |(files' & t' & lines & Hr' & _ & He' & Hw)]];
    rewrite Hr in Hr'; try discriminate; injection Hr' as <-; [done|].
  rewrite He in He'. injection He' as <- <-.
  cbv zeta in Hw.
  destruct Hw as [(m & Hw & _)|[(m & _ & Hw & _)|(_ & _ & ->)]];
    try (rewrite Hwrite in Hw; discriminate).
  cbn [stdout exitCode]. rewrite Hlen, <- Hi, <- Hk, <- Hf.
  split; [done|].
  split.
  { rewrite !file_errors_app.
    rewrite (proj1 (read_lines_record (join h RESULTS_DIR) (jsonFiles files))).
    reflexivity. }
  split.
  { apply elem_of_app. right. do 2 (apply elem_of_cons; right).
    apply elem_of_cons. by left. }
  eexists _, _, (output h (length runs) t).
  split.
  { rewrite !writes_app.
    rewrite (proj2 (read_lines_record (join h RESULTS_DIR) (jsonFiles files))).
    reflexivity. }
  split; [apply parse_stringify|].
  change (get "descriptions" (output h (length runs) t))
    with (Some (JArray (map (λ item, default JNull (item_description item))
                          (allDescriptions t)))).
  do 2 f_equal. rewrite Hd. clear.
  induction sts as [|st sts IH]; [done|].
  simpl. rewrite map_app, IH. f_equal.
  induction (described (results st)) as [|r rs IHr]; [done|].
  simpl. by rewrite description_of_item, IHr.
Qed.

(** The artifact of a run over two images, one answered and one failed. *)
Lemma extraction_of_artifacts_witness :
  let rt := Demo.runtime (Normal Demo.two) Demo.b_fails in
  let config := CONFIG (Demo.env "3") in
  let st := final (process rt config (repeat 0%nat 20)) in
  let h := host [(js "run.json", stringify (artifact rt config st))] [] in
  exitCode (extractDescriptions h) = 0
  ∧ LogSummary 1 2 1 1 ∈ stdout (extractDescriptions h).
Proof.
  intros rt config st h.
  destruct (extraction_of_artifacts h [js "run.json"] [(rt, config, st)])
    as (H1 & _ & H2 & _).
  - reflexivity.
  - vm_compute. discriminate.
  - change (jsonFiles [js "run.json"]) with [js "run.json"].
    constructor; [|constructor].
    exists (stringify (artifact rt config st)). split; [reflexivity|].
    cbn [JSON_parse h host]. by rewrite parse_stringify.
  - reflexivity.
  - split; [exact H1|].
    replace (LogSummary 1 2 1 1)
      with (LogSummary (length [(rt, config, st)])
              (sum_list (map (λ st, (length (results st) + length (errors st))%nat)
                           (map snd [(rt, config, st)])))
              (sum_list (map (λ st, length (described (results st)))
                           (map snd [(rt, config, st)])))
              (sum_list (map (λ st, length (errors st))
                           (map snd [(rt, config, st)]))))
      by (vm_compute; reflexivity).
    exact H2.
Defined.

(** X19.  A [null] among the results of a file cuts the file short: the
    results before it and the [null] itself are counted as images, the
    results after it and all the errors of the file are not counted, and
    the file gets an error line; the extraction goes on with the next
    file. *)
Theorem a_null_result_cuts_the_file_short
  (h : Host) (file content : jsstring) (data : json) (pre rest : list json)
  (t : Tally) :
  readFile h (join h RESULTS_DIR file) = Normal content →
  JSON_parse h content = Normal data →
  get "results" data = Some (JArray (pre ++ JNull :: rest)) →
  Forall (λ r, r ≠ JNull) pre →
  ∃ t',
    extract_file h file t
    = (t', [ReadFile (join h RESULTS_DIR file);
            LogFileError file (null_property h "success")])
    ∧ totalImages t' = (totalImages t + length pre + 1)%nat
    ∧ failedImages t' = failedImages t
    ∧ (successfulDescriptions t' ≤ successfulDescriptions t + length pre)%nat.
Proof.
  intros Hread Hparse Hresults Hpre.
  assert (Hnull : data ≠ JNull) by (by intros ->).
  destruct (extract_results_no_null h pre Hpre t) as (t1 & He & H1 & H2 & H3).
  exists {| allDescriptions := allDescriptions t1;
            totalImages := S (totalImages t1);
            successfulDescriptions := successfulDescriptions t1;
            failedImages := failedImages t1 |}.
  split; [|simpl; repeat split; lia].
  unfold extract_file. rewrite Hread, Hparse.
  rewrite (extract_data_body h _ _ Hnull), Hresults.
  cbn [truthy isArray elements andb].
  rewrite extract_results_app, He. reflexivity.
Qed.

(** A file with three results, the second [null], and an error. *)
Lemma a_null_result_cuts_the_file_short_witness :
  let entry := JObject [(js "success", JBool true);
                        (js "description", JString (js "A cat."))] in
  let data := JObject [(js "results", JArray [entry; JNull; entry]);
                       (js "errors", JArray [JObject []])] in
  let h := host [(js "run.json", stringify data)] [] in
  ∃ t', (extract_file h (js "run.json") empty_tally).1 = t'
        ∧ totalImages t' = 2%nat ∧ failedImages t' = 0%nat.
Proof.
  intros entry data h.
  destruct (a_null_result_cuts_the_file_short h (js "run.json") (stringify data)
              data [entry] [entry] empty_tally)
    as (t' & He & H1 & H2 & _).
  - reflexivity.
  - cbn [JSON_parse h host]. by rewrite parse_stringify.
  - reflexivity.
  - constructor; [discriminate|constructor].
  - exists t'. rewrite He. split; [done|]. split; [exact H1|exact H2].
Defined.

End ArtifactTheorems.
